(** * sketchbook-earth, tutorial 02 (temperature): grid normalisation and
      weighted aggregation

    A shallow embedding of the data-reduction functions of
    [tutorials/02_temperature/02_temperature.py]:

    - [coordinate_is_monthly], [streamline_coords]       (coordinate normaliser)
    - [weighted_spatial_average]                         (spatial aggregator)
    - [weighted_annual_average], [weighted_seasonal_average],
      [convert_time_to_year_season]                      (temporal resampler)
    - the monthly climatology and anomaly expressions    (anomaly engine)

    Modelling conventions.
    - A floating-point number is an exact rational ([Q]); a cell that may be
      missing is an [option Q], [None] being NaN ("no data").  Rounding is
      not modelled, so equalities between numbers are [Qeq].
    - A [datetime64] timestamp is a civil date (year, month, day) with the
      nanoseconds elapsed since midnight.
    - An xarray object lives in a store; a function that assigns to
      [da.coords[...]] updates the object in place, a function such as
      [rename] or [sortby] allocates a new one.
    - A Python exception is an [Err] result. *)

From Stdlib Require Import ZArith QArith Qround Qabs.
From Stdlib Require Import List Bool Lia Lqa Permutation Sorted.
Import ListNotations.

Set Implicit Arguments.

(* ===================================================================== *)
(** * Results of fallible code *)
(* ===================================================================== *)

Inductive exn : Type :=
| ValueError
| KeyError
| AssertionError.

Inductive result (A : Type) : Type :=
| Ok (a : A)
| Err (e : exn).

Arguments Ok {A} a.
Arguments Err {A} e.

Definition rbind {A B : Type} (r : result A) (k : A -> result B) : result B :=
  match r with
  | Ok a => k a
  | Err e => Err e
  end.

(* ===================================================================== *)
(** * Numbers *)
(* ===================================================================== *)

Definition Qltb (x y : Q) : bool := negb (Qle_bool y x).

(** Equality of possibly missing numbers: both missing, or both present
    and equal as rationals. *)
Definition oeq (a b : option Q) : Prop :=
  match a, b with
  | Some x, Some y => x == y
  | None, None => True
  | _, _ => False
  end.

(** Sum of a list of rationals ([numpy.sum]). *)
Definition Qsum (l : list Q) : Q := fold_right Qplus 0 l.

(* ===================================================================== *)
(** * Calendar *)
(* ===================================================================== *)

Module Calendar.

Record timestamp : Type := mkTime {
  year : Z;
  month : Z;
  day : Z;
  nanos : Z   (* nanoseconds since midnight *)
}.

Definition is_leap (y : Z) : bool :=
  ((y mod 4 =? 0) && (negb (y mod 100 =? 0) || (y mod 400 =? 0)))%Z.

(** [time.dt.days_in_month] *)
Definition days_in_month (y m : Z) : Z :=
  (if m =? 2 then (if is_leap y then 29 else 28)
   else if (m =? 4) || (m =? 6) || (m =? 9) || (m =? 11) then 30
   else 31)%Z.

(** Days of the year [y] that precede the first day of month [m]. *)
Definition days_before_month (y m : Z) : Z :=
  fold_right Z.add 0%Z
    (map (fun k => days_in_month y (Z.of_nat k)) (seq 1 (Z.to_nat (m - 1)))).

Definition days_before_year (y : Z) : Z :=
  (let p := y - 1 in 365 * p + p / 4 - p / 100 + p / 400)%Z.

(** Proleptic Gregorian ordinal of a date (1 is 0001-01-01). *)
Definition toordinal (t : timestamp) : Z :=
  (days_before_year (year t) + days_before_month (year t) (month t) + day t)%Z.

Definition ns_per_day : Z := (86400 * 1000000000)%Z.

(** The [datetime64[ns]] value of a timestamp, up to the choice of epoch
    (only differences are ever taken). *)
Definition to_ns (t : timestamp) : Z :=
  (toordinal t * ns_per_day + nanos t)%Z.

(** [index.to_period("M").to_timestamp()] on one timestamp: midnight of
    the first day of its month. *)
Definition month_start (t : timestamp) : timestamp :=
  {| year := year t; month := month t; day := 1; nanos := 0 |}.

(** [np.diff] *)
Fixpoint np_diff (l : list Z) : list Z :=
  match l with
  | a :: ((b :: _) as tl) => (b - a)%Z :: np_diff tl
  | _ => []
  end.

(** [pd.to_timedelta(d).days]: whole days, rounded towards minus
    infinity. *)
Definition timedelta_days (d : Z) : Z := (d / ns_per_day)%Z.

(** The calendar day that follows. *)
Definition next_day (t : timestamp) : timestamp :=
  if (day t <? days_in_month (year t) (month t))%Z then
    {| year := year t; month := month t; day := day t + 1; nanos := nanos t |}
  else if (month t <? 12)%Z then
    {| year := year t; month := month t + 1; day := 1; nanos := nanos t |}
  else
    {| year := year t + 1; month := 1; day := 1; nanos := nanos t |}.

(** [t + pd.Timedelta(days=n)] *)
Definition add_days (n : nat) (t : timestamp) : timestamp :=
  Nat.iter n next_day t.

End Calendar.

Import Calendar.

(** [coordinate_is_monthly(ds, "time")], given the values of the time
    coordinate. *)
Definition coordinate_is_monthly (time : list timestamp) : bool :=
  let time_diffs := np_diff (map to_ns time) in
  let time_diffs := map timedelta_days time_diffs in
  forallb (fun d => (28 <=? d)%Z && (d <=? 31)%Z) time_diffs.

(* ===================================================================== *)
(** * xarray objects and the store *)
(* ===================================================================== *)

(** The name under which a dataset carries its longitude and latitude
    coordinates. *)
Inductive lon_label : Type := Longitude | Lon.
Inductive lat_label : Type := Latitude | Lat.

(** A labelled array with dimensions (time, lat, lon).  [time] is [None]
    when the object has no ["time"] coordinate.  [values] is indexed by
    time step, then latitude, then longitude. *)
Record DataArray : Type := mkDA {
  time : option (list timestamp);
  lon_name : lon_label;
  lat_name : lat_label;
  lat : list Q;
  lon : list Q;
  values : list (list (list (option Q)))
}.

Definition set_time (d : DataArray) (t : list timestamp) : DataArray :=
  {| time := Some t; lon_name := lon_name d; lat_name := lat_name d;
     lat := lat d; lon := lon d; values := values d |}.

Definition set_lon (d : DataArray) (l : list Q) : DataArray :=
  {| time := time d; lon_name := lon_name d; lat_name := lat_name d;
     lat := lat d; lon := l; values := values d |}.

(** [da.rename({"longitude": "lon"})] and [da.rename({"latitude": "lat"})] *)
Definition rename_lon (d : DataArray) : DataArray :=
  {| time := time d; lon_name := Lon; lat_name := lat_name d;
     lat := lat d; lon := lon d; values := values d |}.

Definition rename_lat (d : DataArray) : DataArray :=
  {| time := time d; lon_name := lon_name d; lat_name := Lat;
     lat := lat d; lon := lon d; values := values d |}.

(** ** Stable sorting by a coordinate *)

(** [sortby] computes a stable ordering of the coordinate values
    ([np.lexsort]) and then indexes every array along that dimension with
    it ([isel]). *)
Fixpoint insert_key (x : Q * nat) (l : list (Q * nat)) : list (Q * nat) :=
  match l with
  | [] => [x]
  | y :: l' =>
      if Qle_bool (fst x) (fst y) then x :: l else y :: insert_key x l'
  end.

Definition sort_keys (l : list (Q * nat)) : list (Q * nat) :=
  fold_right insert_key [] l.

(** The order of two keyed entries. *)
Definition key_le (a b : Q * nat) : Prop := fst a <= fst b.

Definition argsort (keys : list Q) : list nat :=
  map snd (sort_keys (combine keys (seq 0 (length keys)))).

Definition isel {A : Type} (d : A) (order : list nat) (xs : list A) : list A :=
  map (fun i => nth i xs d) order.

Definition sortby_lat (d : DataArray) : DataArray :=
  let order := argsort (lat d) in
  {| time := time d; lon_name := lon_name d; lat_name := lat_name d;
     lat := isel 0 order (lat d);
     lon := lon d;
     values := map (fun slab => isel [] order slab) (values d) |}.

Definition sortby_lon (d : DataArray) : DataArray :=
  let order := argsort (lon d) in
  {| time := time d; lon_name := lon_name d; lat_name := lat_name d;
     lat := lat d;
     lon := isel 0 order (lon d);
     values := map (map (isel None order)) (values d) |}.

(** ** Minimum and maximum of a coordinate *)

Definition Qminb (x y : Q) : Q := if Qle_bool x y then x else y.
Definition Qmaxb (x y : Q) : Q := if Qle_bool x y then y else x.

(** [da["lon"].min()] and [.max()]; the reduction of an empty array
    raises. *)
Definition coord_min (l : list Q) : result Q :=
  match l with
  | [] => Err ValueError
  | x :: l' => Ok (fold_left Qminb l' x)
  end.

Definition coord_max (l : list Q) : result Q :=
  match l with
  | [] => Err ValueError
  | x :: l' => Ok (fold_left Qmaxb l' x)
  end.

(** Python's [%] on floats with a positive divisor: the remainder has the
    sign of the divisor. *)
Definition pymod (x m : Q) : Q := x - m * inject_Z (Qfloor (x / m)).

(** [(lon + 180) % 360 - 180] *)
Definition wrap_lon (x : Q) : Q := pymod (x + 180) 360 - 180.

(** ** The store *)

Definition loc : Type := nat.
Definition store : Type := list DataArray.

(** A computation that reads and updates the store and may raise. *)
Definition M (A : Type) : Type := store -> result (A * store).

Definition ret {A : Type} (a : A) : M A := fun s => Ok (a, s).

Definition bind {A B : Type} (m : M A) (k : A -> M B) : M B :=
  fun s =>
    match m s with
    | Ok (a, s') => k a s'
    | Err e => Err e
    end.

Definition raise {A : Type} (e : exn) : M A := fun _ => Err e.

Definition lift {A : Type} (r : result A) : M A :=
  fun s => match r with Ok a => Ok (a, s) | Err e => Err e end.

Notation "x <- c ;; k" := (bind c (fun x => k))
  (at level 61, c at next level, right associativity).
Notation "c ;;; k" := (bind c (fun _ => k))
  (at level 61, right associativity).

Fixpoint update {A : Type} (n : nat) (x : A) (l : list A) : list A :=
  match l, n with
  | [], _ => []
  | _ :: l', O => x :: l'
  | y :: l', S n' => y :: update n' x l'
  end.

Definition read (l : loc) : M DataArray :=
  fun s => match nth_error s l with
           | Some d => Ok (d, s)
           | None => Err KeyError
           end.

Definition write (l : loc) (d : DataArray) : M unit :=
  fun s => Ok (tt, update l d s).

Definition alloc (d : DataArray) : M loc :=
  fun s => Ok (length s, s ++ [d]).

(** A method that returns a new object computed from [l]. *)
Definition fresh (f : DataArray -> DataArray) (l : loc) : M loc :=
  d <- read l ;; alloc (f d).

(* ===================================================================== *)
(** * Coordinate normaliser *)
(* ===================================================================== *)

(** [streamline_coords(da)].  The assignment to [da.coords["time"]] acts
    on the caller's object; from the first [rename] or [sortby] on, [da]
    names a new object. *)
Definition streamline_coords (da : loc) : M loc :=
  (* Ensure that time coordinate is fixed to the first day of the month *)
  d <- read da ;;
  match time d with
  | Some t =>
      if coordinate_is_monthly t
      then write da (set_time d (map month_start t))
      else ret tt
  | None => ret tt
  end ;;;
  (* Ensure that spatial coordinates are called 'lon' and 'lat' *)
  d <- read da ;;
  da <- match lon_name d with
        | Longitude => fresh rename_lon da
        | Lon => ret da
        end ;;
  d <- read da ;;
  da <- match lat_name d with
        | Latitude => fresh rename_lat da
        | Lat => ret da
        end ;;
  (* Ensure that lon/lat are sorted in ascending order *)
  da <- fresh sortby_lat da ;;
  da <- fresh sortby_lon da ;;
  (* Ensure that lon is in the range [-180, 180] *)
  d <- read da ;;
  lon_min <- lift (coord_min (lon d)) ;;
  lon_max <- lift (coord_max (lon d)) ;;
  if Qltb lon_min (-180) || Qltb 180 lon_max then
    write da (set_lon d (map wrap_lon (lon d))) ;;;
    da <- fresh sortby_lon da ;;
    ret da
  else
    ret da.

(* ===================================================================== *)
(** * Spatial aggregator *)
(* ===================================================================== *)

(** A rectangular region: [{"lon": slice(lon_lo, lon_hi),
    "lat": slice(lat_lo, lat_hi)}]. *)
Record Region : Type := mkRegion {
  lon_lo : Q; lon_hi : Q;
  lat_lo : Q; lat_hi : Q
}.

Definition REGION_Global : Region := mkRegion (-180) 180 (-90) 90.
Definition REGION_Northern_Hemisphere : Region := mkRegion (-180) 180 0 90.
Definition REGION_Southern_Hemisphere : Region := mkRegion (-180) 180 (-90) 0.
Definition REGION_Europe : Region := mkRegion (-25) 40 34 72.
Definition REGION_Arctic : Region := mkRegion (-180) 180 (666 # 10) 90.

(** Label-based slicing of an ascending axis keeps the labels between the
    two bounds, both included. *)
Definition in_slice (lo hi x : Q) : bool := Qle_bool lo x && Qle_bool x hi.

Definition slice_idx (lo hi : Q) (axis : list Q) : list nat :=
  filter (fun i => in_slice lo hi (nth i axis 0)) (seq 0 (length axis)).

(** [a.sel] with the bounds of the region on a (lat, lon) array given with its axes. *)
Definition sel_grid {A : Type} (d : A) (region : Region) (lats lons : list Q)
    (g : list (list A)) : list (list A) :=
  map (isel d (slice_idx (lon_lo region) (lon_hi region) lons))
      (isel [] (slice_idx (lat_lo region) (lat_hi region) lats) g).

(** [da.sel] with the bounds of the region *)
Definition sel_region (region : Region) (d : DataArray) : DataArray :=
  {| time := time d; lon_name := lon_name d; lat_name := lat_name d;
     lat := isel 0 (slice_idx (lat_lo region) (lat_hi region) (lat d)) (lat d);
     lon := isel 0 (slice_idx (lon_lo region) (lon_hi region) (lon d)) (lon d);
     values := map (sel_grid None region (lat d) (lon d)) (values d) |}.

Definition fillna0 (v : option Q) : Q :=
  match v with Some x => x | None => 0 end.

(** [da.notnull()] as a number. *)
Definition notnull (v : option Q) : Q :=
  match v with Some _ => 1 | None => 0 end.

(** [xr.dot] over all dimensions of two aligned arrays. *)
Definition dot (a b : list Q) : Q :=
  Qsum (map (fun p => fst p * snd p) (combine a b)).

(** [x.where(x != 0.0)] *)
Definition where_nonzero (x : Q) : option Q :=
  if Qeq_bool x 0 then None else Some x.

(** Division by a possibly missing number. *)
Definition odiv (a : Q) (b : option Q) : option Q :=
  match b with
  | Some y => Some (a / y)
  | None => None
  end.

(** [da.weighted(weights).mean(dims)] of xarray, over the cells of the
    reduced dimensions paired with their weights:
    [_weighted_sum] is [dot(da.fillna(0), weights)];
    [_sum_of_weights] is [dot(da.notnull(), weights)] with zero masked out;
    [_weighted_mean] is their quotient. *)
Definition weighted_mean (cells : list (option Q * Q)) : option Q :=
  let da := map fst cells in
  let weights := map snd cells in
  let weighted_sum := dot (map fillna0 da) weights in
  let sum_of_weights := where_nonzero (dot (map notnull da) weights) in
  odiv weighted_sum sum_of_weights.

(** Pairs every cell of a (lat, lon) slab with the weight at its
    position. *)
Definition zip_grid (slab : list (list (option Q))) (w : list (list Q))
    : list (option Q * Q) :=
  concat (map (fun rw => combine (fst rw) (snd rw)) (combine slab w)).

Section SpatialAverage.

(** [np.cos(np.deg2rad(x))] *)
Variable cos_deg : Q -> Q.

(** The weights of [weighted_spatial_average] on the selected region:
    the area weight of each latitude, broadcast along longitude and,
    when a land mask is given, multiplied by the mask with its missing
    entries replaced by 0. *)
Definition spatial_weights (da : DataArray) (region : Region)
    (land_mask : option (list (list (option Q))))
    (lats lons : list Q) : list (list Q) :=
  let weights := map cos_deg (lat da) in
  match land_mask with
  | None => map (fun w => repeat w (length (lon da))) weights
  | Some land_mask =>
      let land_mask := sel_grid None region lats lons land_mask in
      map (fun wm => map (fun m => fst wm * fillna0 m) (snd wm))
          (combine weights land_mask)
  end.

(** [weighted_spatial_average(da, region, land_mask)]: one value per
    remaining coordinate (time step).  The land mask is an array over
    the (lat, lon) axes of [da]. *)
Definition weighted_spatial_average (da : DataArray) (region : Region)
    (land_mask : option (list (list (option Q)))) : list (option Q) :=
  let lats := lat da in
  let lons := lon da in
  let da := sel_region region da in
  let weights := spatial_weights da region land_mask lats lons in
  map (fun slab => weighted_mean (zip_grid slab weights)) (values da).

End SpatialAverage.

(** The cosine of an angle in degrees at the angles where it is rational;
    used to evaluate examples (elsewhere it is 0 and not used). *)
Definition cos_deg_rational (x : Q) : Q :=
  if Qeq_bool x 0 then 1
  else if Qeq_bool (Qabs x) 60 then 1 # 2
  else 0.

(* ===================================================================== *)
(** * Temporal resampler *)
(* ===================================================================== *)

(** A time series: the values of an array at one grid point (or of a
    spatial average), each with its timestamp. *)
Definition series (A : Type) : Type := list (timestamp * A).

Fixpoint is_monotonic_increasing (l : list Z) : bool :=
  match l with
  | a :: ((b :: _) as tl) => (a <=? b)%Z && is_monotonic_increasing tl
  | _ => true
  end.

Definition bin_range (k0 k1 : Z) : list Z :=
  map (fun i => (k0 + Z.of_nat i)%Z) (seq 0 (Z.to_nat (k1 - k0 + 1))).

(** The entries of a series that fall into the bin [k]. *)
Definition entries_of {A : Type} (key : timestamp -> Z) (x : series A) (k : Z)
    : series A :=
  filter (fun e => (key (fst e) =? k)%Z) x.

(** The bins from the one of the first timestamp to the one of the
    last. *)
Definition bins_of {A : Type} (key : timestamp -> Z) (x : series A) : list Z :=
  match x with
  | [] => []
  | e0 :: _ => bin_range (key (fst e0)) (key (fst (last x e0)))
  end.

(** [x.resample(time=freq)]: the bins of the frequency from the one of the
    first timestamp to the one of the last, each with the entries that
    fall into it (possibly none).  [key] numbers the bins of the
    frequency.  Resampling needs a monotonic index. *)
Definition resample {A : Type} (key : timestamp -> Z) (x : series A)
    : result (list (Z * series A)) :=
  if is_monotonic_increasing (map (fun e => to_ns (fst e)) x) then
    Ok (map (fun k => (k, entries_of key x k)) (bins_of key x))
  else Err ValueError.

(** [.sum(skipna=False)] over one bin; a bin without entries is restored
    as NaN. *)
Definition sum_strict (bin : list (option Q)) : option Q :=
  match bin with
  | [] => None
  | _ => fold_right (fun v acc =>
                       match v, acc with
                       | Some x, Some a => Some (x + a)
                       | _, _ => None
                       end) (Some 0) bin
  end.

(** [.sum()] over one bin of numbers without NaN. *)
Definition sum_bin (bin : list Q) : option Q :=
  match bin with
  | [] => None
  | _ => Some (Qsum bin)
  end.

Definition omul (a : option Q) (b : Q) : option Q :=
  match a with Some x => Some (x * b) | None => None end.

Definition odiv2 (a b : option Q) : option Q :=
  match a, b with
  | Some x, Some y => Some (x / y)
  | _, _ => None
  end.

Definition osub (a b : option Q) : option Q :=
  match a, b with
  | Some x, Some y => Some (x - y)
  | _, _ => None
  end.

(** [da.time.dt.days_in_month] at one timestamp. *)
Definition dim (t : timestamp) : Z := days_in_month (year t) (month t).

(** ** Annual average *)

(** [days_in_month.groupby("time.year").sum()] at the year [y]. *)
Definition year_total {A : Type} (da : series A) (y : Z) : Z :=
  fold_right Z.add 0%Z
    (map (fun e => dim (fst e)) (filter (fun e => (year (fst e) =? y)%Z) da)).

(** [days_in_month.groupby("time.year") /
     days_in_month.groupby("time.year").sum()] *)
Definition annual_weights {A : Type} (da : series A) : series Q :=
  map (fun e => (fst e,
                 inject_Z (dim (fst e)) / inject_Z (year_total da (year (fst e)))))
      da.

(** [np.testing.assert_allclose(x, 1)] on one entry: relative tolerance
    1e-7, and NaN differs from 1. *)
Definition allclose_1 (x : option Q) : bool :=
  match x with
  | Some a => Qle_bool (Qabs (a - 1)) (1 # 10000000)
  | None => false
  end.

Definition year_start (y : Z) : timestamp :=
  {| year := y; month := 1; day := 1; nanos := 0 |}.

(** [weighted_annual_average(da)] *)
Definition weighted_annual_average (da : series (option Q))
    : result (series (option Q)) :=
  let weights := annual_weights da in
  rbind (resample year
           (map (fun dw => (fst (fst dw), omul (snd (fst dw)) (snd (snd dw))))
                (combine da weights)))
    (fun bins =>
       let nominator := map (fun b => (fst b, sum_strict (map snd (snd b)))) bins in
       rbind (resample year weights)
         (fun wbins =>
            let denominator := map (fun b => (fst b, sum_bin (map snd (snd b)))) wbins in
            if forallb (fun b => allclose_1 (snd b)) denominator then
              Ok (map (fun nd => (year_start (fst (fst nd)),
                                  odiv2 (snd (fst nd)) (snd (snd nd))))
                      (combine nominator denominator))
            else Err AssertionError)).

(** ** Seasonal average *)

(** The number of the quarter starting in December, March, June or
    September that contains a timestamp. *)
Definition quarter (t : timestamp) : Z := ((12 * year t + month t) / 3)%Z.

(** The first day of a quarter, the label of its bin. *)
Definition quarter_start (k : Z) : timestamp :=
  {| year := (3 * k - 1) / 12; month := (3 * k - 1) mod 12 + 1;
     day := 1; nanos := 0 |}.

(** [weighted_seasonal_average(ds)] *)
Definition weighted_seasonal_average (ds : series (option Q))
    : result (series (option Q)) :=
  let month_length := map (fun e => (fst e, inject_Z (dim (fst e)))) ds in
  rbind (resample quarter
           (map (fun e => (fst e, omul (snd e) (inject_Z (dim (fst e))))) ds))
    (fun bins =>
       let ds_weighted_sum := map (fun b => (fst b, sum_strict (map snd (snd b)))) bins in
       rbind (resample quarter month_length)
         (fun wbins =>
            let sum_of_weights := map (fun b => (fst b, sum_bin (map snd (snd b)))) wbins in
            Ok (map (fun nd => (quarter_start (fst (fst nd)),
                                odiv2 (snd (fst nd)) (snd (snd nd))))
                    (combine ds_weighted_sum sum_of_weights)))).

Inductive season : Type := DJF | MAM | JJA | SON.

Definition season_eqb (a b : season) : bool :=
  match a, b with
  | DJF, DJF | MAM, MAM | JJA, JJA | SON, SON => true
  | _, _ => false
  end.

(** [time.dt.season]: the months are numbered in threes from December. *)
Definition season_of_month (m : Z) : season :=
  let i := ((m / 3) mod 4)%Z in
  if (i =? 0)%Z then DJF
  else if (i =? 1)%Z then MAM
  else if (i =? 2)%Z then JJA
  else SON.

(** An array over (year, season); a pair that is not listed holds NaN. *)
Definition table : Type := list ((Z * season) * option Q).

Definition key_eqb (k : Z * season) (y : Z) (s : season) : bool :=
  (fst k =? y)%Z && season_eqb (snd k) s.

Definition table_get (t : table) (y : Z) (s : season) : option Q :=
  match find (fun e => key_eqb (fst e) y s) t with
  | Some e => snd e
  | None => None
  end.

(** [convert_time_to_year_season(ds)] *)
Definition convert_time_to_year_season (ds : series (option Q)) : table :=
  map (fun e => ((year (fst e), season_of_month (month (fst e))), snd e)) ds.

(** [t.loc[dict(season=s, year=ys)] = np.nan]; a label that is not on the
    axis raises. *)
Definition loc_set_nan (s : season) (ys : list Z) (t : table) : result table :=
  if existsb (fun e => season_eqb (snd (fst e)) s) t
     && forallb (fun y => existsb (fun e => (fst (fst e) =? y)%Z) t) ys
  then
    Ok (map (fun e => if season_eqb (snd (fst e)) s
                         && existsb (Z.eqb (fst (fst e))) ys
                      then (fst e, None) else e) t)
  else Err KeyError.

(** The seasonal fields of the script: the seasonal average, its labels
    moved forward by 31 days, re-indexed by (year, season), with the
    winters of 1950 and 2023 set to NaN. *)
Definition eobs_seasonal (eobs_europe : series (option Q)) : result table :=
  rbind (weighted_seasonal_average eobs_europe)
    (fun eobs_seasonal =>
       let eobs_seasonal :=
         map (fun e => (add_days 31 (fst e), snd e)) eobs_seasonal in
       let eobs_seasonal := convert_time_to_year_season eobs_seasonal in
       loc_set_nan DJF [1950; 2023]%Z eobs_seasonal).

(* ===================================================================== *)
(** * Climatology and anomalies *)
(* ===================================================================== *)

(** [da.sel(REF_PERIOD)], with [REF_PERIOD = {"time": slice("1991", "2020")}] *)
Definition sel_REF_PERIOD {A : Type} (da : series A) : series A :=
  filter (fun e => (1991 <=? year (fst e))%Z && (year (fst e) <=? 2020)%Z) da.

(** [.mean()] of a group, skipping NaN: the sum of the values present over
    their count, NaN when there is none. *)
Definition nanmean (l : list (option Q)) : option Q :=
  let total := Qsum (map fillna0 l) in
  let count := Qsum (map notnull l) in
  if Qeq_bool count 0 then None else Some (total / count).

(** [da.sel(REF_PERIOD).groupby("time.month").mean()]: one entry per
    calendar month present, in ascending order. *)
Definition monthly_climatology (da : series (option Q)) : list (Z * option Q) :=
  let ref := sel_REF_PERIOD da in
  map (fun m => (m, nanmean (map snd (filter (fun e => (month (fst e) =? m)%Z) ref))))
      (filter (fun m => existsb (fun e => (month (fst e) =? m)%Z) ref)
              (map Z.of_nat (seq 1 12))).

Definition climatology_at (clim : list (Z * option Q)) (m : Z) : option Q :=
  match find (fun e => (fst e =? m)%Z) clim with
  | Some e => snd e
  | None => None
  end.

(** [da.groupby("time.month") - climatology]; a month without climatology
    yields NaN. *)
Definition anomaly (da : series (option Q)) (clim : list (Z * option Q))
    : series (option Q) :=
  map (fun e => (fst e, osub (snd e) (climatology_at clim (month (fst e))))) da.

(* ===================================================================== *)
(** * Specification-side definitions *)
(* ===================================================================== *)

(** The masked weighted mean, in the words of the specification:
    sum(value * weight) / sum(weight) over the cells whose value is
    defined, and no data when that denominator is zero. *)
Definition defined_cells (cells : list (option Q * Q)) : list (Q * Q) :=
  flat_map (fun c => match fst c with
                     | Some v => [(v, snd c)]
                     | None => []
                     end) cells.

Definition masked_mean (cells : list (option Q * Q)) : option Q :=
  let present := defined_cells cells in
  let num := Qsum (map (fun c => fst c * snd c) present) in
  let den := Qsum (map snd present) in
  if Qeq_bool den 0 then None else Some (num / den).

(** ** The two objects a call of [streamline_coords] leaves behind *)

(** The caller's object after the call: only its time coordinate may have
    been replaced. *)
Definition snap_time (d : DataArray) : DataArray :=
  match time d with
  | Some t =>
      if coordinate_is_monthly t then set_time d (map month_start t) else d
  | None => d
  end.

Definition canonical_names (d : DataArray) : DataArray :=
  {| time := time d; lon_name := Lon; lat_name := Lat;
     lat := lat d; lon := lon d; values := values d |}.

Definition needs_wrap (l : list Q) : bool :=
  match l with
  | [] => false
  | x :: l' =>
      Qltb (fold_left Qminb l' x) (-180) || Qltb 180 (fold_left Qmaxb l' x)
  end.

(** The value of the object that the call returns. *)
Definition streamlined (d : DataArray) : result DataArray :=
  let d1 := sortby_lon (sortby_lat (canonical_names (snap_time d))) in
  match lon d1 with
  | [] => Err ValueError
  | _ :: _ =>
      if needs_wrap (lon d1)
      then Ok (sortby_lon (set_lon d1 (map wrap_lon (lon d1))))
      else Ok d1
  end.

(** A field that satisfies the invariants of the data model. *)
Definition ascending (l : list Q) : Prop := StronglySorted Qle l.
Definition strictly_ascending (l : list Q) : Prop := StronglySorted Qlt l.
Definition in_lon_range (x : Q) : Prop := -180 <= x /\ x < 180.

(** Every slab of the data has one row per latitude and every row one
    cell per longitude. *)
Definition well_shaped (d : DataArray) : Prop :=
  Forall (fun slab => length slab = length (lat d)
                      /\ Forall (fun row => length row = length (lon d)) slab)
         (values d).

(** A monthly time coordinate holds first-of-month timestamps. *)
Definition time_snapped (d : DataArray) : Prop :=
  forall t, time d = Some t -> coordinate_is_monthly t = true ->
            map month_start t = t.

(** The invariants of a GriddedField in the data model: canonical axis
    names, latitude and longitude strictly ascending, longitude within
    [-180, 180), monthly timestamps on the first of the month; the
    longitude axis is not empty. *)
Definition normalized (d : DataArray) : Prop :=
  lon_name d = Lon /\ lat_name d = Lat
  /\ strictly_ascending (lat d)
  /\ strictly_ascending (lon d) /\ Forall in_lon_range (lon d) /\ lon d <> []
  /\ time_snapped d /\ well_shaped d.

(** What every returned field satisfies. *)
Definition settled (d : DataArray) : Prop :=
  lon_name d = Lon /\ lat_name d = Lat
  /\ ascending (lat d) /\ ascending (lon d)
  /\ needs_wrap (lon d) = false /\ lon d <> []
  /\ time_snapped d /\ well_shaped d.

(** Longitudes that are pairwise different and less than a full turn
    apart. *)
Definition distinct_within_turn (l : list Q) : Prop :=
  ForallOrdPairs (fun a b => ~ a == b /\ Qabs (a - b) < 360) l.

(** Every cell of a slab paired with a weight computed from the latitude
    of its row. *)
Definition cells_by_latitude (weight : Q -> Q) (lats : list Q)
    (slab : list (list (option Q))) : list (option Q * Q) :=
  flat_map (fun lr => map (fun v => (v, weight (fst lr))) (snd lr))
           (combine lats slab).

(** A land mask that is 1 on every cell of the grid of a field. *)
Definition ones_mask (d : DataArray) : list (list (option Q)) :=
  map (fun _ => repeat (Some 1) (length (lon d))) (lat d).

(** Two lists of weighted cells with the same values and equal weights. *)
Definition same_cells (a b : list (option Q * Q)) : Prop :=
  Forall2 (fun c c' => fst c = fst c' /\ snd c == snd c') a b.

(** The day-weighted mean of the entries of a window, in the words of
    the specification: the values weighted by the days of their months,
    over the entries present; no data when the window has no entry or one
    of its values is missing. *)
Definition all_defined (es : series (option Q)) : bool :=
  forallb (fun e => match snd e with Some _ => true | None => false end) es.

Definition day_weighted_mean (es : series (option Q)) : option Q :=
  match es with
  | [] => None
  | _ :: _ =>
      if all_defined es
      then Some (Qsum (map (fun e => fillna0 (snd e) * inject_Z (dim (fst e))) es)
                 / Qsum (map (fun e => inject_Z (dim (fst e))) es))
      else None
  end.

(** The weight of an entry in [weighted_annual_average] and its weighted
    value. *)
Definition annual_weight {A : Type} (da : series A) (e : timestamp * A)
    : timestamp * Q :=
  (fst e, inject_Z (dim (fst e)) / inject_Z (year_total da (year (fst e)))).

Definition annual_term (da : series (option Q)) (e : timestamp * option Q)
    : timestamp * option Q :=
  (fst e, omul (snd e) (snd (annual_weight da e))).

(** The weighted value and the weight of an entry in
    [weighted_seasonal_average]. *)
Definition seasonal_term (e : timestamp * option Q) : timestamp * option Q :=
  (fst e, omul (snd e) (inject_Z (dim (fst e)))).

Definition month_length (e : timestamp * option Q) : timestamp * Q :=
  (fst e, inject_Z (dim (fst e))).

(** The values observed in calendar month [m] within the reference
    period, and their arithmetic mean. *)
Definition observed (da : series (option Q)) (m : Z) : list Q :=
  flat_map (fun e => match snd e with Some v => [v] | None => [] end)
           (filter (fun e => (month (fst e) =? m)%Z) (sel_REF_PERIOD da)).

Definition mean_observed (da : series (option Q)) (m : Z) : option Q :=
  match observed da m with
  | [] => None
  | xs => Some (Qsum xs / inject_Z (Z.of_nat (length xs)))
  end.

(** ** Sample fields *)

(** Two monthly time steps stamped mid-month, on a 2 x 4 grid with
    descending latitudes and longitudes counted from 0 to 360. *)
Definition mid_month_field : DataArray :=
  {| time := Some [mkTime 2000 1 16 0; mkTime 2000 2 15 0];
     lon_name := Longitude; lat_name := Latitude;
     lat := [10; -10];
     lon := [0; 90; 180; 270];
     values := [ [ [Some 1; Some 2; Some 3; Some 4];
                   [Some 5; Some 6; Some 7; Some 8] ];
                 [ [Some 9; Some 10; None; Some 12];
                   [Some 13; Some 14; Some 15; Some 16] ] ] |}.

(** A field whose longitudes are 0 and 180. *)
Definition half_turn_field : DataArray :=
  {| time := None; lon_name := Lon; lat_name := Lat;
     lat := [0]; lon := [0; 180];
     values := [ [ [Some 1; Some 2] ] ] |}.

(** A field with a single timestamp. *)
Definition single_step_field : DataArray :=
  {| time := Some [mkTime 2022 7 19 43200000000000];
     lon_name := Lon; lat_name := Lat;
     lat := [45]; lon := [10];
     values := [ [ [Some 21] ] ] |}.

(** A field that satisfies the invariants of the data model. *)
Definition normal_field : DataArray :=
  {| time := Some [mkTime 2000 1 1 0; mkTime 2000 2 1 0];
     lon_name := Lon; lat_name := Lat;
     lat := [-10; 10];
     lon := [-180; -90; 0; 90];
     values := [ [ [Some 7; Some 8; Some 5; Some 6];
                   [Some 3; Some 4; Some 1; Some 2] ];
                 [ [Some 15; Some 16; Some 13; Some 14];
                   [None; Some 12; Some 9; Some 10] ] ] |}.

(** One time step on two latitudes, the equator and 60 degrees north. *)
Definition two_latitude_field : DataArray :=
  {| time := None; lon_name := Lon; lat_name := Lat;
     lat := [0; 60]; lon := [0];
     values := [ [ [Some 3]; [Some 0] ] ] |}.

(** One row at the equator: a present cell and a missing one. *)
Definition one_missing_field (v : Q) : DataArray :=
  {| time := None; lon_name := Lon; lat_name := Lat;
     lat := [0]; lon := [0; 10];
     values := [ [ [Some v; None] ] ] |}.

(** A land mask over the grid of [two_latitude_field] without any land. *)
Definition all_ocean_mask : list (list (option Q)) := [ [Some 0]; [None] ].

(** January and February of 2021. *)
Definition jan_feb_series : series (option Q) :=
  [ (mkTime 2021 1 1 0, Some 1); (mkTime 2021 2 1 0, Some 2) ].

(** The month that follows, and [n] consecutive months from a given
    one. *)
Definition next_month (t : timestamp) : timestamp :=
  if (month t <? 12)%Z
  then {| year := year t; month := month t + 1; day := 1; nanos := 0 |}
  else {| year := year t + 1; month := 1; day := 1; nanos := 0 |}.

Fixpoint months_from (n : nat) (t : timestamp) : list timestamp :=
  match n with
  | O => []
  | S n' => t :: months_from n' (next_month t)
  end.

(** A monthly series of constant value 10 from January 1950 to June
    2023. *)
Definition series_1950_2023 : series (option Q) :=
  map (fun t => (t, Some 10)) (months_from 882 (mkTime 1950 1 1 0)).

(** Three reference years of January and July values, one July missing
    and one year outside the reference period. *)
Definition reference_series : series (option Q) :=
  [ (mkTime 1990 1 1 0, Some 100);
    (mkTime 1991 1 1 0, Some 1); (mkTime 1991 7 1 0, Some 20);
    (mkTime 1992 1 1 0, Some 2); (mkTime 1992 7 1 0, None);
    (mkTime 1993 1 1 0, Some 6); (mkTime 1993 7 1 0, Some 22) ].

(** [n] consecutive days from a given one (a daily time axis). *)
Fixpoint days_from (n : nat) (t : timestamp) : list timestamp :=
  match n with
  | O => []
  | S n' => t :: days_from n' (next_day t)
  end.

(** Midnight of the first day of a month. *)
Definition is_month_start (t : timestamp) : Prop :=
  (1 <= month t <= 12)%Z /\ day t = 1%Z /\ nanos t = 0%Z.

(** A date of the calendar. *)
Definition valid_date (t : timestamp) : Prop :=
  (1 <= month t <= 12)%Z
  /\ (1 <= day t <= days_in_month (year t) (month t))%Z.

(** The timestamp of the month of [t] at day [d] and [ns] nanoseconds
    after midnight (datasets stamp their monthly values on various days of
    the month). *)
Definition stamp (d ns : Z) (t : timestamp) : timestamp :=
  {| year := year t; month := month t; day := d; nanos := ns |}.

(** An arithmetic operation applied to every value of a field, as in
    [era5["t2m"] - 273.15]; a missing value stays missing. *)
Definition map_values (f : Q -> Q) (d : DataArray) : DataArray :=
  {| time := time d; lon_name := lon_name d; lat_name := lat_name d;
     lat := lat d; lon := lon d;
     values := map (map (map (option_map f))) (values d) |}.

(** The number of days of a calendar year. *)
Definition days_in_year (y : Z) : Z := if is_leap y then 366%Z else 365%Z.

(* ===================================================================== *)
(** * Script: offsets, reference anomalies and period means *)
(* ===================================================================== *)

(** [era5["t2m"] - 273.15]: a series less a constant. *)
Definition minus_const (da : series (option Q)) (c : Q) : series (option Q) :=
  map (fun e => (fst e, osub (snd e) (Some c))) da.

(** [da.mean("time")], skipping NaN. *)
Definition mean_time (da : series (option Q)) : option Q :=
  nanmean (map snd da).

(** [temp_evolution - temp_evolution.sel(REF_PERIOD).mean("time")] for
    one source. *)
Definition reference_anomaly (temp_evolution : series (option Q))
    : series (option Q) :=
  let ref := mean_time (sel_REF_PERIOD temp_evolution) in
  map (fun e => (fst e, osub (snd e) ref)) temp_evolution.

(** [(clim * dim).sum() / dim.sum()]: the sums skip NaN, and a zero
    total of days divides zero by zero. *)
Definition period_mean (clim : series (option Q)) : option Q :=
  let num := Qsum (map (fun e => fillna0 (omul (snd e) (inject_Z (dim (fst e))))) clim) in
  let den := Qsum (map (fun e => inject_Z (dim (fst e))) clim) in
  if Qeq_bool den 0 then None else Some (num / den).

(** ** Year-month tables *)

(** An array over (year, month); a pair that is not listed holds NaN. *)
Definition ym_table : Type := list ((Z * Z) * option Q).

Definition pair_eqb (a b : Z * Z) : bool :=
  (fst a =? fst b)%Z && (snd a =? snd b)%Z.

Fixpoint is_unique (l : list (Z * Z)) : bool :=
  match l with
  | [] => true
  | k :: l' => negb (existsb (pair_eqb k) l') && is_unique l'
  end.

Definition ym_get (t : ym_table) (y m : Z) : option Q :=
  match find (fun e => pair_eqb (fst e) (y, m)) t with
  | Some e => snd e
  | None => None
  end.

(** [convert_coords_time_to_year_month(ds)]: unstacking needs every
    (year, month) pair at most once. *)
Definition convert_coords_time_to_year_month (ds : series (option Q))
    : result ym_table :=
  let year_month := map (fun e => (year (fst e), month (fst e))) ds in
  if is_unique year_month
  then Ok (map (fun e => ((year (fst e), month (fst e)), snd e)) ds)
  else Err ValueError.

(** The labels of an unstacked axis: ascending and without repetition. *)
Fixpoint insert_level (y : Z) (l : list Z) : list Z :=
  match l with
  | [] => [y]
  | x :: l' =>
      if (y <? x)%Z then y :: l
      else if (y =? x)%Z then l
      else x :: insert_level y l'
  end.

Definition levels (l : list Z) : list Z := fold_right insert_level [] l.

(** [t.sel(month=m)]: the column of the month [m] over the years of the
    table; a month that is not on the axis raises. *)
Definition sel_month (m : Z) (t : ym_table) : result (list (Z * option Q)) :=
  if existsb (fun e => (snd (fst e) =? m)%Z) t
  then Ok (map (fun y => (y, ym_get t y m)) (levels (map (fun e => fst (fst e)) t)))
  else Err KeyError.

(** The yearly anomalies of the script, and steps 2 and 3 of
    [annual_anomalies]: the annual average, re-indexed by (year, month),
    at month 1. *)
Definition yearly_anoms (anom : series (option Q))
    : result (list (Z * option Q)) :=
  rbind (weighted_annual_average anom)
    (fun waa =>
       rbind (convert_coords_time_to_year_month waa) (sel_month 1)).

(** ** Comparison of series *)

(** Two series with the same timestamps and equal values. *)
Definition same_series (a b : series (option Q)) : Prop :=
  Forall2 (fun x y => fst x = fst y /\ oeq (snd x) (snd y)) a b.

(** An entry with a missing value replaced by zero. *)
Definition fill_zero (e : timestamp * option Q) : timestamp * option Q :=
  (fst e, Some (fillna0 (snd e))).

(* ===================================================================== *)
(** * Lemmas *)
(* ===================================================================== *)

(** ** Numbers *)

Lemma Qltb_iff (x y : Q) : Qltb x y = true <-> x < y.
Proof.
  unfold Qltb. rewrite negb_true_iff. split.
  - intros H. apply Qnot_le_lt. intros Hle.
    apply Qle_bool_iff in Hle. congruence.
  - intros H. destruct (Qle_bool y x) eqn:E; [|reflexivity].
    apply Qle_bool_iff in E. exfalso. apply (Qlt_not_le _ _ H E).
Qed.

Lemma oeq_refl (a : option Q) : oeq a a.
Proof. destruct a; simpl; [reflexivity | exact I]. Qed.

Lemma oeq_trans (a b c : option Q) : oeq a b -> oeq b c -> oeq a c.
Proof.
  destruct a, b, c; simpl; auto; try contradiction.
  intros H1 H2. rewrite H1. exact H2.
Qed.

(** ** The store *)

Lemma nth_error_snoc {A : Type} (s : list A) (x : A) :
  nth_error (s ++ [x]) (length s) = Some x.
Proof.
  rewrite nth_error_app2 by lia. rewrite Nat.sub_diag. reflexivity.
Qed.

Lemma update_snoc {A : Type} (s : list A) (x y : A) :
  update (length s) y (s ++ [x]) = s ++ [y].
Proof. induction s as [|a s IH]; simpl; [reflexivity | now rewrite IH]. Qed.

Lemma length_update {A : Type} (n : nat) (x : A) (l : list A) :
  length (update n x l) = length l.
Proof.
  revert n. induction l as [|a l IH]; intros [|n]; simpl; auto.
Qed.

Lemma nth_error_update_eq {A : Type} (n : nat) (x : A) (l : list A) :
  (n < length l)%nat -> nth_error (update n x l) n = Some x.
Proof.
  revert n. induction l as [|a l IH]; intros [|n] H; simpl in *; try lia; auto.
  apply IH. lia.
Qed.

Lemma nth_error_update_neq {A : Type} (n k : nat) (x : A) (l : list A) :
  k <> n -> nth_error (update n x l) k = nth_error l k.
Proof.
  revert n k.
  induction l as [|a l IH]; intros [|n] [|k] H; simpl; auto; try congruence.
Qed.

Lemma nth_error_snoc_lt {A : Type} (s : list A) (x : A) (k : nat) :
  (k < length s)%nat -> nth_error (s ++ [x]) k = nth_error s k.
Proof. intros H. now apply nth_error_app1. Qed.

(** Symbolic execution of a computation on a store that grows at its
    end. *)
Ltac run_store :=
  repeat first
    [ rewrite nth_error_snoc
    | rewrite update_snoc
    | progress cbv beta iota delta [bind read write alloc fresh ret lift] ].

Ltac store_facts :=
  repeat first
    [ rewrite nth_error_snoc
    | rewrite nth_error_snoc_lt by (repeat rewrite length_app; repeat rewrite length_update; simpl; lia)
    | rewrite length_app
    | rewrite length_update ].

Lemma lat_name_rename_lon (d : DataArray) :
  lat_name (rename_lon d) = lat_name d.
Proof. reflexivity. Qed.

(** What a call does to the store: the returned location is new and holds
    [streamlined d]; the argument holds [snap_time d]; nothing else
    changes.  The call raises exactly when [streamlined d] does. *)
Lemma streamline_coords_run (s : store) (l : loc) (d : DataArray) :
  nth_error s l = Some d ->
  match streamline_coords l s, streamlined d with
  | Ok (l', s'), Ok d' =>
      nth_error s' l' = Some d'
      /\ (length s <= l')%nat
      /\ nth_error s' l = Some (snap_time d)
      /\ (forall k, k <> l -> (k < length s)%nat ->
                    nth_error s' k = nth_error s k)
  | Err e, Err e' => e = e'
  | _, _ => False
  end.
Proof.
  intros Hl.
  assert (Hlt : (l < length s)%nat) by (apply nth_error_Some; congruence).
  (* the first block leaves [snap_time d] at [l] *)
  assert (H1 : exists s1,
             match time d with
             | Some t => if coordinate_is_monthly t
                         then write l (set_time d (map month_start t))
                         else ret tt
             | None => ret tt
             end s = Ok (tt, s1)
             /\ length s1 = length s
             /\ nth_error s1 l = Some (snap_time d)
             /\ (forall k, k <> l -> nth_error s1 k = nth_error s k)).
  { unfold snap_time.
    destruct (time d) as [t|].
    - destruct (coordinate_is_monthly t).
      + eexists; split; [reflexivity|]. split; [apply length_update|].
        split; [now apply nth_error_update_eq|].
        intros k Hk. now apply nth_error_update_neq.
      + eexists; split; [reflexivity|]. auto.
    - eexists; split; [reflexivity|]. auto. }
  destruct H1 as (s1 & E1 & Hlen & Hs1 & Hother).
  unfold streamline_coords.
  unfold bind at 1. unfold read at 1. rewrite Hl.
  unfold bind at 1. rewrite E1. clear E1.
  unfold streamlined.
  remember (snap_time d) as d1 eqn:Ed1. clear Ed1.
  remember (canonical_names d1) as c eqn:Ec.
  assert (Hlt1 : (l < length s1)%nat) by lia.
  destruct (lon_name d1) eqn:Eln; destruct (lat_name d1) eqn:Ela;
    repeat first
      [ rewrite nth_error_snoc | rewrite Hs1 | rewrite Eln | rewrite Ela
      | rewrite lat_name_rename_lon
      | progress cbv beta iota delta [bind read write alloc fresh ret lift] ].
  all: match goal with
       | |- context [sortby_lat ?x] =>
           replace (sortby_lat x) with (sortby_lat c)
             by (f_equal; subst c; destruct d1; simpl in *; subst; reflexivity)
       end.
  all: set (d4 := sortby_lon (sortby_lat c)).
  all: destruct (lon d4) as [|x0 l0] eqn:El4; simpl coord_min; simpl coord_max;
         run_store.
  all: try match goal with |- ValueError = ValueError => reflexivity end.
  all: match goal with
       | |- context [Qltb (fold_left Qminb ?a ?b) (-180)
                     || Qltb 180 (fold_left Qmaxb ?a ?b)] =>
           change (Qltb (fold_left Qminb a b) (-180)
                   || Qltb 180 (fold_left Qmaxb a b))
             with (needs_wrap (b :: a));
           destruct (needs_wrap (b :: a))
       end; run_store.
  all: split; [store_facts; reflexivity|].
  all: split; [store_facts; simpl; lia|].
  all: split; [store_facts; exact Hs1|].
  all: intros k Hk Hklt; store_facts; now apply Hother.
Qed.

(** ** Stable sorting *)

Lemma insert_key_perm (x : Q * nat) (l : list (Q * nat)) :
  Permutation (insert_key x l) (x :: l).
Proof.
  induction l as [|y l IH]; simpl.
  - apply Permutation_refl.
  - destruct (Qle_bool (fst x) (fst y)).
    + apply Permutation_refl.
    + eapply perm_trans; [apply perm_skip, IH | apply perm_swap].
Qed.

Lemma sort_keys_perm (l : list (Q * nat)) : Permutation (sort_keys l) l.
Proof.
  induction l as [|x l IH]; simpl.
  - apply perm_nil.
  - eapply perm_trans; [apply insert_key_perm | now apply perm_skip].
Qed.

Lemma insert_key_sorted (x : Q * nat) (l : list (Q * nat)) :
  StronglySorted key_le l -> StronglySorted key_le (insert_key x l).
Proof.
  induction l as [|y l IH]; simpl; intros Hs.
  - constructor; constructor.
  - inversion Hs as [|? ? Hs' Hall]; subst.
    destruct (Qle_bool (fst x) (fst y)) eqn:E.
    + apply Qle_bool_iff in E. constructor; [exact Hs|].
      constructor; [exact E|].
      eapply Forall_impl; [|exact Hall].
      intros z Hz. unfold key_le in *. eapply Qle_trans; eauto.
    + constructor; [now apply IH|].
      assert (Hyx : key_le y x).
      { unfold key_le. apply Qlt_le_weak. apply Qltb_iff.
        unfold Qltb. now rewrite E. }
      eapply Permutation_Forall.
      * apply Permutation_sym, insert_key_perm.
      * constructor; assumption.
Qed.

Lemma sort_keys_sorted (l : list (Q * nat)) : StronglySorted key_le (sort_keys l).
Proof.
  induction l as [|x l IH]; simpl.
  - constructor.
  - now apply insert_key_sorted.
Qed.

(** Sorting what is already in order changes nothing (the sort is
    stable, so ties keep their places). *)
Lemma sort_keys_id (l : list (Q * nat)) :
  StronglySorted key_le l -> sort_keys l = l.
Proof.
  induction l as [|x l IH]; simpl; intros Hs; [reflexivity|].
  inversion Hs as [|? ? Hs' Hall]; subst.
  rewrite (IH Hs'). destruct l as [|y l']; [reflexivity|].
  simpl. inversion Hall as [|? ? Hxy _]; subst.
  unfold key_le in Hxy. apply Qle_bool_iff in Hxy. now rewrite Hxy.
Qed.

Lemma combine_sorted (l : list Q) (idx : list nat) :
  StronglySorted Qle l -> StronglySorted key_le (combine l idx).
Proof.
  revert idx. induction l as [|x l IH]; intros idx Hs; simpl.
  - constructor.
  - destruct idx as [|i idx]; [constructor|].
    inversion Hs as [|? ? Hs' Hall]; subst.
    constructor; [now apply IH|].
    apply Forall_forall. intros [k j] Hin.
    apply in_combine_l in Hin.
    rewrite Forall_forall in Hall. unfold key_le. simpl. now apply Hall.
Qed.

Lemma map_fst_sorted (l : list (Q * nat)) :
  StronglySorted key_le l -> StronglySorted Qle (map fst l).
Proof.
  induction 1 as [|x l Hs IH Hall]; simpl; constructor; auto.
  apply Forall_forall. intros k Hin. apply in_map_iff in Hin.
  destruct Hin as (p & <- & Hp). rewrite Forall_forall in Hall.
  now apply Hall.
Qed.

Lemma map_fst_combine_seq (l : list Q) (start : nat) :
  map fst (combine l (seq start (length l))) = l.
Proof.
  revert start. induction l as [|x l IH]; intros start; simpl;
    [reflexivity | now rewrite IH].
Qed.

Lemma map_snd_combine_seq (l : list Q) (start : nat) :
  map snd (combine l (seq start (length l))) = seq start (length l).
Proof.
  revert start. induction l as [|x l IH]; intros start; simpl;
    [reflexivity | now rewrite IH].
Qed.

Lemma combine_seq_lookup (pre l : list Q) :
  Forall (fun p => nth_error (pre ++ l) (snd p) = Some (fst p))
         (combine l (seq (length pre) (length l))).
Proof.
  revert pre. induction l as [|x l IH]; intros pre; simpl; constructor.
  - simpl. rewrite nth_error_app2 by lia. now rewrite Nat.sub_diag.
  - specialize (IH (pre ++ [x])).
    rewrite length_app, Nat.add_comm in IH. simpl in IH.
    rewrite <- app_assoc in IH. exact IH.
Qed.

Lemma isel_seq {A : Type} (d : A) (pre xs : list A) :
  isel d (seq (length pre) (length xs)) (pre ++ xs) = xs.
Proof.
  unfold isel. revert pre. induction xs as [|x xs IH]; intros pre; simpl.
  - reflexivity.
  - rewrite app_nth2 by lia. rewrite Nat.sub_diag. f_equal.
    specialize (IH (pre ++ [x])).
    rewrite length_app, Nat.add_comm in IH. simpl in IH.
    rewrite <- app_assoc in IH. exact IH.
Qed.

Lemma isel_id {A : Type} (d : A) (xs : list A) :
  isel d (seq 0 (length xs)) xs = xs.
Proof. exact (isel_seq d [] xs). Qed.

Lemma length_isel {A : Type} (d : A) (order : list nat) (xs : list A) :
  length (isel d order xs) = length order.
Proof. apply length_map. Qed.

Lemma length_argsort (l : list Q) : length (argsort l) = length l.
Proof.
  unfold argsort. rewrite length_map.
  rewrite (Permutation_length (sort_keys_perm _)).
  rewrite length_combine, length_seq. apply Nat.min_id.
Qed.

(** Indexing a coordinate with its own ordering gives the sorted keys. *)
Lemma isel_argsort (l : list Q) :
  isel 0 (argsort l) l = map fst (sort_keys (combine l (seq 0 (length l)))).
Proof.
  unfold isel, argsort. rewrite map_map. apply map_ext_in.
  intros p Hp.
  apply (Permutation_in _ (sort_keys_perm _)) in Hp.
  pose proof (combine_seq_lookup [] l) as H. simpl in H.
  rewrite Forall_forall in H. specialize (H p Hp).
  now apply nth_error_nth.
Qed.

Lemma isel_argsort_ascending (l : list Q) : ascending (isel 0 (argsort l) l).
Proof.
  rewrite isel_argsort. apply map_fst_sorted, sort_keys_sorted.
Qed.

Lemma isel_argsort_perm (l : list Q) : Permutation (isel 0 (argsort l) l) l.
Proof.
  rewrite isel_argsort.
  eapply perm_trans; [apply Permutation_map, sort_keys_perm|].
  rewrite map_fst_combine_seq. apply Permutation_refl.
Qed.

Lemma argsort_ascending (l : list Q) :
  ascending l -> argsort l = seq 0 (length l).
Proof.
  intros Hs. unfold argsort.
  rewrite sort_keys_id by now apply combine_sorted.
  apply map_snd_combine_seq.
Qed.

(** ** Minimum, maximum and the wrap of a longitude *)

Lemma fold_Qminb_In (l : list Q) (x : Q) : In (fold_left Qminb l x) (x :: l).
Proof.
  revert x. induction l as [|y l IH]; intros x; simpl.
  - now left.
  - specialize (IH (Qminb x y)). unfold Qminb in *.
    destruct (Qle_bool x y); simpl in IH; tauto.
Qed.

Lemma fold_Qmaxb_In (l : list Q) (x : Q) : In (fold_left Qmaxb l x) (x :: l).
Proof.
  revert x. induction l as [|y l IH]; intros x; simpl.
  - now left.
  - specialize (IH (Qmaxb x y)). unfold Qmaxb in *.
    destruct (Qle_bool x y); simpl in IH; tauto.
Qed.

Lemma Qminb_le_l (x y : Q) : Qminb x y <= x.
Proof.
  unfold Qminb. destruct (Qle_bool x y) eqn:E; [apply Qle_refl|].
  apply Qlt_le_weak, Qltb_iff. unfold Qltb. now rewrite E.
Qed.

Lemma Qminb_le_r (x y : Q) : Qminb x y <= y.
Proof.
  unfold Qminb. destruct (Qle_bool x y) eqn:E; [|apply Qle_refl].
  now apply Qle_bool_iff.
Qed.

Lemma Qmaxb_ge_l (x y : Q) : x <= Qmaxb x y.
Proof.
  unfold Qmaxb. destruct (Qle_bool x y) eqn:E; [|apply Qle_refl].
  now apply Qle_bool_iff.
Qed.

Lemma Qmaxb_ge_r (x y : Q) : y <= Qmaxb x y.
Proof.
  unfold Qmaxb. destruct (Qle_bool x y) eqn:E; [apply Qle_refl|].
  apply Qlt_le_weak, Qltb_iff. unfold Qltb. now rewrite E.
Qed.

Lemma fold_Qminb_le (l : list Q) (x : Q) :
  Forall (fun y => fold_left Qminb l x <= y) (x :: l).
Proof.
  revert x. induction l as [|y l IH]; intros x; simpl.
  - constructor; [apply Qle_refl | constructor].
  - specialize (IH (Qminb x y)). inversion IH as [|? ? H0 Hl]; subst.
    constructor; [|constructor]; auto.
    + eapply Qle_trans; [exact H0 | apply Qminb_le_l].
    + eapply Qle_trans; [exact H0 | apply Qminb_le_r].
Qed.

Lemma fold_Qmaxb_ge (l : list Q) (x : Q) :
  Forall (fun y => y <= fold_left Qmaxb l x) (x :: l).
Proof.
  revert x. induction l as [|y l IH]; intros x; simpl.
  - constructor; [apply Qle_refl | constructor].
  - specialize (IH (Qmaxb x y)). inversion IH as [|? ? H0 Hl]; subst.
    constructor; [|constructor]; auto.
    + eapply Qle_trans; [apply Qmaxb_ge_l | exact H0].
    + eapply Qle_trans; [apply Qmaxb_ge_r | exact H0].
Qed.

(** The guard of the wrap fires exactly when some longitude lies below
    -180 or above 180. *)
Lemma needs_wrap_iff (l : list Q) :
  needs_wrap l = true <-> exists x, In x l /\ (x < -180 \/ 180 < x).
Proof.
  destruct l as [|x l]; simpl.
  - split; [discriminate | intros (y & [] & _)].
  - rewrite orb_true_iff, !Qltb_iff. split.
    + intros [H|H].
      * exists (fold_left Qminb l x). split; [apply fold_Qminb_In | now left].
      * exists (fold_left Qmaxb l x). split; [apply fold_Qmaxb_In | now right].
    + intros (y & Hy & [H|H]).
      * left. pose proof (fold_Qminb_le l x) as Hall.
        rewrite Forall_forall in Hall. specialize (Hall y Hy).
        eapply Qle_lt_trans; eauto.
      * right. pose proof (fold_Qmaxb_ge l x) as Hall.
        rewrite Forall_forall in Hall. specialize (Hall y Hy).
        eapply Qlt_le_trans; eauto.
Qed.

Lemma needs_wrap_false_iff (l : list Q) :
  needs_wrap l = false <-> Forall (fun x => -180 <= x /\ x <= 180) l.
Proof.
  rewrite <- not_true_iff_false, needs_wrap_iff, Forall_forall. split.
  - intros H x Hx. split.
    + apply Qnot_lt_le. intros Hlt. apply H. exists x. tauto.
    + apply Qnot_lt_le. intros Hlt. apply H. exists x. tauto.
  - intros H (x & Hx & [Hlt|Hlt]); destruct (H x Hx) as [H1 H2].
    + exact (Qlt_not_le _ _ Hlt H1).
    + exact (Qlt_not_le _ _ Hlt H2).
Qed.

Lemma pymod_360_range (x : Q) : 0 <= pymod x 360 /\ pymod x 360 < 360.
Proof.
  unfold pymod.
  pose proof (Qfloor_le (x / 360)) as Hlo.
  pose proof (Qlt_floor (x / 360)) as Hhi.
  rewrite inject_Z_plus in Hhi.
  set (f := inject_Z (Qfloor (x / 360))) in *.
  assert (Hx : x == 360 * (x / 360)) by (field; discriminate).
  set (y := x / 360) in *.
  change (inject_Z 1) with 1 in Hhi.
  split; lra.
Qed.

Lemma wrap_lon_range (x : Q) : in_lon_range (wrap_lon x).
Proof.
  unfold in_lon_range, wrap_lon.
  destruct (pymod_360_range (x + 180)) as [H1 H2]. split; lra.
Qed.

(** Two longitudes less than a full turn apart with the same wrap are
    equal. *)
Lemma wrap_lon_inj (a b : Q) :
  Qabs (a - b) < 360 -> wrap_lon a == wrap_lon b -> a == b.
Proof.
  unfold wrap_lon, pymod. intros Habs Heq.
  set (ka := Qfloor ((a + 180) / 360)) in *.
  set (kb := Qfloor ((b + 180) / 360)) in *.
  apply Qabs_Qlt_condition in Habs. destruct Habs as [Hlo Hhi].
  assert (Hd : a - b == 360 * (inject_Z ka - inject_Z kb)) by lra.
  assert (Hk : (ka = kb)%Z).
  { assert (H1 : inject_Z (ka - kb) < inject_Z 1).
    { unfold Zminus. rewrite inject_Z_plus, inject_Z_opp.
      change (inject_Z 1) with 1. lra. }
    assert (H2 : inject_Z (-1) < inject_Z (ka - kb)).
    { unfold Zminus. rewrite inject_Z_plus, inject_Z_opp.
      change (inject_Z (-1)) with (-1). lra. }
    rewrite <- Zlt_Qlt in H1, H2. lia. }
  rewrite Hk in Hd. lra.
Qed.

(** ** Fields returned by [streamline_coords] *)

Lemma month_start_idem (t : timestamp) : month_start (month_start t) = month_start t.
Proof. reflexivity. Qed.

Lemma snap_time_fixed (d : DataArray) : time_snapped d -> snap_time d = d.
Proof.
  unfold time_snapped, snap_time. intros H.
  destruct d as [[t|] ln la a b v]; simpl in *; [|reflexivity].
  destruct (coordinate_is_monthly t) eqn:E; [|reflexivity].
  unfold set_time; simpl. now rewrite (H t eq_refl E).
Qed.

Lemma snap_time_snapped (d : DataArray) : time_snapped (snap_time d).
Proof.
  unfold time_snapped, snap_time. intros t Ht Hm.
  destruct (time d) as [t0|] eqn:E.
  - destruct (coordinate_is_monthly t0) eqn:E0.
    + simpl in Ht. injection Ht as <-.
      rewrite map_map. apply map_ext. intros x. apply month_start_idem.
    + rewrite E in Ht. injection Ht as <-. congruence.
  - rewrite E in Ht. discriminate.
Qed.

Lemma ascending_of_strict (l : list Q) : strictly_ascending l -> ascending l.
Proof.
  induction 1 as [|x l Hs IH Hall]; constructor; auto.
  eapply Forall_impl; [|exact Hall]. intros y. apply Qlt_le_weak.
Qed.

Lemma sortby_lat_fixed (d : DataArray) :
  ascending (lat d) -> well_shaped d -> sortby_lat d = d.
Proof.
  intros Hs Hw. unfold sortby_lat. rewrite (argsort_ascending Hs).
  destruct d as [t ln la a b v]; simpl in *. f_equal.
  - apply isel_id.
  - rewrite <- (map_id v) at 2. apply map_ext_in. intros slab Hin.
    unfold well_shaped in Hw. simpl in Hw. rewrite Forall_forall in Hw.
    destruct (Hw slab Hin) as [<- _]. apply isel_id.
Qed.

Lemma sortby_lon_fixed (d : DataArray) :
  ascending (lon d) -> well_shaped d -> sortby_lon d = d.
Proof.
  intros Hs Hw. unfold sortby_lon. rewrite (argsort_ascending Hs).
  destruct d as [t ln la a b v]; simpl in *. f_equal.
  - apply isel_id.
  - rewrite <- (map_id v) at 2. apply map_ext_in. intros slab Hin.
    unfold well_shaped in Hw. simpl in Hw. rewrite Forall_forall in Hw.
    destruct (Hw slab Hin) as [_ Hrows]. rewrite Forall_forall in Hrows.
    rewrite <- (map_id slab) at 2. apply map_ext_in. intros row Hr.
    rewrite <- (Hrows row Hr). apply isel_id.
Qed.

Lemma normalized_settled (d : DataArray) : normalized d -> settled d.
Proof.
  intros (H1 & H2 & H3 & H4 & H5 & H6 & H7 & H8).
  repeat split; auto using ascending_of_strict.
  apply needs_wrap_false_iff. eapply Forall_impl; [|exact H5].
  intros x [Ha Hb]. split; [exact Ha | now apply Qlt_le_weak].
Qed.

(** A settled field is returned as it is. *)
Lemma settled_fixed (d : DataArray) : settled d -> streamlined d = Ok d.
Proof.
  intros (H1 & H2 & H3 & H4 & H5 & H6 & H7 & H8).
  unfold streamlined. rewrite (snap_time_fixed H7).
  replace (canonical_names d) with d
    by (destruct d; simpl in *; subst; reflexivity).
  rewrite (sortby_lat_fixed H3 H8), (sortby_lon_fixed H4 H8).
  destruct (lon d) as [|x l] eqn:E; [congruence|].
  now rewrite H5.
Qed.

Lemma well_shaped_sortby_lon (d : DataArray) :
  Forall (fun slab => length slab = length (lat d)) (values d) ->
  well_shaped (sortby_lon d).
Proof.
  unfold well_shaped. simpl. rewrite !Forall_forall. intros H slab Hin.
  apply in_map_iff in Hin. destruct Hin as (s0 & <- & Hs0).
  split.
  - rewrite length_map. now apply H.
  - apply Forall_forall. intros row Hr.
    apply in_map_iff in Hr. destruct Hr as (r0 & <- & _).
    now rewrite !length_isel.
Qed.

Lemma slabs_sortby_lat (d : DataArray) :
  Forall (fun slab => length slab = length (lat (sortby_lat d)))
         (values (sortby_lat d)).
Proof.
  simpl. apply Forall_forall. intros slab Hin.
  apply in_map_iff in Hin. destruct Hin as (s0 & <- & _).
  now rewrite !length_isel.
Qed.

Lemma slabs_sortby_lon (d : DataArray) :
  Forall (fun slab => length slab = length (lat d)) (values d) ->
  Forall (fun slab => length slab = length (lat (sortby_lon d)))
         (values (sortby_lon d)).
Proof.
  simpl. rewrite !Forall_forall. intros H slab Hin.
  apply in_map_iff in Hin. destruct Hin as (s0 & <- & Hs0).
  rewrite length_map. now apply H.
Qed.

Lemma streamlined_settled (d d' : DataArray) :
  streamlined d = Ok d' -> settled d'.
Proof.
  unfold streamlined.
  set (c := canonical_names (snap_time d)).
  set (d1 := sortby_lon (sortby_lat c)).
  assert (Hsl : Forall (fun slab => length slab = length (lat d1)) (values d1)).
  { apply slabs_sortby_lon, slabs_sortby_lat. }
  assert (Hts : time_snapped d1) by (apply (snap_time_snapped d)).
  assert (Hlat : ascending (lat d1)) by (apply isel_argsort_ascending).
  destruct (lon d1) as [|x l] eqn:El; [discriminate|].
  assert (Hlen : length (x :: l) <> 0%nat) by discriminate.
  remember (x :: l) as xs eqn:Exs.
  destruct (needs_wrap xs) eqn:En; intros H; injection H as <-.
  - set (w := set_lon d1 (map wrap_lon xs)).
    assert (Hr : Forall in_lon_range (lon (sortby_lon w))).
    { simpl. eapply Permutation_Forall;
        [apply Permutation_sym, isel_argsort_perm|].
      apply Forall_forall. intros y Hy. apply in_map_iff in Hy.
      destruct Hy as (z & <- & _). apply wrap_lon_range. }
    repeat split; try reflexivity.
    + exact Hlat.
    + apply isel_argsort_ascending.
    + apply needs_wrap_false_iff. eapply Forall_impl; [|exact Hr].
      intros y [Ha Hb]. split; [exact Ha | now apply Qlt_le_weak].
    + simpl. intros Hnil. apply (f_equal (@length Q)) in Hnil.
      rewrite length_isel, length_argsort, length_map in Hnil.
      simpl in Hnil. contradiction.
    + exact Hts.
    + apply well_shaped_sortby_lon. exact Hsl.
  - repeat split; try reflexivity.
    + exact Hlat.
    + apply isel_argsort_ascending.
    + rewrite El. exact En.
    + rewrite El, Exs. discriminate.
    + exact Hts.
    + apply well_shaped_sortby_lon, slabs_sortby_lat.
Qed.

Lemma FOP_perm {A : Type} (R : A -> A -> Prop) :
  (forall a b, R a b -> R b a) ->
  forall l l', Permutation l l' -> ForallOrdPairs R l -> ForallOrdPairs R l'.
Proof.
  intros Hsym l l' Hp. induction Hp as [|x l l' Hp IH|x y l|l l' l'' H1 IH1 H2 IH2];
    intros H.
  - exact H.
  - inversion H as [|? ? Hx Hl]; subst. constructor; [|now apply IH].
    eapply Permutation_Forall; eauto.
  - inversion H as [|? ? Hy Hl]; subst.
    inversion Hl as [|? ? Hx Hl']; subst.
    inversion Hy as [|? ? Hyx Hyl]; subst.
    constructor; [constructor; auto|]. constructor; auto.
  - auto.
Qed.

Lemma wrapped_distinct (l : list Q) :
  distinct_within_turn l ->
  ForallOrdPairs (fun a b => ~ a == b) (map wrap_lon l).
Proof.
  induction 1 as [|x l Hx Hl IH]; simpl; constructor; [|exact IH].
  apply Forall_forall. intros y Hy. apply in_map_iff in Hy.
  destruct Hy as (z & <- & Hz). rewrite Forall_forall in Hx.
  destruct (Hx z Hz) as [Hne Habs]. cbv beta. intros Heq. apply Hne.
  now apply wrap_lon_inj.
Qed.

Lemma strict_of_distinct (l : list Q) :
  ascending l -> ForallOrdPairs (fun a b => ~ a == b) l -> strictly_ascending l.
Proof.
  induction 1 as [|x l Hs IH Hall]; intros Hd; [constructor|].
  inversion Hd as [|? ? Hx Hl]; subst.
  constructor; [now apply IH|].
  apply Forall_forall. intros y Hy.
  rewrite Forall_forall in Hall, Hx.
  destruct (proj1 (Qle_lteq _ _) (Hall y Hy)) as [Hlt|Heq]; [exact Hlt|].
  exfalso. exact (Hx y Hy Heq).
Qed.

(** Strictly ascending longitudes within [0, 360) are pairwise different
    and less than a full turn apart. *)
Lemma distinct_of_0_360 (l : list Q) :
  strictly_ascending l -> Forall (fun x => 0 <= x /\ x < 360) l ->
  distinct_within_turn l.
Proof.
  induction 1 as [|x l Hs IH Hall]; intros Hr; [constructor|].
  inversion Hr as [|? ? Hx Hl]; subst.
  constructor; [|now apply IH].
  apply Forall_forall. intros y Hy.
  rewrite Forall_forall in Hall, Hl.
  specialize (Hall y Hy). specialize (Hl y Hy). split.
  - intros Heq. rewrite Heq in Hall. exact (Qlt_irrefl _ Hall).
  - apply Qabs_Qlt_condition. split; lra.
Qed.

Lemma lon_sorted_first (d : DataArray) :
  lon (sortby_lon (sortby_lat (canonical_names (snap_time d))))
  = isel 0 (argsort (lon d)) (lon d).
Proof.
  simpl. unfold snap_time.
  destruct (time d) as [t|]; [destruct (coordinate_is_monthly t)|]; reflexivity.
Qed.

Lemma streamline_coords_ok (s : store) (l : loc) (d d' : DataArray) :
  nth_error s l = Some d -> streamlined d = Ok d' ->
  exists l' s',
    streamline_coords l s = Ok (l', s')
    /\ nth_error s' l' = Some d'
    /\ (length s <= l')%nat
    /\ nth_error s' l = Some (snap_time d)
    /\ (forall k, k <> l -> (k < length s)%nat -> nth_error s' k = nth_error s k).
Proof.
  intros Hl Hd. pose proof (streamline_coords_run s l Hl) as H.
  rewrite Hd in H. destruct (streamline_coords l s) as [[l' s']|e]; [|contradiction].
  exists l', s'. tauto.
Qed.

Lemma streamline_coords_inv (s : store) (l : loc) (d : DataArray) (l' : loc) (s' : store) :
  nth_error s l = Some d -> streamline_coords l s = Ok (l', s') ->
  exists d',
    streamlined d = Ok d'
    /\ nth_error s' l' = Some d'
    /\ (length s <= l')%nat
    /\ nth_error s' l = Some (snap_time d)
    /\ (forall k, k <> l -> (k < length s)%nat -> nth_error s' k = nth_error s k).
Proof.
  intros Hl Hrun. pose proof (streamline_coords_run s l Hl) as H.
  rewrite Hrun in H. destruct (streamlined d) as [d'|e]; [|contradiction].
  exists d'. tauto.
Qed.

(* ===================================================================== *)
(** * Theorems: coordinate normaliser *)
(* ===================================================================== *)

(** C2, as stated, fails: the field with longitudes 0 and 180 has a
    longitude outside [-180, 180), lies within [0, 360), and is returned
    with its longitudes as they were, 180 included. *)
Lemma half_turn_not_wrapped :
  (exists x, In x (lon half_turn_field) /\ ~ in_lon_range x)
  /\ Forall (fun x => 0 <= x /\ x < 360) (lon half_turn_field)
  /\ exists l' s' d',
       streamline_coords 0%nat [half_turn_field] = Ok (l', s')
       /\ nth_error s' l' = Some d'
       /\ lon d' = [0; 180]
       /\ ~ Forall in_lon_range (lon d').
Proof.
  split; [|split].
  - exists 180. split; [simpl; auto|].
    intros [_ H]. exact (Qlt_irrefl _ H).
  - repeat constructor; simpl; try lra; try discriminate.
  - eexists. eexists. eexists.
    split; [vm_compute; reflexivity|].
    split; [vm_compute; reflexivity|].
    split; [reflexivity|].
    intros H. inversion H as [|? ? _ H1]; subst.
    inversion H1 as [|? ? [_ H2] _]; subst.
    exact (Qlt_irrefl _ H2).
Qed.

(** C2 (amended): for every field whose longitude axis contains a value
    below -180 or above 180, [streamline_coords] remaps each longitude via
    ((lon + 180) mod 360) - 180 and re-sorts: the longitudes of the
    returned field are the remapped ones rearranged, they all lie in
    [-180, 180) and they are ascending; they are strictly ascending when
    the input longitudes are pairwise different and less than 360 apart,
    in particular when they are strictly ascending within [0, 360). *)
Theorem streamline_coords_wraps_longitudes (s : store) (l : loc) (d : DataArray) :
  nth_error s l = Some d ->
  (exists x, In x (lon d) /\ (x < -180 \/ 180 < x)) ->
  exists l' s' d',
    streamline_coords l s = Ok (l', s')
    /\ nth_error s' l' = Some d'
    /\ Permutation (lon d') (map wrap_lon (lon d))
    /\ Forall in_lon_range (lon d')
    /\ ascending (lon d')
    /\ (distinct_within_turn (lon d) -> strictly_ascending (lon d'))
    /\ (strictly_ascending (lon d) ->
        Forall (fun x => 0 <= x /\ x < 360) (lon d) ->
        strictly_ascending (lon d')).
Proof.
  intros Hl (x & Hx & Hout).
  set (L1 := isel 0 (argsort (lon d)) (lon d)).
  assert (HL1 : Permutation L1 (lon d)) by apply isel_argsort_perm.
  set (d1 := sortby_lon (sortby_lat (canonical_names (snap_time d)))).
  assert (El : lon d1 = L1) by apply lon_sorted_first.
  assert (Hw : needs_wrap L1 = true).
  { apply needs_wrap_iff. exists x. split; [|exact Hout].
    eapply Permutation_in; [apply Permutation_sym, HL1 | exact Hx]. }
  assert (Hne : L1 <> []).
  { intros E. rewrite E in Hw. discriminate. }
  set (d' := sortby_lon (set_lon d1 (map wrap_lon L1))).
  assert (Hd : streamlined d = Ok d').
  { unfold streamlined. fold d1. rewrite El.
    destruct L1 as [|y L] eqn:E; [congruence|]. rewrite Hw. reflexivity. }
  destruct (streamline_coords_ok s l Hl Hd) as (l' & s' & Hrun & Hres & _).
  exists l', s', d'. split; [exact Hrun|]. split; [exact Hres|].
  assert (Hperm : Permutation (lon d') (map wrap_lon (lon d))).
  { change (lon d') with (isel 0 (argsort (map wrap_lon L1)) (map wrap_lon L1)).
    eapply perm_trans; [apply isel_argsort_perm|].
    now apply Permutation_map. }
  assert (Hasc : ascending (lon d')) by apply isel_argsort_ascending.
  assert (Hstrict : distinct_within_turn (lon d) -> strictly_ascending (lon d')).
  { intros Hdist. apply strict_of_distinct; [exact Hasc|].
    eapply FOP_perm; [|apply Permutation_sym, Hperm|apply wrapped_distinct, Hdist].
    intros a b Hab Hba. apply Hab. symmetry. exact Hba. }
  split; [exact Hperm|]. split; [|split; [exact Hasc|split; [exact Hstrict|]]].
  - eapply Permutation_Forall; [apply Permutation_sym, Hperm|].
    apply Forall_forall. intros y Hy. apply in_map_iff in Hy.
    destruct Hy as (z & <- & _). apply wrap_lon_range.
  - intros H1 H2. apply Hstrict. now apply distinct_of_0_360.
Qed.

Lemma streamline_coords_wraps_longitudes_witness :
  exists l' s' d',
    streamline_coords 0%nat [mid_month_field] = Ok (l', s')
    /\ nth_error s' l' = Some d'
    /\ Permutation (lon d') (map wrap_lon (lon mid_month_field))
    /\ Forall in_lon_range (lon d')
    /\ ascending (lon d')
    /\ (distinct_within_turn (lon mid_month_field) -> strictly_ascending (lon d'))
    /\ (strictly_ascending (lon mid_month_field) ->
        Forall (fun x => 0 <= x /\ x < 360) (lon mid_month_field) ->
        strictly_ascending (lon d')).
Proof.
  apply (@streamline_coords_wraps_longitudes [mid_month_field] 0%nat mid_month_field).
  - reflexivity.
  - exists 270. split; [simpl; auto 6 | right; reflexivity].
Defined.

(** C5: [streamline_coords] is idempotent.  Applying it to the field it
    returned succeeds and returns an equal field; and a field that already
    satisfies the invariants of the data model is returned as an identical
    field. *)
Theorem streamline_coords_idempotent (s : store) (l : loc) (d : DataArray) :
  nth_error s l = Some d ->
  (forall l1 s1,
      streamline_coords l s = Ok (l1, s1) ->
      exists l2 s2,
        streamline_coords l1 s1 = Ok (l2, s2)
        /\ nth_error s2 l2 = nth_error s1 l1)
  /\ (normalized d ->
      exists l1 s1,
        streamline_coords l s = Ok (l1, s1) /\ nth_error s1 l1 = Some d).
Proof.
  intros Hl. split.
  - intros l1 s1 Hrun.
    destruct (streamline_coords_inv s l Hl Hrun) as (d1 & Hd1 & Hres & _).
    pose proof (settled_fixed (streamlined_settled d Hd1)) as Hfix.
    destruct (streamline_coords_ok s1 l1 Hres Hfix) as (l2 & s2 & Hrun2 & Hres2 & _).
    exists l2, s2. split; [exact Hrun2 | congruence].
  - intros Hn.
    pose proof (settled_fixed (normalized_settled Hn)) as Hfix.
    destruct (streamline_coords_ok s l Hl Hfix) as (l1 & s1 & Hrun & Hres & _).
    exists l1, s1. split; assumption.
Qed.

Lemma normal_field_normalized : normalized normal_field.
Proof.
  unfold normalized, strictly_ascending, in_lon_range, time_snapped, well_shaped.
  simpl. repeat split.
  - repeat constructor.
  - repeat constructor.
  - repeat constructor; simpl; discriminate.
  - discriminate.
  - intros t Ht _. injection Ht as <-. reflexivity.
  - repeat constructor.
Defined.

Lemma streamline_coords_idempotent_witness :
  (forall l1 s1,
      streamline_coords 0%nat [normal_field] = Ok (l1, s1) ->
      exists l2 s2,
        streamline_coords l1 s1 = Ok (l2, s2)
        /\ nth_error s2 l2 = nth_error s1 l1)
  /\ exists l1 s1,
       streamline_coords 0%nat [normal_field] = Ok (l1, s1)
       /\ nth_error s1 l1 = Some normal_field.
Proof.
  destruct (@streamline_coords_idempotent [normal_field] 0%nat normal_field eq_refl)
    as [H1 H2].
  split; [exact H1 | exact (H2 normal_field_normalized)].
Defined.

(** C6, as stated, fails: the call replaces the time coordinate of the
    caller's own field, here mid-month stamps by first-of-month ones. *)
Lemma streamline_coords_mutates_time :
  exists l' s' d0,
    streamline_coords 0%nat [mid_month_field] = Ok (l', s')
    /\ nth_error s' 0%nat = Some d0
    /\ time d0 = Some [mkTime 2000 1 1 0; mkTime 2000 2 1 0]
    /\ time d0 <> time mid_month_field.
Proof.
  eexists. eexists. eexists.
  split; [vm_compute; reflexivity|].
  split; [reflexivity|].
  split; [reflexivity|].
  discriminate.
Qed.

(** C6 (amended): [streamline_coords] returns a new field and leaves every
    other field of the store untouched; of the input field it leaves the
    data, the latitude and longitude values and the axis names unchanged,
    and the time coordinate too when it is absent or not monthly; a
    monthly time coordinate of the input is replaced in place by the
    first-of-month timestamps. *)
Theorem streamline_coords_frame (s : store) (l : loc) (d : DataArray)
    (l' : loc) (s' : store) :
  nth_error s l = Some d ->
  streamline_coords l s = Ok (l', s') ->
  (length s <= l')%nat
  /\ (exists d0,
         nth_error s' l = Some d0
         /\ values d0 = values d /\ lat d0 = lat d /\ lon d0 = lon d
         /\ lat_name d0 = lat_name d /\ lon_name d0 = lon_name d
         /\ time d0 = match time d with
                      | Some t => if coordinate_is_monthly t
                                  then Some (map month_start t)
                                  else Some t
                      | None => None
                      end)
  /\ ((forall t, time d = Some t -> coordinate_is_monthly t = false) ->
      nth_error s' l = Some d)
  /\ (forall k, k <> l -> (k < length s)%nat -> nth_error s' k = nth_error s k).
Proof.
  intros Hl Hrun.
  destruct (streamline_coords_inv s l Hl Hrun) as (d' & _ & _ & Hnew & Hin & Hframe).
  split; [exact Hnew|]. split; [|split; [|exact Hframe]].
  - exists (snap_time d). split; [exact Hin|]. unfold snap_time.
    destruct (time d) as [t|] eqn:E; [destruct (coordinate_is_monthly t)|];
      simpl; rewrite ?E; tauto.
  - intros Hnm. rewrite Hin. f_equal. unfold snap_time.
    destruct (time d) as [t|] eqn:E; [|reflexivity].
    now rewrite (Hnm t eq_refl).
Qed.

Lemma streamline_coords_frame_witness :
  exists l' s',
    streamline_coords 0%nat [mid_month_field] = Ok (l', s')
    /\ (length [mid_month_field] <= l')%nat
    /\ (exists d0,
           nth_error s' 0%nat = Some d0
           /\ values d0 = values mid_month_field
           /\ lat d0 = lat mid_month_field /\ lon d0 = lon mid_month_field
           /\ lat_name d0 = lat_name mid_month_field
           /\ lon_name d0 = lon_name mid_month_field
           /\ time d0 = Some [mkTime 2000 1 1 0; mkTime 2000 2 1 0]).
Proof.
  eexists. eexists. split; [vm_compute; reflexivity|].
  destruct (@streamline_coords_frame [mid_month_field] 0%nat mid_month_field
              _ _ eq_refl eq_refl) as (H1 & H2 & _).
  split; [exact H1 | exact H2].
Defined.

(** C10: on a time axis with fewer than two entries there is no
    consecutive difference, so [coordinate_is_monthly] returns [True]; and
    [streamline_coords] then moves the timestamp of a single-timestamp
    field to the first day of its month. *)
Theorem coordinate_is_monthly_short_axis (t : list timestamp) :
  (length t < 2)%nat ->
  coordinate_is_monthly t = true
  /\ forall (s : store) (l : loc) (d : DataArray),
       nth_error s l = Some d -> time d = Some t -> lon d <> [] ->
       exists l' s' d',
         streamline_coords l s = Ok (l', s')
         /\ nth_error s' l' = Some d'
         /\ time d' = Some (map month_start t).
Proof.
  intros Hlen.
  assert (Hm : coordinate_is_monthly t = true).
  { destruct t as [|a [|b t]]; [reflexivity | reflexivity | simpl in Hlen; lia]. }
  split; [exact Hm|].
  intros s l d Hl Ht Hne.
  destruct (streamlined d) as [d'|e] eqn:Hd.
  - destruct (streamline_coords_ok s l Hl Hd) as (l' & s' & Hrun & Hres & _).
    exists l', s', d'. split; [exact Hrun|]. split; [exact Hres|].
    unfold streamlined in Hd.
    destruct (lon _) as [|x xs] in Hd; [discriminate|].
    destruct (needs_wrap _) in Hd; injection Hd as <-; simpl;
      unfold snap_time; rewrite Ht, Hm; reflexivity.
  - exfalso. unfold streamlined in Hd. rewrite lon_sorted_first in Hd.
    destruct (isel 0 (argsort (lon d)) (lon d)) as [|x xs] eqn:E.
    + apply Hne. apply (f_equal (@length Q)) in E.
      rewrite length_isel, length_argsort in E.
      now apply length_zero_iff_nil.
    + destruct (needs_wrap _) in Hd; discriminate.
Qed.

Lemma coordinate_is_monthly_short_axis_witness :
  coordinate_is_monthly [mkTime 2022 7 19 43200000000000] = true
  /\ exists l' s' d',
       streamline_coords 0%nat [single_step_field] = Ok (l', s')
       /\ nth_error s' l' = Some d'
       /\ time d' = Some [mkTime 2022 7 1 0].
Proof.
  destruct (@coordinate_is_monthly_short_axis [mkTime 2022 7 19 43200000000000])
    as [H1 H2].
  - simpl. lia.
  - split; [exact H1|].
    apply (H2 [single_step_field] 0%nat single_step_field eq_refl eq_refl).
    discriminate.
Defined.

(* ===================================================================== *)
(** * Theorems: spatial aggregator *)
(* ===================================================================== *)

(** ** The weighted mean of xarray is the masked weighted mean *)

Lemma weighted_sum_masked (cells : list (option Q * Q)) :
  dot (map fillna0 (map fst cells)) (map snd cells)
  == Qsum (map (fun c => fst c * snd c) (defined_cells cells)).
Proof.
  unfold dot. induction cells as [|[[v|] w] cells IH]; simpl in *.
  - reflexivity.
  - rewrite IH. reflexivity.
  - rewrite IH. ring.
Qed.

Lemma sum_of_weights_masked (cells : list (option Q * Q)) :
  dot (map notnull (map fst cells)) (map snd cells)
  == Qsum (map snd (defined_cells cells)).
Proof.
  unfold dot. induction cells as [|[[v|] w] cells IH]; simpl in *.
  - reflexivity.
  - rewrite IH. ring.
  - rewrite IH. ring.
Qed.

Lemma weighted_mean_masked (cells : list (option Q * Q)) :
  oeq (weighted_mean cells) (masked_mean cells).
Proof.
  unfold weighted_mean, masked_mean, where_nonzero.
  rewrite (Qeqb_comp _ _ (sum_of_weights_masked cells) 0 0 (Qeq_refl 0)).
  destruct (Qeq_bool (Qsum (map snd (defined_cells cells))) 0) eqn:E; simpl.
  - exact I.
  - rewrite weighted_sum_masked, sum_of_weights_masked. reflexivity.
Qed.

Lemma Forall2_map_oeq {A : Type} (f g : A -> option Q) (l : list A) :
  (forall x, In x l -> oeq (f x) (g x)) -> Forall2 oeq (map f l) (map g l).
Proof.
  induction l as [|x l IH]; intros H; simpl; constructor.
  - apply H. now left.
  - apply IH. intros y Hy. apply H. now right.
Qed.

Lemma Qsum_nonneg_zero (l : list Q) :
  Forall (fun w => 0 <= w) l -> Qsum l == 0 -> Forall (fun w => w == 0) l.
Proof.
  induction 1 as [|w l Hw Hl IH]; simpl; intros Hs; constructor.
  - assert (H0 : 0 <= Qsum l).
    { clear -Hl. induction Hl as [|x l Hx _ IH]; simpl; [apply Qle_refl | lra]. }
    lra.
  - apply IH.
    assert (H0 : 0 <= Qsum l).
    { clear -Hl. induction Hl as [|x l Hx _ IH]; simpl; [apply Qle_refl | lra]. }
    lra.
Qed.

Lemma defined_weights_zero (cells : list (option Q * Q)) :
  Forall (fun c => snd c == 0) cells ->
  Qsum (map snd (defined_cells cells)) == 0.
Proof.
  induction 1 as [|[[v|] w] cells Hw _ IH]; simpl in *.
  - reflexivity.
  - rewrite IH, Hw. reflexivity.
  - exact IH.
Qed.

(** A zero sum of weights over the cells with a value, or weights that
    are all zero, leave no data. *)
Lemma weighted_mean_zero_weights (cells : list (option Q * Q)) :
  Qsum (map snd (defined_cells cells)) == 0
  \/ (Forall (fun c => 0 <= snd c) cells /\ Qsum (map snd cells) == 0) ->
  weighted_mean cells = None.
Proof.
  intros H.
  assert (Hz : Qsum (map snd (defined_cells cells)) == 0).
  { destruct H as [H|[Hpos Hsum]]; [exact H|].
    apply defined_weights_zero.
    assert (Hall : Forall (fun w => w == 0) (map snd cells)).
    { apply Qsum_nonneg_zero; [|exact Hsum].
      apply Forall_forall. intros w Hin. apply in_map_iff in Hin.
      destruct Hin as (c & <- & Hc). rewrite Forall_forall in Hpos. now apply Hpos. }
    apply Forall_forall. intros c Hc. rewrite Forall_forall in Hall.
    apply Hall. now apply in_map. }
  unfold weighted_mean, where_nonzero.
  rewrite (Qeqb_comp _ _ (sum_of_weights_masked cells) 0 0 (Qeq_refl 0)).
  apply Qeq_bool_iff in Hz. rewrite Hz. reflexivity.
Qed.

Lemma weighted_mean_one_present (v w w' : Q) :
  ~ w == 0 -> oeq (weighted_mean [(Some v, w); (None, w')]) (Some v).
Proof.
  intros Hw. eapply oeq_trans; [apply weighted_mean_masked|].
  unfold masked_mean. simpl.
  destruct (Qeq_bool (w + 0) 0) eqn:E.
  - apply Qeq_bool_iff in E. apply Hw. lra.
  - simpl. field. intros H. apply Hw. lra.
Qed.

(** C3: at each remaining coordinate the result of
    [weighted_spatial_average] is sum(value * weight) / sum(weight) taken
    over the cells of the region whose value is defined (no data when that
    sum of weights is zero, see C8); in particular the average of a
    present cell with a non-zero weight [w] and a missing cell with any
    weight [w'] is the value of the present cell, whatever [w'] is. *)
Theorem weighted_spatial_average_masked (cos_deg : Q -> Q) (da : DataArray)
    (region : Region) (land_mask : option (list (list (option Q))))
    (v w w' : Q) :
  ~ w == 0 ->
  Forall2 oeq
    (weighted_spatial_average cos_deg da region land_mask)
    (map (fun slab =>
            masked_mean
              (zip_grid slab
                 (spatial_weights cos_deg (sel_region region da) region
                    land_mask (lat da) (lon da))))
         (values (sel_region region da)))
  /\ oeq (weighted_mean [(Some v, w); (None, w')]) (Some v)
  /\ (cos_deg 0 == 1 ->
      Forall2 oeq
        (weighted_spatial_average cos_deg (one_missing_field v) REGION_Global
           (Some [[Some w; Some w']]))
        [Some v]).
Proof.
  intros Hw. split; [|split].
  - unfold weighted_spatial_average. apply Forall2_map_oeq.
    intros slab _. apply weighted_mean_masked.
  - now apply weighted_mean_one_present.
  - intros Hc. constructor; [|constructor].
    change (oeq (weighted_mean [(Some v, cos_deg 0 * w); (None, cos_deg 0 * w')])
                (Some v)).
    apply weighted_mean_one_present. rewrite Hc. intros H. apply Hw. lra.
Qed.

Lemma weighted_spatial_average_masked_witness :
  Forall2 oeq
    (weighted_spatial_average cos_deg_rational two_latitude_field REGION_Global
       (Some [[Some 1]; [None]]))
    (map (fun slab =>
            masked_mean
              (zip_grid slab
                 (spatial_weights cos_deg_rational
                    (sel_region REGION_Global two_latitude_field) REGION_Global
                    (Some [[Some 1]; [None]]) (lat two_latitude_field)
                    (lon two_latitude_field))))
         (values (sel_region REGION_Global two_latitude_field)))
  /\ oeq (weighted_mean [(Some 5, 1 # 2); (None, 7)]) (Some 5)
  /\ Forall2 oeq
       (weighted_spatial_average cos_deg_rational (one_missing_field 5)
          REGION_Global (Some [[Some (1 # 2); Some 7]]))
       [Some 5].
Proof.
  destruct (@weighted_spatial_average_masked cos_deg_rational two_latitude_field
              REGION_Global (Some [[Some 1]; [None]]) 5 (1 # 2) 7)
    as (H1 & H2 & H3).
  - discriminate.
  - split; [exact H1 | split; [exact H2 | apply H3; reflexivity]].
Defined.

(** C8: when, at some remaining coordinate, the sum of the weights is zero
    (over the cells with a value; or over all the cells of the region,
    weights being non-negative, as with a land mask without land), the
    result of [weighted_spatial_average] at that coordinate is no data. *)
Theorem weighted_spatial_average_zero_weights (cos_deg : Q -> Q)
    (da : DataArray) (region : Region)
    (land_mask : option (list (list (option Q))))
    (k : nat) (slab : list (list (option Q))) :
  nth_error (values (sel_region region da)) k = Some slab ->
  (let cells :=
     zip_grid slab
       (spatial_weights cos_deg (sel_region region da) region land_mask
          (lat da) (lon da)) in
   Qsum (map snd (defined_cells cells)) == 0
   \/ (Forall (fun c => 0 <= snd c) cells /\ Qsum (map snd cells) == 0)) ->
  nth_error (weighted_spatial_average cos_deg da region land_mask) k = Some None.
Proof.
  intros Hk Hz. unfold weighted_spatial_average.
  rewrite nth_error_map, Hk. simpl. f_equal.
  now apply weighted_mean_zero_weights.
Qed.

Lemma weighted_spatial_average_zero_weights_witness :
  nth_error
    (weighted_spatial_average cos_deg_rational two_latitude_field REGION_Global
       (Some all_ocean_mask)) 0
  = Some None.
Proof.
  apply (@weighted_spatial_average_zero_weights cos_deg_rational
           two_latitude_field REGION_Global (Some all_ocean_mask) 0%nat
           [[Some 3]; [Some 0]]).
  - reflexivity.
  - right. split.
    + repeat constructor; simpl; discriminate.
    + reflexivity.
Defined.

(** ** The implicit weights *)

Lemma combine_repeat {A B : Type} (row : list A) (w : B) :
  combine row (repeat w (length row)) = map (fun v => (v, w)) row.
Proof. induction row as [|x row IH]; simpl; [reflexivity | now rewrite IH]. Qed.

Lemma zip_grid_by_latitude (weight : Q -> Q) (lats : list Q) (n : nat)
    (slab : list (list (option Q))) :
  Forall (fun row => length row = n) slab ->
  zip_grid slab (map (fun w => repeat w n) (map weight lats))
  = cells_by_latitude weight lats slab.
Proof.
  unfold zip_grid, cells_by_latitude. intros H. revert lats.
  induction H as [|row slab Hrow _ IH]; intros [|la lats]; simpl; try reflexivity.
  rewrite IH. subst n. now rewrite combine_repeat.
Qed.

Lemma sel_region_rows (region : Region) (d : DataArray) (slab : list (list (option Q))) :
  In slab (values (sel_region region d)) ->
  Forall (fun row => length row = length (lon (sel_region region d))) slab.
Proof.
  simpl. intros Hin. apply in_map_iff in Hin. destruct Hin as (s0 & <- & _).
  unfold sel_grid. apply Forall_forall. intros row Hr.
  apply in_map_iff in Hr. destruct Hr as (r0 & <- & _).
  now rewrite !length_isel.
Qed.

Lemma slice_idx_lt (lo hi : Q) (axis : list Q) (i : nat) :
  In i (slice_idx lo hi axis) -> (i < length axis)%nat.
Proof.
  unfold slice_idx. intros H. apply filter_In in H. destruct H as [H _].
  apply in_seq in H. lia.
Qed.

Lemma sel_grid_ones (region : Region) (d : DataArray) :
  sel_grid None region (lat d) (lon d) (ones_mask d)
  = map (fun _ => map (fun _ => Some 1)
                      (slice_idx (lon_lo region) (lon_hi region) (lon d)))
        (slice_idx (lat_lo region) (lat_hi region) (lat d)).
Proof.
  unfold sel_grid, ones_mask, isel. rewrite map_map. apply map_ext_in.
  intros i Hi. apply slice_idx_lt in Hi.
  rewrite (nth_indep _ [] (repeat (Some 1) (length (lon d))))
    by now rewrite length_map.
  rewrite (map_nth (fun _ : Q => repeat (Some 1) (length (lon d))) (lat d) 0 i).
  apply map_ext_in. intros j Hj. apply slice_idx_lt in Hj.
  now apply nth_repeat_lt.
Qed.

Lemma same_cells_zip_grid (slab : list (list (option Q))) (W W' : list (list Q)) :
  Forall2 (Forall2 Qeq) W W' -> same_cells (zip_grid slab W) (zip_grid slab W').
Proof.
  unfold zip_grid, same_cells. intros H. revert slab.
  induction H as [|w w' W W' Hw _ IH]; intros [|row slab]; simpl; try constructor.
  apply Forall2_app; [|apply IH].
  clear -Hw. revert row.
  induction Hw as [|x x' w w' Hx _ IHw]; intros [|v row]; simpl; constructor; auto.
Qed.

Lemma weighted_mean_same_cells (a b : list (option Q * Q)) :
  same_cells a b -> oeq (weighted_mean a) (weighted_mean b).
Proof.
  intros H.
  assert (Hs : dot (map fillna0 (map fst a)) (map snd a)
               == dot (map fillna0 (map fst b)) (map snd b)
               /\ dot (map notnull (map fst a)) (map snd a)
                  == dot (map notnull (map fst b)) (map snd b)).
  { unfold dot. induction H as [|[v w] [v' w'] a b [Hv Hw] _ [IH1 IH2]]; simpl in *.
    - split; reflexivity.
    - subst v'. rewrite IH1, IH2, Hw. split; reflexivity. }
  destruct Hs as [Hs1 Hs2].
  unfold weighted_mean, where_nonzero.
  rewrite (Qeqb_comp _ _ Hs2 0 0 (Qeq_refl 0)).
  destruct (Qeq_bool (dot (map notnull (map fst b)) (map snd b)) 0); simpl.
  - exact I.
  - rewrite Hs1, Hs2. reflexivity.
Qed.

Lemma implicit_row_ones (c : Q) (jdx : list nat) :
  Forall2 Qeq (repeat c (length jdx))
              (map (fun m => c * fillna0 m) (map (fun _ : nat => Some 1) jdx)).
Proof.
  induction jdx as [|j jdx IH]; simpl; constructor; [ring | exact IH].
Qed.

Lemma implicit_weights_ones (cos_deg : Q -> Q) (region : Region) (d : DataArray) :
  Forall2 (Forall2 Qeq)
    (spatial_weights cos_deg (sel_region region d) region None (lat d) (lon d))
    (spatial_weights cos_deg (sel_region region d) region (Some (ones_mask d))
       (lat d) (lon d)).
Proof.
  unfold spatial_weights. rewrite sel_grid_ones. simpl lat. simpl lon.
  rewrite length_isel. unfold isel.
  induction (slice_idx (lat_lo region) (lat_hi region) (lat d)) as [|i idx IH];
    simpl; constructor; [apply implicit_row_ones | exact IH].
Qed.

(** C4, as stated, fails: on two cells of values 3 and 0 at the equator
    and at 60 degrees north (cosines 1 and 1/2) the result is 2, the mean
    with the weights 1 and 1/2, whereas the weights 1 + 1 and 1 + 1/2
    would give 12/7. *)
Lemma one_plus_cosine_not_used :
  Forall2 oeq
    (weighted_spatial_average cos_deg_rational two_latitude_field REGION_Global None)
    [Some 2]
  /\ Forall2 oeq
       (map (fun slab =>
               masked_mean
                 (cells_by_latitude (fun la => 1 + cos_deg_rational la)
                    (lat (sel_region REGION_Global two_latitude_field)) slab))
            (values (sel_region REGION_Global two_latitude_field)))
       [Some (12 # 7)]
  /\ ~ 2 == 12 # 7.
Proof.
  split; [|split].
  - repeat constructor.
  - repeat constructor.
  - discriminate.
Qed.

(** C4 (amended): when no land mask is given, [weighted_spatial_average]
    weights every cell by the cosine of its latitude (converted from
    degrees to radians) alone, which is what an explicit land mask equal
    to 1 everywhere gives: the result is the masked weighted mean with
    these weights, not an unweighted arithmetic mean. *)
Theorem weighted_spatial_average_cosine_weights (cos_deg : Q -> Q)
    (da : DataArray) (region : Region) :
  Forall2 oeq
    (weighted_spatial_average cos_deg da region None)
    (map (fun slab =>
            masked_mean
              (cells_by_latitude cos_deg (lat (sel_region region da)) slab))
         (values (sel_region region da)))
  /\ Forall2 oeq
       (weighted_spatial_average cos_deg da region None)
       (weighted_spatial_average cos_deg da region (Some (ones_mask da))).
Proof.
  split.
  - unfold weighted_spatial_average. apply Forall2_map_oeq. intros slab Hin.
    unfold spatial_weights.
    rewrite (zip_grid_by_latitude cos_deg _ (sel_region_rows region da slab Hin)).
    apply weighted_mean_masked.
  - unfold weighted_spatial_average. apply Forall2_map_oeq. intros slab _.
    apply weighted_mean_same_cells, same_cells_zip_grid, implicit_weights_ones.
Qed.

(* ===================================================================== *)
(** * Theorems: temporal resampler *)
(* ===================================================================== *)

(** ** Bins of a resampled series *)

Lemma last_map {A B : Type} (h : A -> B) (x : list A) (d : A) :
  last (map h x) (h d) = h (last x d).
Proof.
  induction x as [|a x IH]; simpl; [reflexivity|].
  destruct x as [|b x]; simpl in *; [reflexivity | exact IH].
Qed.

Lemma bins_of_map {A B : Type} (key : timestamp -> Z)
    (h : timestamp * A -> timestamp * B) (x : series A) :
  (forall e, fst (h e) = fst e) -> bins_of key (map h x) = bins_of key x.
Proof.
  intros Hh. destruct x as [|e0 x]; [reflexivity|].
  unfold bins_of. cbn [map].
  change (h e0 :: map h x) with (map h (e0 :: x)).
  rewrite last_map. now rewrite !Hh.
Qed.

Lemma entries_of_map {A B : Type} (key : timestamp -> Z)
    (h : timestamp * A -> timestamp * B) (x : series A) (k : Z) :
  (forall e, fst (h e) = fst e) ->
  entries_of key (map h x) k = map h (entries_of key x k).
Proof.
  intros Hh. unfold entries_of. induction x as [|e x IH]; simpl; [reflexivity|].
  rewrite Hh. destruct (key (fst e) =? k)%Z; simpl; now rewrite IH.
Qed.

Lemma resample_map {A B : Type} (key : timestamp -> Z)
    (h : timestamp * A -> timestamp * B) (x : series A) :
  is_monotonic_increasing (map (fun e => to_ns (fst e)) x) = true ->
  (forall e, fst (h e) = fst e) ->
  resample key (map h x)
  = Ok (map (fun k => (k, map h (entries_of key x k))) (bins_of key x)).
Proof.
  intros Hm Hh. unfold resample.
  rewrite map_map.
  rewrite (map_ext (fun e => to_ns (fst (h e))) (fun e => to_ns (fst e)))
    by (intros e; now rewrite Hh).
  rewrite Hm, bins_of_map by exact Hh. f_equal.
  apply map_ext. intros k. now rewrite entries_of_map.
Qed.

Lemma combine_map_r {A B : Type} (g : A -> B) (l : list A) :
  combine l (map g l) = map (fun e => (e, g e)) l.
Proof. induction l as [|a l IH]; simpl; [reflexivity | now rewrite IH]. Qed.

Lemma combine_map_map {A B C : Type} (f : A -> B) (g : A -> C) (l : list A) :
  combine (map f l) (map g l) = map (fun a => (f a, g a)) l.
Proof. induction l as [|a l IH]; simpl; [reflexivity | now rewrite IH]. Qed.

(** ** Sums over a bin *)

Lemma sum_strict_weighted (w : timestamp * option Q -> Q) (es : series (option Q)) :
  sum_strict (map (fun e => omul (snd e) (w e)) es)
  = match es with
    | [] => None
    | _ :: _ =>
        if all_defined es
        then Some (Qsum (map (fun e => fillna0 (snd e) * w e) es))
        else None
    end.
Proof.
  destruct es as [|e0 es0]; [reflexivity|].
  remember (e0 :: es0) as es eqn:E.
  assert (H : fold_right (fun v acc => match v, acc with
                                       | Some x, Some a => Some (x + a)
                                       | _, _ => None
                                       end) (Some 0)
                (map (fun e => omul (snd e) (w e)) es)
              = if all_defined es
                then Some (Qsum (map (fun e => fillna0 (snd e) * w e) es))
                else None).
  { clear E. induction es as [|[t [v|]] es IH]; simpl; [reflexivity| |reflexivity].
    rewrite IH. unfold all_defined. now destruct (forallb _ es). }
  rewrite <- H. subst es. reflexivity.
Qed.

Lemma dim_pos (t : timestamp) : (0 < dim t)%Z.
Proof.
  unfold dim, days_in_month.
  destruct (month t =? 2)%Z; [destruct (is_leap (year t)); lia|].
  destruct ((month t =? 4) || (month t =? 6) || (month t =? 9)
            || (month t =? 11))%Z; lia.
Qed.

Lemma sum_days_pos {A : Type} (es : series A) :
  es <> [] -> 0 < Qsum (map (fun e => inject_Z (dim (fst e))) es).
Proof.
  assert (H0 : forall l : series A,
             0 <= Qsum (map (fun e => inject_Z (dim (fst e))) l)).
  { induction l as [|e l IH]; simpl; [apply Qle_refl|].
    pose proof (dim_pos (fst e)) as Hp.
    assert (0 < inject_Z (dim (fst e))) by (rewrite <- (Zlt_Qlt 0); exact Hp).
    lra. }
  destruct es as [|e es]; [congruence|]. intros _. simpl.
  pose proof (dim_pos (fst e)) as Hp.
  assert (0 < inject_Z (dim (fst e))) by (rewrite <- (Zlt_Qlt 0); exact Hp).
  specialize (H0 es). lra.
Qed.

Lemma inject_Z_sum (l : list Z) :
  inject_Z (fold_right Z.add 0%Z l) == Qsum (map inject_Z l).
Proof.
  induction l as [|z l IH]; simpl; [reflexivity|].
  rewrite inject_Z_plus, IH. reflexivity.
Qed.

Lemma Qsum_scale {A : Type} (f : A -> Q) (c : Q) (l : list A) :
  Qsum (map (fun a => f a * c) l) == Qsum (map f l) * c.
Proof.
  induction l as [|a l IH]; simpl; [ring | rewrite IH; ring].
Qed.

Lemma Qsum_ext {A : Type} (f g : A -> Q) (l : list A) :
  (forall a, In a l -> f a == g a) -> Qsum (map f l) == Qsum (map g l).
Proof.
  induction l as [|a l IH]; intros H; simpl; [reflexivity|].
  rewrite (H a (or_introl eq_refl)), IH; [reflexivity|].
  intros b Hb. apply H. now right.
Qed.

(** ** Annual average *)

Lemma entries_of_year {A : Type} (da : series A) (k : Z) (e : timestamp * A) :
  In e (entries_of year da k) -> year (fst e) = k.
Proof.
  unfold entries_of. intros H. apply filter_In in H. destruct H as [_ H].
  now apply Z.eqb_eq.
Qed.

Lemma year_total_sum {A : Type} (da : series A) (k : Z) :
  inject_Z (year_total da k)
  == Qsum (map (fun e => inject_Z (dim (fst e))) (entries_of year da k)).
Proof.
  unfold year_total. rewrite inject_Z_sum, map_map. reflexivity.
Qed.

(** The weights of the months present in a year sum to 1. *)
Lemma annual_weights_bin {A : Type} (da : series A) (k : Z) :
  entries_of year da k <> [] ->
  Qsum (map snd (map (annual_weight da) (entries_of year da k))) == 1.
Proof.
  intros Hne. rewrite map_map.
  pose proof (@sum_days_pos _ _ Hne) as Hpos.
  pose proof (year_total_sum da k) as HT.
  set (T := inject_Z (year_total da k)) in *.
  rewrite (Qsum_ext (fun e => snd (annual_weight da e))
                    (fun e => inject_Z (dim (fst e)) * / T)).
  - rewrite Qsum_scale, <- HT. field. lra.
  - intros e He. unfold annual_weight. simpl.
    rewrite (@entries_of_year _ da k e He). reflexivity.
Qed.

Lemma annual_bin (da : series (option Q)) (k : Z) :
  entries_of year da k <> [] ->
  allclose_1 (sum_bin (map snd (map (annual_weight da) (entries_of year da k))))
  = true
  /\ oeq (odiv2 (sum_strict (map snd (map (annual_term da) (entries_of year da k))))
                (sum_bin (map snd (map (annual_weight da) (entries_of year da k)))))
         (day_weighted_mean (entries_of year da k)).
Proof.
  intros Hne.
  pose proof (@annual_weights_bin _ da k Hne) as Hw.
  pose proof (@sum_days_pos _ _ Hne) as Hpos.
  pose proof (year_total_sum da k) as HT.
  set (es := entries_of year da k) in *.
  assert (Hbin : sum_bin (map snd (map (annual_weight da) es))
                 = Some (Qsum (map snd (map (annual_weight da) es)))).
  { destruct es; [congruence | reflexivity]. }
  rewrite Hbin. split.
  - unfold allclose_1. apply Qle_bool_iff. rewrite Hw.
    setoid_replace (1 - 1) with 0 by ring. discriminate.
  - rewrite (map_map (annual_term da) snd).
    change (fun x => snd (annual_term da x))
      with (fun e : timestamp * option Q => omul (snd e) (snd (annual_weight da e))).
    rewrite sum_strict_weighted. unfold day_weighted_mean.
    destruct es as [|e0 es0] eqn:Ees; [congruence|]. rewrite <- Ees in *.
    destruct (all_defined es); simpl; [|exact I].
    rewrite Hw.
    set (T := inject_Z (year_total da k)) in *.
    rewrite (Qsum_ext (fun e => fillna0 (snd e) * snd (annual_weight da e))
                      (fun e => fillna0 (snd e) * inject_Z (dim (fst e)) * / T)).
    + rewrite Qsum_scale, <- HT. field. lra.
    + intros e He. unfold annual_weight. simpl.
      rewrite Ees in He. fold es in He. rewrite <- Ees in He.
      rewrite (@entries_of_year _ da k e He). fold T. field. lra.
Qed.

Lemma forallb_map_comp {A B : Type} (f : B -> bool) (g : A -> B) (l : list A) :
  forallb f (map g l) = forallb (fun a => f (g a)) l.
Proof. induction l as [|a l IH]; simpl; [reflexivity | now rewrite IH]. Qed.

Lemma weighted_annual_average_eval (da : series (option Q)) :
  is_monotonic_increasing (map (fun e => to_ns (fst e)) da) = true ->
  (forall k, In k (bins_of year da) -> entries_of year da k <> []) ->
  weighted_annual_average da
  = Ok (map (fun k =>
               (year_start k,
                odiv2 (sum_strict (map snd (map (annual_term da) (entries_of year da k))))
                      (sum_bin (map snd (map (annual_weight da) (entries_of year da k))))))
            (bins_of year da)).
Proof.
  intros Hm Hfull. unfold weighted_annual_average.
  change (annual_weights da) with (map (annual_weight da) da).
  rewrite combine_map_r, map_map.
  change (map (fun x : timestamp * option Q =>
                 (fst (fst (x, annual_weight da x)),
                  omul (snd (fst (x, annual_weight da x)))
                       (snd (snd (x, annual_weight da x))))) da)
    with (map (annual_term da) da).
  rewrite (resample_map year (annual_term da) da Hm) by reflexivity.
  rewrite (resample_map year (annual_weight da) da Hm) by reflexivity.
  cbn [rbind]. rewrite !map_map. cbn [fst snd].
  rewrite forallb_map_comp.
  assert (Hall : forallb
                   (fun k => allclose_1
                        (snd (k, sum_bin (map snd (map (annual_weight da)
                                                      (entries_of year da k))))))
                   (bins_of year da) = true).
  { apply forallb_forall. intros k Hk. cbn [snd].
    exact (proj1 (@annual_bin da k (Hfull k Hk))). }
  rewrite Hall. f_equal.
  rewrite combine_map_map, map_map. reflexivity.
Qed.

(** C1, as stated, fails: for the year 2021 given by its January and
    February only, the annual result is the day-weighted average of the
    two months, (31 * 1 + 28 * 2) / 59, not "no data". *)
Lemma partial_year_is_averaged :
  map (fun e => month (fst e)) (entries_of year jan_feb_series 2021) = [1; 2]%Z
  /\ exists r,
       weighted_annual_average jan_feb_series = Ok [(year_start 2021, Some r)]
       /\ r == 87 # 59.
Proof.
  split; [reflexivity|].
  eexists. split; [vm_compute; reflexivity | reflexivity].
Qed.

(** C1 (amended): for every monthly time series reduced by
    [weighted_annual_average], the day-count weights of the months present
    in a calendar year sum to 1 (hence within 1e-6 of 1), for a complete
    12-month year and for an incomplete one alike; and, the series being
    ordered in time with no year left empty between its first and last,
    the annual result is "no data" when the value of a month present is
    missing and is otherwise the day-weighted average of the months
    present in that year. *)
Theorem weighted_annual_average_months_present (da : series (option Q)) :
  is_monotonic_increasing (map (fun e => to_ns (fst e)) da) = true ->
  (forall k, In k (bins_of year da) -> entries_of year da k <> []) ->
  (forall y,
      entries_of year da y <> [] ->
      Qsum (map snd (entries_of year (annual_weights da) y)) == 1
      /\ Qabs (Qsum (map snd (entries_of year (annual_weights da) y)) - 1)
         <= 1 # 1000000)
  /\ exists res,
       weighted_annual_average da = Ok res
       /\ map fst res = map year_start (bins_of year da)
       /\ Forall2 oeq (map snd res)
            (map (fun y => day_weighted_mean (entries_of year da y))
                 (bins_of year da)).
Proof.
  intros Hm Hfull. split.
  - intros y Hy.
    change (annual_weights da) with (map (annual_weight da) da).
    rewrite entries_of_map by reflexivity.
    pose proof (@annual_weights_bin _ da y Hy) as H1.
    split; [exact H1|]. rewrite H1.
    setoid_replace (1 - 1) with 0 by ring. discriminate.
  - eexists. split; [apply (weighted_annual_average_eval da Hm Hfull)|].
    rewrite !map_map. cbn [fst snd]. split; [reflexivity|].
    clear Hm. induction (bins_of year da) as [|k ks IH]; simpl; constructor.
    + apply (@annual_bin da k). apply Hfull. now left.
    + apply IH. intros j Hj. apply Hfull. now right.
Qed.

Lemma weighted_annual_average_months_present_witness :
  (forall y,
      entries_of year jan_feb_series y <> [] ->
      Qsum (map snd (entries_of year (annual_weights jan_feb_series) y)) == 1
      /\ Qabs (Qsum (map snd (entries_of year (annual_weights jan_feb_series) y)) - 1)
         <= 1 # 1000000)
  /\ exists res,
       weighted_annual_average jan_feb_series = Ok res
       /\ map fst res = map year_start (bins_of year jan_feb_series)
       /\ Forall2 oeq (map snd res)
            (map (fun y => day_weighted_mean (entries_of year jan_feb_series y))
                 (bins_of year jan_feb_series)).
Proof.
  apply (@weighted_annual_average_months_present jan_feb_series).
  - reflexivity.
  - intros k [<-|[]]. discriminate.
Defined.

(** A year without any month between the first and the last leaves a NaN
    denominator, and the assertion of the function fails. *)
Example empty_year_fails :
  weighted_annual_average
    [ (mkTime 2021 1 1 0, Some 1); (mkTime 2023 1 1 0, Some 2) ]
  = Err AssertionError.
Proof. reflexivity. Qed.

(* ===================================================================== *)
(** * Theorems: climatology and anomalies *)
(* ===================================================================== *)

Lemma climatology_at_map (F : Z -> option Q) (ms : list Z) (m : Z) :
  climatology_at (map (fun k => (k, F k)) ms) m
  = if existsb (fun k => (k =? m)%Z) ms then F m else None.
Proof.
  unfold climatology_at. induction ms as [|k ms IH]; simpl; [reflexivity|].
  destruct (k =? m)%Z eqn:E; simpl.
  - apply Z.eqb_eq in E. now subst.
  - exact IH.
Qed.

Lemma existsb_filter_eqb (P : Z -> bool) (l : list Z) (m : Z) :
  existsb (fun k => (k =? m)%Z) (filter P l)
  = P m && existsb (fun k => (k =? m)%Z) l.
Proof.
  induction l as [|k l IH]; simpl.
  - now rewrite andb_false_r.
  - destruct (k =? m)%Z eqn:E.
    + apply Z.eqb_eq in E. subst k.
      destruct (P m) eqn:Ep; simpl; [now rewrite Z.eqb_refl | exact IH].
    + destruct (P k); simpl; rewrite ?E; exact IH.
Qed.

Lemma month_listed (P : Z -> bool) (m : Z) :
  (1 <= m <= 12)%Z ->
  existsb (fun k => (k =? m)%Z) (filter P (map Z.of_nat (seq 1 12))) = P m.
Proof.
  intros Hm. rewrite existsb_filter_eqb.
  assert (Hc : (m = 1 \/ m = 2 \/ m = 3 \/ m = 4 \/ m = 5 \/ m = 6 \/ m = 7
                \/ m = 8 \/ m = 9 \/ m = 10 \/ m = 11 \/ m = 12)%Z) by lia.
  assert (He : existsb (fun k => (k =? m)%Z) (map Z.of_nat (seq 1 12)) = true).
  { repeat (destruct Hc as [->|Hc]); try subst m; reflexivity. }
  rewrite He. apply andb_true_r.
Qed.

Lemma nanmean_observed (l : series (option Q)) :
  Qsum (map fillna0 (map snd l))
  == Qsum (flat_map (fun e => match snd e with Some v => [v] | None => [] end) l)
  /\ Qsum (map notnull (map snd l))
     == inject_Z (Z.of_nat (length
          (flat_map (fun e => match snd e with Some v => [v] | None => [] end) l))).
Proof.
  induction l as [|[t [v|]] l [IH1 IH2]].
  - split; reflexivity.
  - cbn [map snd fillna0 notnull flat_map app length Qsum fold_right] in *.
    rewrite Nat2Z.inj_succ, <- Z.add_1_r, inject_Z_plus.
    change (fold_right Qplus 0) with Qsum. rewrite IH1, IH2.
    split; [reflexivity | change (inject_Z 1) with 1; ring].
  - cbn [map snd fillna0 notnull flat_map app length Qsum fold_right] in *.
    change (fold_right Qplus 0) with Qsum. rewrite IH1, IH2.
    split; ring.
Qed.

Lemma climatology_is_mean_observed (da : series (option Q)) (m : Z) :
  (1 <= m <= 12)%Z ->
  oeq (climatology_at (monthly_climatology da) m) (mean_observed da m).
Proof.
  intros Hm. unfold monthly_climatology.
  rewrite climatology_at_map, (month_listed _ Hm).
  unfold mean_observed, observed.
  set (es := filter (fun e => (month (fst e) =? m)%Z) (sel_REF_PERIOD da)).
  destruct (existsb (fun e => (month (fst e) =? m)%Z) (sel_REF_PERIOD da)) eqn:Ex.
  - unfold nanmean. destruct (nanmean_observed es) as [H1 H2].
    set (obs := flat_map (fun e => match snd e with Some v => [v] | None => [] end) es) in *.
    rewrite (Qeqb_comp _ _ H2 0 0 (Qeq_refl 0)).
    destruct obs as [|x obs'] eqn:Eo.
    + reflexivity.
    + assert (Hpos : 0 < inject_Z (Z.of_nat (length (x :: obs')))).
      { rewrite <- (Zlt_Qlt 0). simpl length. lia. }
      destruct (Qeq_bool (inject_Z (Z.of_nat (length (x :: obs')))) 0) eqn:E0.
      * apply Qeq_bool_iff in E0. rewrite E0 in Hpos.
        exfalso. exact (Qlt_irrefl _ Hpos).
      * simpl oeq. rewrite H1, H2. reflexivity.
  - assert (Hes : es = []).
    { unfold es. induction (sel_REF_PERIOD da) as [|e l IH]; [reflexivity|].
      simpl in *. destruct (month (fst e) =? m)%Z; [discriminate|].
      now apply IH. }
    rewrite Hes. reflexivity.
Qed.

(** C9: [Climatology[m]] is the arithmetic mean, over the years of the
    reference period, of the values observed in calendar month [m] (no
    data when none was observed), and the anomaly at a time [t] is
    [value(t) - Climatology[month(t)]], defined exactly when both are. *)
Theorem monthly_climatology_anomaly (da : series (option Q)) :
  Forall (fun e => (1 <= month (fst e) <= 12)%Z) da ->
  (forall m, (1 <= m <= 12)%Z ->
             oeq (climatology_at (monthly_climatology da) m) (mean_observed da m))
  /\ Forall2
       (fun e a =>
          fst a = fst e
          /\ match snd e, mean_observed da (month (fst e)) with
             | Some v, Some c => exists x, snd a = Some x /\ x == v - c
             | _, _ => snd a = None
             end)
       da (anomaly da (monthly_climatology da)).
Proof.
  intros Hvalid. split.
  - intros m Hm. now apply climatology_is_mean_observed.
  - unfold anomaly.
    set (clim := monthly_climatology da).
    assert (Hc : forall e, In e da ->
               oeq (climatology_at clim (month (fst e)))
                   (mean_observed da (month (fst e)))).
    { intros e He. apply climatology_is_mean_observed.
      rewrite Forall_forall in Hvalid. now apply Hvalid. }
    clear Hvalid. revert Hc. generalize (mean_observed da) as M. intros M.
    generalize (climatology_at clim) as C. intros C Hc.
    induction da as [|e da IH]; simpl; constructor.
    + split; [reflexivity|]. cbn [fst snd].
      specialize (Hc e (or_introl eq_refl)).
      destruct (snd e) as [v|]; destruct (C (month (fst e))) as [c|];
        destruct (M (month (fst e))) as [c'|]; simpl in *;
        try contradiction; try reflexivity.
      exists (v - c). split; [reflexivity | now rewrite Hc].
    + apply IH. intros e' He'. apply Hc. now right.
Qed.

Lemma monthly_climatology_anomaly_witness :
  (forall m, (1 <= m <= 12)%Z ->
             oeq (climatology_at (monthly_climatology reference_series) m)
                 (mean_observed reference_series m))
  /\ Forall2
       (fun e a =>
          fst a = fst e
          /\ match snd e, mean_observed reference_series (month (fst e)) with
             | Some v, Some c => exists x, snd a = Some x /\ x == v - c
             | _, _ => snd a = None
             end)
       reference_series
       (anomaly reference_series (monthly_climatology reference_series)).
Proof.
  apply (@monthly_climatology_anomaly reference_series).
  repeat constructor; simpl; discriminate.
Defined.

Example climatology_of_reference_series :
  oeq (climatology_at (monthly_climatology reference_series) 1) (Some 3)
  /\ oeq (climatology_at (monthly_climatology reference_series) 7) (Some 21)
  /\ climatology_at (monthly_climatology reference_series) 3 = None.
Proof. repeat split. Qed.

(* ===================================================================== *)
(** * Theorems: seasons *)
(* ===================================================================== *)

(** ** The label of a season *)

Lemma add_days_S (n : nat) (t : timestamp) :
  add_days (S n) t = next_day (add_days n t).
Proof. reflexivity. Qed.

Lemma add_days_within (n : nat) (Y M d ns : Z) :
  (d + Z.of_nat n <= days_in_month Y M)%Z ->
  add_days n {| year := Y; month := M; day := d; nanos := ns |}
  = {| year := Y; month := M; day := d + Z.of_nat n; nanos := ns |}.
Proof.
  induction n as [|n IH]; intros H.
  - simpl. now rewrite Z.add_0_r.
  - rewrite add_days_S, IH by lia. unfold next_day. cbn [year month day nanos].
    assert (E : (d + Z.of_nat n <? days_in_month Y M)%Z = true)
      by (apply Z.ltb_lt; lia).
    rewrite E. f_equal. lia.
Qed.

(** Thirty-one days after the first day of a quarter: the first of January
    of the next year for the quarter of December, the second day of the
    next month for those of June and September, the first for March. *)
Lemma add_31_days_quarter_start (Y M : Z) :
  (M = 12 \/ M = 3 \/ M = 6 \/ M = 9)%Z ->
  let lbl := add_days 31 {| year := Y; month := M; day := 1; nanos := 0 |} in
  year lbl = (if (M =? 12)%Z then (Y + 1)%Z else Y)
  /\ month lbl = (if (M =? 12)%Z then 1%Z else (M + 1)%Z).
Proof.
  intros [-> | [-> | [-> | ->]]]; cbv zeta.
  - rewrite add_days_S, add_days_within by (cbn; lia). split; reflexivity.
  - rewrite add_days_S, add_days_within by (cbn; lia). split; reflexivity.
  - rewrite 2 add_days_S, add_days_within by (cbn; lia). split; reflexivity.
  - rewrite 2 add_days_S, add_days_within by (cbn; lia). split; reflexivity.
Qed.

Lemma quarter_start_quarter (t : timestamp) :
  quarter_start (quarter t)
  = {| year := year t + (3 * (month t / 3) - 1) / 12;
       month := (3 * (month t / 3) - 1) mod 12 + 1;
       day := 1; nanos := 0 |}.
Proof.
  unfold quarter, quarter_start.
  replace (12 * year t + month t)%Z with (4 * year t * 3 + month t)%Z by ring.
  rewrite Z.div_add_l by lia.
  replace (3 * (4 * year t + month t / 3) - 1)%Z
    with (year t * 12 + (3 * (month t / 3) - 1))%Z by ring.
  rewrite Z.div_add_l by lia.
  rewrite (Z.add_comm (year t * 12)), Z.mod_add by lia.
  reflexivity.
Qed.

(** A season is labelled with the year of its January and February: the
    quarter of a December carries the following year, every other month
    its own year, and the season is the one of the month. *)
Lemma season_label (t : timestamp) :
  (1 <= month t <= 12)%Z ->
  let lbl := add_days 31 (quarter_start (quarter t)) in
  year lbl = (if (month t =? 12)%Z then (year t + 1)%Z else year t)
  /\ season_of_month (month lbl) = season_of_month (month t).
Proof.
  intros Hm. cbv zeta. rewrite quarter_start_quarter.
  destruct t as [y m d ns]. cbn [year month] in *.
  assert (Hc : (m = 1 \/ m = 2 \/ m = 3 \/ m = 4 \/ m = 5 \/ m = 6 \/ m = 7
                \/ m = 8 \/ m = 9 \/ m = 10 \/ m = 11 \/ m = 12)%Z) by lia.
  clear Hm.
  repeat (destruct Hc as [->|Hc]); try subst m;
    match goal with
    | |- context [add_days 31 {| year := ?Y; month := ?M |}] =>
        let M' := eval cbv in M in
        change M with M';
        destruct (@add_31_days_quarter_start Y M') as [Hy Hmo];
          [lia | rewrite Hy, Hmo]
    end;
    cbn; split; try reflexivity; lia.
Qed.

(** ** Seasonal average *)

Lemma seasonal_bin (es : series (option Q)) :
  oeq (odiv2 (sum_strict (map snd (map seasonal_term es)))
             (sum_bin (map snd (map month_length es))))
      (day_weighted_mean es).
Proof.
  rewrite (map_map seasonal_term snd).
  change (fun x => snd (seasonal_term x))
    with (fun e : timestamp * option Q => omul (snd e) (inject_Z (dim (fst e)))).
  rewrite sum_strict_weighted. unfold day_weighted_mean.
  destruct es as [|e0 es0]; [exact I|].
  destruct (all_defined (e0 :: es0)); [|exact I].
  rewrite (map_map month_length snd). simpl. reflexivity.
Qed.

Lemma weighted_seasonal_average_eval (ds : series (option Q)) :
  is_monotonic_increasing (map (fun e => to_ns (fst e)) ds) = true ->
  weighted_seasonal_average ds
  = Ok (map (fun k =>
               (quarter_start k,
                odiv2 (sum_strict (map snd (map seasonal_term (entries_of quarter ds k))))
                      (sum_bin (map snd (map month_length (entries_of quarter ds k))))))
            (bins_of quarter ds)).
Proof.
  intros Hm. unfold weighted_seasonal_average.
  change (map (fun e : timestamp * option Q =>
                 (fst e, omul (snd e) (inject_Z (dim (fst e))))) ds)
    with (map seasonal_term ds).
  change (map (fun e : timestamp * option Q => (fst e, inject_Z (dim (fst e)))) ds)
    with (map month_length ds).
  rewrite (resample_map quarter seasonal_term ds Hm) by reflexivity.
  rewrite (resample_map quarter month_length ds Hm) by reflexivity.
  cbn [rbind]. rewrite !map_map. cbn [fst snd]. f_equal.
  rewrite combine_map_map, map_map. reflexivity.
Qed.

(** ** The (year, season) table *)

Lemma season_eqb_eq (a b : season) : season_eqb a b = true <-> a = b.
Proof. destruct a, b; simpl; split; intros H; try reflexivity; discriminate. Qed.

Lemma table_get_loc_set_nan (s0 : season) (ys : list Z) (t T : table)
    (y : Z) (s : season) :
  loc_set_nan s0 ys t = Ok T ->
  table_get T y s
  = if season_eqb s s0 && existsb (Z.eqb y) ys then None else table_get t y s.
Proof.
  unfold loc_set_nan. destruct (_ && _); [|discriminate].
  intros H. injection H as <-. unfold table_get.
  induction t as [|e t IH]; simpl.
  - now destruct (season_eqb s s0 && existsb (Z.eqb y) ys).
  - assert (Hk : key_eqb
                   (fst (if season_eqb (snd (fst e)) s0
                            && existsb (Z.eqb (fst (fst e))) ys
                         then (fst e, None) else e)) y s
                 = key_eqb (fst e) y s).
    { now destruct (season_eqb (snd (fst e)) s0 && existsb (Z.eqb (fst (fst e))) ys). }
    rewrite Hk. destruct (key_eqb (fst e) y s) eqn:E; [|exact IH].
    unfold key_eqb in E. apply andb_true_iff in E. destruct E as [E1 E2].
    apply Z.eqb_eq in E1. apply season_eqb_eq in E2. rewrite E1, E2.
    now destruct (season_eqb s s0 && existsb (Z.eqb y) ys).
Qed.

(** C7, as stated, fails: in a monthly series from January 1950 to June
    2023 the last window of the span holds June 2023 alone, and the summer
    of 2023 is nevertheless computed, from that one month. *)
Lemma last_window_not_invalidated :
  map fst (entries_of quarter series_1950_2023 (quarter (mkTime 2023 6 1 0)))
  = [mkTime 2023 6 1 0]
  /\ exists T,
       eobs_seasonal series_1950_2023 = Ok T
       /\ oeq (table_get T 2023 JJA) (Some 10).
Proof.
  split; [vm_compute; reflexivity|].
  eexists. split; [vm_compute; reflexivity|].
  vm_compute. reflexivity.
Qed.

(** C7 (amended): in seasonal reduction every season is labelled with the
    calendar year of its January and February members (a December counts
    for the winter of the following year); each season is the
    day-weighted average of the months present in its window, however
    few; and only the winters (DJF) of 1950 and 2023, the boundary
    seasons of the span 1950-01 to 2022-12, are set to "no data". *)
Theorem seasonal_years_and_boundaries (ds : series (option Q)) :
  is_monotonic_increasing (map (fun e => to_ns (fst e)) ds) = true ->
  (forall t,
      (1 <= month t <= 12)%Z ->
      let lbl := add_days 31 (quarter_start (quarter t)) in
      year lbl = (if (month t =? 12)%Z then (year t + 1)%Z else year t)
      /\ season_of_month (month lbl) = season_of_month (month t))
  /\ exists avg,
       weighted_seasonal_average ds = Ok avg
       /\ map fst avg = map quarter_start (bins_of quarter ds)
       /\ Forall2 oeq (map snd avg)
            (map (fun k => day_weighted_mean (entries_of quarter ds k))
                 (bins_of quarter ds))
       /\ forall T,
            eobs_seasonal ds = Ok T ->
            forall y s,
              table_get T y s
              = if season_eqb s DJF && ((y =? 1950) || (y =? 2023))%Z
                then None
                else table_get
                       (convert_time_to_year_season
                          (map (fun e => (add_days 31 (fst e), snd e)) avg))
                       y s.
Proof.
  intros Hm. split; [exact season_label|].
  eexists. split; [apply (weighted_seasonal_average_eval ds Hm)|].
  split; [|split].
  - rewrite !map_map. reflexivity.
  - rewrite !map_map. cbn [snd].
    induction (bins_of quarter ds) as [|k ks IH]; simpl; constructor;
      [apply seasonal_bin | exact IH].
  - intros T HT y s. unfold eobs_seasonal in HT.
    rewrite (weighted_seasonal_average_eval ds Hm) in HT. cbn [rbind] in HT.
    rewrite (table_get_loc_set_nan _ _ _ y s HT).
    simpl existsb. now rewrite orb_false_r.
Qed.

Lemma seasonal_years_and_boundaries_witness :
  (forall t,
      (1 <= month t <= 12)%Z ->
      let lbl := add_days 31 (quarter_start (quarter t)) in
      year lbl = (if (month t =? 12)%Z then (year t + 1)%Z else year t)
      /\ season_of_month (month lbl) = season_of_month (month t))
  /\ exists avg,
       weighted_seasonal_average series_1950_2023 = Ok avg
       /\ map fst avg = map quarter_start (bins_of quarter series_1950_2023)
       /\ Forall2 oeq (map snd avg)
            (map (fun k => day_weighted_mean (entries_of quarter series_1950_2023 k))
                 (bins_of quarter series_1950_2023))
       /\ forall T,
            eobs_seasonal series_1950_2023 = Ok T ->
            forall y s,
              table_get T y s
              = if season_eqb s DJF && ((y =? 1950) || (y =? 2023))%Z
                then None
                else table_get
                       (convert_time_to_year_season
                          (map (fun e => (add_days 31 (fst e), snd e)) avg))
                       y s.
Proof.
  apply (@seasonal_years_and_boundaries series_1950_2023).
  vm_compute. reflexivity.
Defined.

Example winter_of_2023_invalidated :
  map fst (entries_of quarter series_1950_2023 (quarter (mkTime 2023 1 1 0)))
  = [mkTime 2022 12 1 0; mkTime 2023 1 1 0; mkTime 2023 2 1 0]
  /\ exists T,
       eobs_seasonal series_1950_2023 = Ok T
       /\ table_get T 2023 DJF = None
       /\ table_get T 1950 DJF = None
       /\ oeq (table_get T 2022 DJF) (Some 10).
Proof.
  split; [vm_compute; reflexivity|].
  eexists. split; [vm_compute; reflexivity|].
  vm_compute. repeat split.
Qed.

(* ===================================================================== *)
(** * Further properties: calendar and monthly sampling *)
(* ===================================================================== *)

Lemma fold_add_snoc (l : list Z) (x : Z) :
  fold_right Z.add 0%Z (l ++ [x]) = (fold_right Z.add 0%Z l + x)%Z.
Proof. induction l as [|a l IH]; simpl; [lia | rewrite IH; lia]. Qed.

Lemma days_before_month_succ (y m : Z) :
  (1 <= m)%Z ->
  days_before_month y (m + 1) = (days_before_month y m + days_in_month y m)%Z.
Proof.
  intros Hm. unfold days_before_month.
  replace (Z.to_nat (m + 1 - 1)) with (S (Z.to_nat (m - 1))) by lia.
  rewrite seq_S, map_app. cbn [map]. rewrite fold_add_snoc. f_equal. f_equal. lia.
Qed.

Lemma days_in_month_bounds (y m : Z) : (28 <= days_in_month y m <= 31)%Z.
Proof.
  unfold days_in_month.
  destruct (m =? 2)%Z; [destruct (is_leap y); lia|].
  destruct ((m =? 4) || (m =? 6) || (m =? 9) || (m =? 11))%Z; lia.
Qed.

Lemma days_before_month_12 (y : Z) :
  days_before_month y 12 = (334 + (if is_leap y then 1 else 0))%Z.
Proof.
  unfold days_before_month. cbn [Z.sub Z.add Z.opp Z.pos_sub Z.to_nat
    Pos.to_nat Pos.iter_op Nat.add seq map fold_right Pos.pred_double Z.succ_double
    Z.pred_double Z.double].
  unfold days_in_month. cbn. destruct (is_leap y); reflexivity.
Qed.

Lemma days_before_year_succ (y : Z) :
  days_before_year (y + 1)
  = (days_before_year y + 365 + (if is_leap y then 1 else 0))%Z.
Proof.
  unfold days_before_year, is_leap. cbv zeta.
  replace (y + 1 - 1)%Z with y by lia.
  destruct (y mod 4 =? 0)%Z eqn:E4; destruct (y mod 100 =? 0)%Z eqn:E100;
    destruct (y mod 400 =? 0)%Z eqn:E400; cbn [andb orb negb];
    rewrite ?Z.eqb_eq, ?Z.eqb_neq in *;
    Z.div_mod_to_equations; lia.
Qed.

Lemma next_month_start (t : timestamp) :
  is_month_start t -> is_month_start (next_month t).
Proof.
  intros (Hm & Hd & Hn). unfold next_month, is_month_start.
  destruct (month t <? 12)%Z eqn:E; cbn [year month day nanos].
  - apply Z.ltb_lt in E. repeat split; lia.
  - repeat split; lia.
Qed.

Lemma toordinal_next_month (d ns : Z) (t : timestamp) :
  (1 <= month t <= 12)%Z ->
  toordinal (stamp d ns (next_month t)) = (toordinal (stamp d ns t) + dim t)%Z.
Proof.
  intros Hm. unfold next_month, toordinal, stamp, dim.
  destruct (month t <? 12)%Z eqn:E; cbn [year month day nanos].
  - rewrite days_before_month_succ by lia. lia.
  - apply Z.ltb_ge in E. replace (month t) with 12%Z by lia.
    rewrite days_before_year_succ, days_before_month_12.
    change (days_before_month (year t + 1) 1) with 0%Z.
    change (days_in_month (year t) 12) with 31%Z. lia.
Qed.

Lemma coordinate_is_monthly_cons (a b : timestamp) (l : list timestamp) :
  coordinate_is_monthly (a :: b :: l)
  = ((28 <=? timedelta_days (to_ns b - to_ns a))%Z
     && (timedelta_days (to_ns b - to_ns a) <=? 31)%Z)
    && coordinate_is_monthly (b :: l).
Proof. reflexivity. Qed.

Lemma timedelta_days_whole (k : Z) : timedelta_days (k * ns_per_day) = k.
Proof. unfold timedelta_days. apply Z.div_mul. discriminate. Qed.

Lemma month_step_days (d ns : Z) (t : timestamp) :
  (1 <= month t <= 12)%Z ->
  timedelta_days (to_ns (stamp d ns (next_month t)) - to_ns (stamp d ns t)) = dim t.
Proof.
  intros Hm. unfold to_ns. rewrite toordinal_next_month by exact Hm.
  cbn [nanos stamp].
  replace ((toordinal (stamp d ns t) + dim t) * ns_per_day + ns
           - (toordinal (stamp d ns t) * ns_per_day + ns))%Z
    with (dim t * ns_per_day)%Z by ring.
  apply timedelta_days_whole.
Qed.

Lemma monthly_stamps_are_monthly (d ns : Z) (n : nat) (t : timestamp) :
  is_month_start t ->
  coordinate_is_monthly (map (stamp d ns) (months_from n t)) = true.
Proof.
  revert t. induction n as [|n IH]; intros t Ht; [reflexivity|].
  destruct n as [|n]; [reflexivity|].
  specialize (IH (next_month t) (next_month_start Ht)).
  cbn [months_from map] in *.
  rewrite coordinate_is_monthly_cons, IH, andb_true_r.
  rewrite month_step_days by apply Ht.
  pose proof (days_in_month_bounds (year t) (month t)) as Hb. unfold dim.
  apply andb_true_iff. split; apply Z.leb_le; lia.
Qed.

Lemma month_start_stamp (d ns : Z) (n : nat) (t : timestamp) :
  is_month_start t ->
  map month_start (map (stamp d ns) (months_from n t)) = months_from n t.
Proof.
  revert t. induction n as [|n IH]; intros t Ht; [reflexivity|].
  cbn [months_from map]. rewrite (IH _ (next_month_start Ht)). f_equal.
  destruct Ht as (_ & Hd & Hn). destruct t as [y m d0 ns0]. simpl in *.
  unfold month_start, stamp. simpl. now subst.
Qed.

(** ** What [streamlined] returns *)

Lemma streamlined_cases (d : DataArray) :
  let d1 := sortby_lon (sortby_lat (canonical_names (snap_time d))) in
  (lon d = [] /\ streamlined d = Err ValueError)
  \/ (lon d <> [] /\ needs_wrap (lon d1) = true
      /\ streamlined d = Ok (sortby_lon (set_lon d1 (map wrap_lon (lon d1)))))
  \/ (lon d <> [] /\ needs_wrap (lon d1) = false /\ streamlined d = Ok d1).
Proof.
  cbv zeta. unfold streamlined.
  set (d1 := sortby_lon (sortby_lat (canonical_names (snap_time d)))).
  assert (Hlen : length (lon d1) = length (lon d)).
  { unfold d1. rewrite lon_sorted_first, length_isel. apply length_argsort. }
  destruct (lon d1) as [|x xs] eqn:E1.
  - left. split; [|reflexivity]. now apply length_zero_iff_nil.
  - assert (Hne : lon d <> []).
    { intros H0. rewrite H0 in Hlen. discriminate. }
    destruct (needs_wrap (x :: xs)) eqn:En; [right; left | right; right]; auto.
Qed.

Lemma streamlined_time (d d' : DataArray) :
  streamlined d = Ok d' -> time d' = time (snap_time d).
Proof.
  destruct (streamlined_cases d) as [[_ H]|[(_ & _ & H)|(_ & _ & H)]];
    rewrite H; intros E; inversion E; reflexivity.
Qed.

Lemma streamlined_lat (d d' : DataArray) :
  streamlined d = Ok d' -> lat d' = isel 0 (argsort (lat d)) (lat d).
Proof.
  assert (Hs : lat (snap_time d) = lat d).
  { unfold snap_time. destruct (time d) as [t|]; [destruct (coordinate_is_monthly t)|];
      reflexivity. }
  destruct (streamlined_cases d) as [[_ H]|[(_ & _ & H)|(_ & _ & H)]];
    rewrite H; intros E; inversion E; simpl; now rewrite Hs.
Qed.

(** X1: a time axis of consecutive months, stamped on the same day of the
    month (at most the 28th) and at the same time of day, is recognised as
    monthly, and the returned field carries the first-of-month
    timestamps of these months. *)
Theorem monthly_axis_is_snapped (d0 ns0 : Z) (n : nat) (t0 : timestamp)
    (s : store) (l : loc) (d : DataArray) :
  is_month_start t0 ->
  (1 <= d0 <= 28)%Z -> (0 <= ns0 < ns_per_day)%Z ->
  nth_error s l = Some d ->
  time d = Some (map (stamp d0 ns0) (months_from n t0)) ->
  lon d <> [] ->
  coordinate_is_monthly (map (stamp d0 ns0) (months_from n t0)) = true
  /\ exists l' s' d',
       streamline_coords l s = Ok (l', s')
       /\ nth_error s' l' = Some d'
       /\ time d' = Some (months_from n t0).
Proof.
  intros Ht _ _ Hl Htime Hne.
  pose proof (monthly_stamps_are_monthly d0 ns0 n Ht) as Hm.
  split; [exact Hm|].
  destruct (streamlined_cases d) as [[H0 _]|[(_ & _ & H)|(_ & _ & H)]];
    [contradiction| |];
    destruct (streamline_coords_ok s l Hl H) as (l' & s' & Hrun & Hres & _);
    eexists l', s', _; (split; [exact Hrun|]); (split; [exact Hres|]);
    rewrite (streamlined_time d H); unfold snap_time; rewrite Htime, Hm;
    simpl; now rewrite (month_start_stamp d0 ns0 n Ht).
Qed.

Lemma monthly_axis_is_snapped_witness :
  coordinate_is_monthly (map (stamp 16 0) (months_from 3 (mkTime 2000 1 1 0))) = true
  /\ exists l' s' d',
       streamline_coords 0%nat
         [set_time mid_month_field
            (map (stamp 16 0) (months_from 3 (mkTime 2000 1 1 0)))]
       = Ok (l', s')
       /\ nth_error s' l' = Some d'
       /\ time d' = Some (months_from 3 (mkTime 2000 1 1 0)).
Proof.
  apply (@monthly_axis_is_snapped 16 0 3 (mkTime 2000 1 1 0)
           [set_time mid_month_field
              (map (stamp 16 0) (months_from 3 (mkTime 2000 1 1 0)))]
           0%nat
           (set_time mid_month_field
              (map (stamp 16 0) (months_from 3 (mkTime 2000 1 1 0))))).
  - unfold is_month_start. simpl. lia.
  - lia.
  - unfold ns_per_day. lia.
  - reflexivity.
  - reflexivity.
  - discriminate.
Defined.

Lemma next_day_valid (t : timestamp) : valid_date t -> valid_date (next_day t).
Proof.
  intros [Hm Hd]. unfold next_day, valid_date.
  destruct (day t <? days_in_month (year t) (month t))%Z eqn:E1;
    [|destruct (month t <? 12)%Z eqn:E2]; cbn [year month day nanos].
  - apply Z.ltb_lt in E1. split; lia.
  - apply Z.ltb_lt in E2.
    pose proof (days_in_month_bounds (year t) (month t + 1)). split; lia.
  - pose proof (days_in_month_bounds (year t + 1) 1). split; lia.
Qed.

Lemma toordinal_next_day (t : timestamp) :
  valid_date t -> toordinal (next_day t) = (toordinal t + 1)%Z.
Proof.
  intros [Hm Hd]. unfold next_day, toordinal.
  destruct (day t <? days_in_month (year t) (month t))%Z eqn:E1;
    [|destruct (month t <? 12)%Z eqn:E2]; cbn [year month day nanos].
  - lia.
  - apply Z.ltb_ge in E1. rewrite days_before_month_succ by lia. lia.
  - apply Z.ltb_ge in E1. apply Z.ltb_ge in E2.
    assert (E : month t = 12%Z) by lia. rewrite E in *.
    rewrite days_before_year_succ, days_before_month_12.
    change (days_before_month (year t + 1) 1) with 0%Z.
    change (days_in_month (year t) 12) with 31%Z in *. lia.
Qed.

Lemma daily_axis_not_monthly (n : nat) (t : timestamp) :
  valid_date t -> coordinate_is_monthly (days_from (S (S n)) t) = false.
Proof.
  intros Hv. cbn [days_from]. rewrite coordinate_is_monthly_cons.
  assert (E : timedelta_days (to_ns (next_day t) - to_ns t) = 1%Z).
  { unfold to_ns. rewrite toordinal_next_day by exact Hv.
    replace (nanos (next_day t)) with (nanos t).
    - replace ((toordinal t + 1) * ns_per_day + nanos t
               - (toordinal t * ns_per_day + nanos t))%Z
        with (1 * ns_per_day)%Z by ring.
      apply timedelta_days_whole.
    - unfold next_day.
      destruct (day t <? _)%Z; [|destruct (month t <? 12)%Z]; reflexivity. }
  rewrite E. reflexivity.
Qed.

(** X2: a daily time axis (two or more consecutive days) is not monthly, so
    [streamline_coords] leaves it as it is, in the field it returns and in
    the field it was given. *)
Theorem daily_axis_is_untouched (n : nat) (t : timestamp)
    (s : store) (l : loc) (d : DataArray) :
  valid_date t ->
  nth_error s l = Some d ->
  time d = Some (days_from (S (S n)) t) ->
  lon d <> [] ->
  coordinate_is_monthly (days_from (S (S n)) t) = false
  /\ exists l' s' d',
       streamline_coords l s = Ok (l', s')
       /\ nth_error s' l' = Some d'
       /\ time d' = time d
       /\ nth_error s' l = Some d.
Proof.
  intros Hv Hl Htime Hne.
  pose proof (daily_axis_not_monthly n Hv) as Hm.
  split; [exact Hm|].
  assert (Hsnap : snap_time d = d).
  { unfold snap_time. now rewrite Htime, Hm. }
  assert (Hok : exists d', streamlined d = Ok d').
  { destruct (streamlined_cases d) as [[H0 _]|[(_ & _ & H)|(_ & _ & H)]];
      [contradiction | eexists; exact H | eexists; exact H]. }
  destruct Hok as (d' & H).
  destruct (streamline_coords_ok s l Hl H) as (l' & s' & Hrun & Hres & _ & Hin & _).
  exists l', s', d'. split; [exact Hrun|]. split; [exact Hres|].
  rewrite (streamlined_time d H), Hsnap. rewrite Hsnap in Hin.
  split; [reflexivity | exact Hin].
Qed.

Lemma daily_axis_is_untouched_witness :
  coordinate_is_monthly (days_from 3 (mkTime 2022 12 30 0)) = false
  /\ exists l' s' d',
       streamline_coords 0%nat
         [set_time mid_month_field (days_from 3 (mkTime 2022 12 30 0))]
       = Ok (l', s')
       /\ nth_error s' l' = Some d'
       /\ time d' = Some (days_from 3 (mkTime 2022 12 30 0))
       /\ nth_error s' 0%nat
          = Some (set_time mid_month_field (days_from 3 (mkTime 2022 12 30 0))).
Proof.
  apply (@daily_axis_is_untouched 1 (mkTime 2022 12 30 0)
           [set_time mid_month_field (days_from 3 (mkTime 2022 12 30 0))]
           0%nat
           (set_time mid_month_field (days_from 3 (mkTime 2022 12 30 0)))).
  - unfold valid_date, days_in_month. simpl. lia.
  - reflexivity.
  - reflexivity.
  - discriminate.
Defined.

(* ===================================================================== *)
(** * Further properties: coordinate normaliser *)
(* ===================================================================== *)

(** X3: [streamline_coords] raises exactly on a field whose longitude axis
    is empty (the minimum of an empty axis), with a [ValueError]; on every
    other field it returns. *)
Theorem streamline_coords_empty_longitude (s : store) (l : loc) (d : DataArray) :
  nth_error s l = Some d ->
  (lon d = [] -> streamline_coords l s = Err ValueError)
  /\ (lon d <> [] -> exists l' s', streamline_coords l s = Ok (l', s')).
Proof.
  intros Hl. pose proof (streamline_coords_run s l Hl) as Hrun.
  destruct (streamlined_cases d) as [[H0 H]|[(Hne & _ & H)|(Hne & _ & H)]];
    rewrite H in Hrun; split; intros Hd; try contradiction.
  - destruct (streamline_coords l s) as [[l' s']|e]; [contradiction | now subst].
  - destruct (streamline_coords l s) as [[l' s']|e]; [eauto | contradiction].
  - destruct (streamline_coords l s) as [[l' s']|e]; [eauto | contradiction].
Qed.

Lemma streamline_coords_empty_longitude_witness :
  streamline_coords 0%nat [set_lon mid_month_field []] = Err ValueError.
Proof.
  apply (@streamline_coords_empty_longitude [set_lon mid_month_field []] 0%nat
           (set_lon mid_month_field []) eq_refl).
  reflexivity.
Defined.

(** X4: [(lon + 180) % 360 - 180] is the one longitude of [-180, 180) that
    differs from [lon] by a whole number of turns; so a longitude already
    in [-180, 180) is mapped to itself. *)
Theorem wrap_lon_canonical (x : Q) :
  in_lon_range (wrap_lon x)
  /\ (exists k : Z, wrap_lon x == x - 360 * inject_Z k)
  /\ (forall y (k : Z),
         in_lon_range y -> y == x - 360 * inject_Z k -> y == wrap_lon x)
  /\ (in_lon_range x -> wrap_lon x == x).
Proof.
  assert (Hk : exists k : Z, wrap_lon x == x - 360 * inject_Z k).
  { exists (Qfloor ((x + 180) / 360)). unfold wrap_lon, pymod. ring. }
  assert (Hu : forall y (k : Z),
             in_lon_range y -> y == x - 360 * inject_Z k -> y == wrap_lon x).
  { intros y k [Hy1 Hy2] Hy. destruct Hk as (k0 & Hk0).
    destruct (wrap_lon_range x) as [Hw1 Hw2].
    assert (Heq : (k = k0)%Z).
    { assert (H1 : inject_Z (k - k0) < inject_Z 1).
      { unfold Zminus. rewrite inject_Z_plus, inject_Z_opp.
        change (inject_Z 1) with 1. lra. }
      assert (H2 : inject_Z (-1) < inject_Z (k - k0)).
      { unfold Zminus. rewrite inject_Z_plus, inject_Z_opp.
        change (inject_Z (-1)) with (-1). lra. }
      rewrite <- Zlt_Qlt in H1, H2. lia. }
    subst k0. rewrite Hy, Hk0. reflexivity. }
  split; [apply wrap_lon_range|]. split; [exact Hk|]. split; [exact Hu|].
  intros Hx. symmetry. apply (Hu x 0%Z Hx). change (inject_Z 0) with 0. ring.
Qed.

Lemma argsort_perm (l : list Q) : Permutation (argsort l) (seq 0 (length l)).
Proof.
  unfold argsort. rewrite <- (map_snd_combine_seq l 0) at 2.
  apply Permutation_map, sort_keys_perm.
Qed.

Lemma perm_seq_lt (p : list nat) (n : nat) :
  Permutation p (seq 0 n) -> forall i, In i p -> (i < n)%nat.
Proof.
  intros Hp i Hi. apply (Permutation_in _ Hp) in Hi. apply in_seq in Hi. lia.
Qed.

Lemma isel_perm {A : Type} (d : A) (p : list nat) (xs : list A) :
  Permutation p (seq 0 (length xs)) -> Permutation (isel d p xs) xs.
Proof.
  intros Hp. rewrite <- (isel_id d xs) at 2. unfold isel.
  now apply Permutation_map.
Qed.

Lemma nth_map_lt {A B : Type} (f : A -> B) (l : list A) (i : nat) (d : A) (d' : B) :
  (i < length l)%nat -> nth i (map f l) d' = f (nth i l d).
Proof.
  intros Hi. rewrite (nth_indep _ d' (f d)) by now rewrite length_map.
  apply map_nth.
Qed.

Lemma isel_isel {A : Type} (d : A) (p q : list nat) (xs : list A) :
  (forall i, In i p -> (i < length q)%nat) ->
  isel d p (isel d q xs) = isel d (isel 0%nat p q) xs.
Proof.
  intros Hp. unfold isel. rewrite map_map. apply map_ext_in. intros i Hi.
  apply (@nth_map_lt _ _ (fun k => nth k xs d) q i 0%nat d). now apply Hp.
Qed.

(** X5: the field returned by [streamline_coords] is named by [lon] and
    [lat]; its latitudes are those of the input in ascending order; its
    longitudes are ascending and as many as in the input, and they are the
    input longitudes themselves when none lies outside [-180, 180]. *)
Theorem streamline_coords_sorted_axes (s : store) (l : loc) (d : DataArray) :
  nth_error s l = Some d ->
  lon d <> [] ->
  exists l' s' d',
    streamline_coords l s = Ok (l', s')
    /\ nth_error s' l' = Some d'
    /\ lon_name d' = Lon /\ lat_name d' = Lat
    /\ ascending (lat d') /\ Permutation (lat d') (lat d)
    /\ ascending (lon d') /\ length (lon d') = length (lon d)
    /\ (Forall (fun x => -180 <= x /\ x <= 180) (lon d) ->
        Permutation (lon d') (lon d)).
Proof.
  intros Hl Hne.
  assert (Hl1 : Permutation
                  (lon (sortby_lon (sortby_lat (canonical_names (snap_time d)))))
                  (lon d)).
  { rewrite lon_sorted_first. apply isel_argsort_perm. }
  destruct (streamlined_cases d) as [[H0 _]|[(_ & Hw & H)|(_ & Hw & H)]];
    [contradiction| |];
    destruct (streamline_coords_ok s l Hl H) as (l' & s' & Hrun & Hres & _);
    pose proof (streamlined_settled d H) as (S1 & S2 & S3 & S4 & _);
    pose proof (streamlined_lat d H) as Hlat;
    eexists l', s', _; (split; [exact Hrun|]); (split; [exact Hres|]);
    (split; [exact S1|]); (split; [exact S2|]); (split; [exact S3|]);
    (split; [rewrite Hlat; apply isel_argsort_perm|]);
    (split; [exact S4|]).
  - split.
    + simpl lon. rewrite length_isel, length_argsort, length_map.
      now apply Permutation_length.
    + intros Hin. exfalso.
      apply (Permutation_Forall (Permutation_sym Hl1)) in Hin.
      apply needs_wrap_false_iff in Hin. congruence.
  - split; [now apply Permutation_length | intros _; exact Hl1].
Qed.

Lemma streamline_coords_sorted_axes_witness :
  exists l' s' d',
    streamline_coords 0%nat [half_turn_field] = Ok (l', s')
    /\ nth_error s' l' = Some d'
    /\ lon_name d' = Lon /\ lat_name d' = Lat
    /\ ascending (lat d') /\ Permutation (lat d') (lat half_turn_field)
    /\ ascending (lon d') /\ length (lon d') = length (lon half_turn_field)
    /\ (Forall (fun x => -180 <= x /\ x <= 180) (lon half_turn_field) ->
        Permutation (lon d') (lon half_turn_field)).
Proof.
  apply (@streamline_coords_sorted_axes [half_turn_field] 0%nat half_turn_field).
  - reflexivity.
  - discriminate.
Defined.

(** X6: sorting moves the data with the coordinates.  The returned field is
    the input re-indexed by one rearrangement [p] of its latitude
    positions and one rearrangement [q] of its longitude positions: the
    latitudes, the longitudes (remapped or not) and every slab of the data
    are indexed by the same [p] and [q]. *)
Theorem streamline_coords_moves_data (s : store) (l : loc) (d : DataArray) :
  nth_error s l = Some d ->
  lon d <> [] ->
  exists l' s' d' p q,
    streamline_coords l s = Ok (l', s')
    /\ nth_error s' l' = Some d'
    /\ Permutation p (seq 0 (length (lat d)))
    /\ Permutation q (seq 0 (length (lon d)))
    /\ lat d' = isel 0 p (lat d)
    /\ (lon d' = isel 0 q (lon d) \/ lon d' = isel 0 q (map wrap_lon (lon d)))
    /\ values d'
       = map (fun slab => map (isel None q) (isel [] p slab)) (values d).
Proof.
  intros Hl Hne.
  set (p := argsort (lat d)). set (q1 := argsort (lon d)).
  assert (Hv : values (snap_time d) = values d /\ lat (snap_time d) = lat d
               /\ lon (snap_time d) = lon d).
  { unfold snap_time.
    destruct (time d) as [t|]; [destruct (coordinate_is_monthly t)|]; auto. }
  destruct Hv as (Hv & Hla & Hlo).
  set (d1 := sortby_lon (sortby_lat (canonical_names (snap_time d)))).
  assert (E1 : lat d1 = isel 0 p (lat d)) by (simpl; now rewrite Hla).
  assert (E2 : lon d1 = isel 0 q1 (lon d)) by (simpl; now rewrite Hlo).
  assert (E3 : values d1
               = map (fun slab => map (isel None q1) (isel [] p slab)) (values d)).
  { simpl. rewrite Hv, Hla, Hlo, map_map. reflexivity. }
  assert (Hp : Permutation p (seq 0 (length (lat d)))) by apply argsort_perm.
  assert (Hq1 : Permutation q1 (seq 0 (length (lon d)))) by apply argsort_perm.
  destruct (streamlined_cases d) as [[H0 _]|[(_ & Hw & H)|(_ & Hw & H)]];
    [contradiction| |]; fold d1 in H, Hw;
    destruct (streamline_coords_ok s l Hl H) as (l' & s' & Hrun & Hres & _).
  - set (W := map wrap_lon (lon d1)) in *.
    set (q2 := argsort W).
    assert (Hq2 : Permutation q2 (seq 0 (length q1))).
    { unfold q2. replace (length q1) with (length W); [apply argsort_perm|].
      unfold W. rewrite length_map, E2. apply length_isel. }
    assert (Hlt2 : forall i, In i q2 -> (i < length q1)%nat)
      by (apply perm_seq_lt; exact Hq2).
    assert (Hlt1 : forall k, In k q1 -> (k < length (lon d))%nat)
      by (apply perm_seq_lt; exact Hq1).
    exists l', s', (sortby_lon (set_lon d1 W)), p, (isel 0%nat q2 q1).
    split; [exact Hrun|]. split; [exact Hres|]. split; [exact Hp|].
    split; [eapply perm_trans; [apply isel_perm; exact Hq2 | exact Hq1]|].
    split; [exact E1|]. split.
    + right. change (lon (sortby_lon (set_lon d1 W))) with (isel 0 q2 W).
      unfold W. rewrite E2. unfold isel. rewrite !map_map.
      apply map_ext_in. intros i Hi.
      rewrite (@nth_map_lt _ _ (fun k => wrap_lon (nth k (lon d) 0)) q1 i 0%nat 0)
        by now apply Hlt2.
      symmetry. apply (@nth_map_lt _ _ wrap_lon (lon d) _ 0 0). apply Hlt1.
      apply nth_In. now apply Hlt2.
    + change (values (sortby_lon (set_lon d1 W)))
        with (map (map (isel None q2)) (values d1)).
      rewrite E3, map_map. apply map_ext. intros slab.
      rewrite map_map. apply map_ext. intros row.
      now apply isel_isel.
  - exists l', s', d1, p, q1.
    split; [exact Hrun|]. split; [exact Hres|]. split; [exact Hp|].
    split; [exact Hq1|]. split; [exact E1|]. split; [left; exact E2 | exact E3].
Qed.

Lemma streamline_coords_moves_data_witness :
  exists l' s' d' p q,
    streamline_coords 0%nat [mid_month_field] = Ok (l', s')
    /\ nth_error s' l' = Some d'
    /\ Permutation p (seq 0 (length (lat mid_month_field)))
    /\ Permutation q (seq 0 (length (lon mid_month_field)))
    /\ lat d' = isel 0 p (lat mid_month_field)
    /\ (lon d' = isel 0 q (lon mid_month_field)
        \/ lon d' = isel 0 q (map wrap_lon (lon mid_month_field)))
    /\ values d'
       = map (fun slab => map (isel None q) (isel [] p slab))
             (values mid_month_field).
Proof.
  apply (@streamline_coords_moves_data [mid_month_field] 0%nat mid_month_field).
  - reflexivity.
  - discriminate.
Defined.

(* ===================================================================== *)
(** * Further properties: spatial aggregator *)
(* ===================================================================== *)

Lemma isel_slice_filter (lo hi : Q) (pre l : list Q) :
  isel 0
    (filter (fun i => in_slice lo hi (nth i (pre ++ l) 0))
            (seq (length pre) (length l)))
    (pre ++ l)
  = filter (in_slice lo hi) l.
Proof.
  revert pre. induction l as [|x l IH]; intros pre; [reflexivity|].
  cbn [length seq filter].
  specialize (IH (pre ++ [x])).
  rewrite length_app, Nat.add_comm in IH. cbn [length Nat.add] in IH.
  rewrite <- app_assoc in IH. cbn [app] in IH.
  assert (E : nth (length pre) (pre ++ x :: l) 0 = x).
  { rewrite app_nth2 by lia. now rewrite Nat.sub_diag. }
  rewrite E. destruct (in_slice lo hi x).
  - unfold isel in *. cbn [map]. rewrite E, IH. reflexivity.
  - exact IH.
Qed.

(** Selecting a region keeps the latitudes and the longitudes of the
    field that lie within the bounds of the region, in their order; and
    the data keeps one row per latitude kept and one cell per longitude
    kept. *)
Lemma sel_region_inclusive (region : Region) (d : DataArray) :
  lat (sel_region region d)
  = filter (in_slice (lat_lo region) (lat_hi region)) (lat d)
  /\ lon (sel_region region d)
     = filter (in_slice (lon_lo region) (lon_hi region)) (lon d)
  /\ well_shaped (sel_region region d)
  /\ length (values (sel_region region d)) = length (values d).
Proof.
  split; [|split; [|split]].
  - apply (isel_slice_filter (lat_lo region) (lat_hi region) [] (lat d)).
  - apply (isel_slice_filter (lon_lo region) (lon_hi region) [] (lon d)).
  - unfold well_shaped. apply Forall_forall. intros slab Hin. split.
    + simpl in Hin. apply in_map_iff in Hin. destruct Hin as (s0 & <- & _).
      unfold sel_grid. simpl. now rewrite length_map, !length_isel.
    + now apply sel_region_rows.
  - simpl. apply length_map.
Qed.

Lemma zip_grid_empty_rows (slab : list (list (option Q))) (W : list (list Q)) :
  Forall (fun row => row = []) slab -> zip_grid slab W = [].
Proof.
  unfold zip_grid. intros H. revert W.
  induction H as [|row slab Hr _ IH]; intros [|w W]; simpl; try reflexivity.
  subst row. simpl. apply IH.
Qed.

(** X7: over a region that holds no latitude or no longitude of the field,
    the spatial average is "no data" at every time step. *)
Theorem weighted_spatial_average_empty_region (cos_deg : Q -> Q)
    (da : DataArray) (region : Region)
    (land_mask : option (list (list (option Q)))) :
  filter (in_slice (lat_lo region) (lat_hi region)) (lat da) = []
  \/ filter (in_slice (lon_lo region) (lon_hi region)) (lon da) = [] ->
  weighted_spatial_average cos_deg da region land_mask
  = map (fun _ => None) (values da).
Proof.
  intros H. unfold weighted_spatial_average.
  destruct (sel_region_inclusive region da) as (Hla & Hlo & Hw & _).
  change (values (sel_region region da))
    with (map (sel_grid None region (lat da) (lon da)) (values da)).
  rewrite map_map. apply map_ext. intros slab0.
  rewrite zip_grid_empty_rows; [reflexivity|].
  unfold sel_grid. apply Forall_forall. intros row Hr.
  apply in_map_iff in Hr. destruct Hr as (r0 & <- & Hr0).
  destruct H as [H|H].
  - exfalso. simpl in Hla. rewrite H in Hla.
    apply (f_equal (@length Q)) in Hla. rewrite length_isel in Hla.
    apply length_zero_iff_nil in Hla. rewrite Hla in Hr0. exact Hr0.
  - simpl in Hlo. rewrite H in Hlo.
    apply (f_equal (@length Q)) in Hlo. rewrite length_isel in Hlo.
    apply length_zero_iff_nil in Hlo. now rewrite Hlo.
Qed.

Lemma weighted_spatial_average_empty_region_witness :
  weighted_spatial_average cos_deg_rational mid_month_field REGION_Arctic None
  = [None; None].
Proof.
  apply (@weighted_spatial_average_empty_region cos_deg_rational
           mid_month_field REGION_Arctic None).
  left. reflexivity.
Defined.

(** ** The weighted mean as an average *)

Lemma weighted_mean_bounds (cells : list (option Q * Q)) (lo hi r : Q) :
  Forall (fun c => 0 <= snd c) cells ->
  (forall v w, In (Some v, w) cells -> lo <= v /\ v <= hi) ->
  weighted_mean cells = Some r ->
  lo <= r /\ r <= hi.
Proof.
  intros Hw Hv Hr. unfold weighted_mean, where_nonzero in Hr.
  set (WS := dot (map fillna0 (map fst cells)) (map snd cells)) in *.
  set (SW := dot (map notnull (map fst cells)) (map snd cells)) in *.
  assert (H : 0 <= SW /\ lo * SW <= WS /\ WS <= hi * SW).
  { subst WS SW. unfold dot. clear Hr.
    induction cells as [|[[v|] w] cells IH]; simpl.
    - split; [apply Qle_refl | split; lra].
    - inversion Hw as [|? ? Hw0 Hw']; subst. simpl in Hw0.
      destruct (Hv v w (or_introl eq_refl)) as [Hlo Hhi].
      assert (Hv' : forall v' w', In (Some v', w') cells -> lo <= v' /\ v' <= hi)
        by (intros v' w' Hin; apply (Hv v' w'); now right).
      destruct (IH Hw' Hv') as (I0 & I1 & I2).
      assert (lo * w <= v * w) by (apply Qmult_le_compat_r; assumption).
      assert (v * w <= hi * w) by (apply Qmult_le_compat_r; assumption).
      split; [lra | split; lra].
    - inversion Hw as [|? ? Hw0 Hw']; subst.
      assert (Hv' : forall v' w', In (Some v', w') cells -> lo <= v' /\ v' <= hi)
        by (intros v' w' Hin; apply (Hv v' w'); now right).
      destruct (IH Hw' Hv') as (I0 & I1 & I2).
      split; [lra | split; lra]. }
  destruct H as (H0 & H1 & H2).
  destruct (Qeq_bool SW 0) eqn:E; simpl in Hr; [discriminate|].
  injection Hr as <-.
  assert (Hpos : 0 < SW).
  { apply Qeq_bool_neq in E. apply Qle_lteq in H0. destruct H0 as [H0|H0]; [exact H0|].
    exfalso. apply E. symmetry. exact H0. }
  split.
  - apply Qle_shift_div_l; assumption.
  - apply Qle_shift_div_r; assumption.
Qed.

Lemma isel_In {A : Type} (d : A) (idx : list nat) (l : list A) (x : A) :
  In x (isel d idx l) -> x = d \/ In x l.
Proof.
  unfold isel. intros H. apply in_map_iff in H. destruct H as (i & <- & _).
  destruct (nth_in_or_default i l d) as [H|H]; [now right | now left].
Qed.

Lemma zip_grid_In (slab : list (list (option Q))) (W : list (list Q))
    (v : option Q) (w : Q) :
  In (v, w) (zip_grid slab W) ->
  exists row wrow, In row slab /\ In wrow W /\ In v row /\ In w wrow.
Proof.
  unfold zip_grid. intros H. apply in_concat in H.
  destruct H as (cs & Hcs & Hin). apply in_map_iff in Hcs.
  destruct Hcs as ([row wrow] & <- & Hrw). simpl in Hin.
  exists row, wrow.
  split; [eapply in_combine_l; eauto|]. split; [eapply in_combine_r; eauto|].
  split; [eapply in_combine_l; eauto | eapply in_combine_r; eauto].
Qed.

Lemma sel_grid_In {A : Type} (d : A) (region : Region) (lats lons : list Q)
    (g : list (list A)) (row : list A) (x : A) :
  In row (sel_grid d region lats lons g) -> In x row ->
  x = d \/ exists row0, In row0 g /\ In x row0.
Proof.
  unfold sel_grid. intros Hrow Hx. apply in_map_iff in Hrow.
  destruct Hrow as (r0 & <- & Hr0).
  apply isel_In in Hx. destruct Hx as [Hx|Hx]; [now left|].
  apply isel_In in Hr0. destruct Hr0 as [Hr0|Hr0].
  - subst r0. destruct Hx.
  - right. eauto.
Qed.

Lemma spatial_weights_nonneg (cos_deg : Q -> Q) (da : DataArray) (region : Region)
    (land_mask : option (list (list (option Q)))) :
  (forall la, In la (lat da) -> 0 <= cos_deg la) ->
  (forall m row v, land_mask = Some m -> In row m -> In (Some v) row -> 0 <= v) ->
  forall wrow w,
    In wrow (spatial_weights cos_deg (sel_region region da) region land_mask
               (lat da) (lon da)) ->
    In w wrow -> 0 <= w.
Proof.
  intros Hcos Hmask wrow w Hrow Hw.
  assert (Hlat : forall la, In la (lat (sel_region region da)) -> 0 <= cos_deg la).
  { intros la Hla. destruct (sel_region_inclusive region da) as (E & _).
    rewrite E in Hla. apply filter_In in Hla. now apply Hcos. }
  unfold spatial_weights in Hrow. destruct land_mask as [m|].
  - apply in_map_iff in Hrow. destruct Hrow as ([c mrow] & <- & Hc).
    simpl in Hw. apply in_map_iff in Hw. destruct Hw as (mv & <- & Hmv).
    assert (Hc0 : 0 <= c).
    { apply in_combine_l in Hc. apply in_map_iff in Hc.
      destruct Hc as (la & <- & Hla). now apply Hlat. }
    apply in_combine_r in Hc.
    destruct (sel_grid_In _ _ _ _ _ _ _ Hc Hmv) as [->|(row0 & Hr0 & Hin)].
    + simpl. lra.
    + destruct mv as [v|]; simpl; [|lra].
      apply Qmult_le_0_compat; [exact Hc0|].
      exact (Hmask m row0 v eq_refl Hr0 Hin).
  - apply in_map_iff in Hrow. destruct Hrow as (c & <- & Hc).
    apply repeat_spec in Hw. subst w.
    apply in_map_iff in Hc. destruct Hc as (la & <- & Hla). now apply Hlat.
Qed.

(** X8: with weights that are not negative (the cosine of a latitude between
    the poles, a land mask between 0 and 1), every spatial average lies
    between the smallest and the largest value of the field. *)
Theorem weighted_spatial_average_within_range (cos_deg : Q -> Q)
    (da : DataArray) (region : Region)
    (land_mask : option (list (list (option Q)))) (lo hi : Q) :
  (forall la, In la (lat da) -> 0 <= cos_deg la) ->
  (forall m row v, land_mask = Some m -> In row m -> In (Some v) row -> 0 <= v) ->
  (forall slab row v,
      In slab (values da) -> In row slab -> In (Some v) row -> lo <= v /\ v <= hi) ->
  forall r,
    In (Some r) (weighted_spatial_average cos_deg da region land_mask) ->
    lo <= r /\ r <= hi.
Proof.
  intros Hcos Hmask Hval r Hr. unfold weighted_spatial_average in Hr.
  apply in_map_iff in Hr. destruct Hr as (slab & Hmean & Hslab).
  apply (weighted_mean_bounds (cells := zip_grid slab
           (spatial_weights cos_deg (sel_region region da) region land_mask
              (lat da) (lon da)))); [| |exact Hmean].
  - apply Forall_forall. intros [v w] Hin. simpl.
    destruct (zip_grid_In _ _ _ _ Hin) as (row & wrow & _ & Hwrow & _ & Hw).
    eapply spatial_weights_nonneg; eauto.
  - intros v w Hin.
    destruct (zip_grid_In _ _ _ _ Hin) as (row & wrow & Hrow & _ & Hv & _).
    simpl in Hslab. apply in_map_iff in Hslab.
    destruct Hslab as (slab0 & <- & Hs0).
    destruct (sel_grid_In _ _ _ _ _ _ _ Hrow Hv) as [E|(row0 & Hr0 & Hin0)];
      [discriminate|].
    exact (Hval slab0 row0 v Hs0 Hr0 Hin0).
Qed.

Lemma weighted_spatial_average_within_range_witness :
  In (Some (12 # 6))
     (weighted_spatial_average cos_deg_rational two_latitude_field
        REGION_Global None)
  /\ 0 <= 12 # 6 /\ 12 # 6 <= 3.
Proof.
  assert (Hin : In (Some (12 # 6))
                   (weighted_spatial_average cos_deg_rational two_latitude_field
                      REGION_Global None))
    by (vm_compute; left; reflexivity).
  split; [exact Hin|].
  apply (@weighted_spatial_average_within_range cos_deg_rational
           two_latitude_field REGION_Global None 0 3).
  - intros la [<-|[<-|[]]]; discriminate.
  - discriminate.
  - intros slab row v [<-|[]] [<-|[<-|[]]] [E|[]]; injection E as <-;
      split; discriminate.
  - exact Hin.
Defined.

Lemma weighted_mean_uniform (cells : list (option Q * Q)) (c : Q) :
  ~ c == 0 -> cells <> [] ->
  (forall cell, In cell cells -> fst cell <> None /\ snd cell == c) ->
  exists r,
    weighted_mean cells = Some r
    /\ r == Qsum (map fillna0 (map fst cells))
            / inject_Z (Z.of_nat (length cells)).
Proof.
  intros Hc Hne Hall.
  assert (H : dot (map fillna0 (map fst cells)) (map snd cells)
              == c * Qsum (map fillna0 (map fst cells))
              /\ dot (map notnull (map fst cells)) (map snd cells)
                 == c * inject_Z (Z.of_nat (length cells))).
  { unfold dot. clear Hne. induction cells as [|[v w] cells IH].
    - simpl. split; ring.
    - destruct (Hall (v, w) (or_introl eq_refl)) as [Hv Hw]. simpl in Hv, Hw.
      destruct IH as [I1 I2]; [intros cell Hin; apply Hall; now right|].
      cbn [map fst snd combine Qsum fold_right length] in *.
      change (fold_right Qplus 0) with Qsum in *.
      rewrite Nat2Z.inj_succ, <- Z.add_1_r, inject_Z_plus.
      change (inject_Z 1) with 1.
      destruct v as [v|]; [|congruence]. simpl fillna0. simpl notnull.
      rewrite I1, I2, Hw. split; ring. }
  destruct H as [H1 H2].
  assert (Hn : 0 < inject_Z (Z.of_nat (length cells))).
  { rewrite <- (Zlt_Qlt 0). destruct cells; [congruence | simpl length; lia]. }
  unfold weighted_mean, where_nonzero.
  destruct (Qeq_bool (dot (map notnull (map fst cells)) (map snd cells)) 0) eqn:E.
  - exfalso. apply Qeq_bool_iff in E. rewrite H2 in E.
    apply Qmult_integral in E. destruct E as [E|E]; [contradiction|].
    rewrite E in Hn. exact (Qlt_irrefl _ Hn).
  - eexists. split; [reflexivity|]. rewrite H1, H2. field. split; [lra|exact Hc].
Qed.

Lemma cells_by_latitude_fst (weight : Q -> Q) (lats : list Q)
    (slab : list (list (option Q))) :
  length lats = length slab ->
  map fst (cells_by_latitude weight lats slab) = concat slab.
Proof.
  unfold cells_by_latitude. revert slab.
  induction lats as [|la lats IH]; intros [|row slab] Hlen; simpl in *;
    try reflexivity; try discriminate.
  rewrite map_app, map_map, map_id, IH by lia. reflexivity.
Qed.

Lemma cells_by_latitude_snd (weight : Q -> Q) (lats : list Q)
    (slab : list (list (option Q))) (cell : option Q * Q) :
  In cell (cells_by_latitude weight lats slab) ->
  exists la, In la lats /\ snd cell = weight la.
Proof.
  unfold cells_by_latitude. intros H. apply in_flat_map in H.
  destruct H as ([la row] & Hin & Hc). apply in_map_iff in Hc.
  destruct Hc as (v & <- & _). exists la. split; [|reflexivity].
  eapply in_combine_l; eauto.
Qed.

(** X9: when no value is missing and every latitude of the region has the
    same non-zero area weight, the spatial average without land mask is
    the arithmetic mean of the values of the region. *)
Theorem weighted_spatial_average_equal_weights (cos_deg : Q -> Q)
    (da : DataArray) (region : Region) (c : Q)
    (k : nat) (slab : list (list (option Q))) :
  ~ c == 0 ->
  (forall la, In la (lat (sel_region region da)) -> cos_deg la == c) ->
  nth_error (values (sel_region region da)) k = Some slab ->
  concat slab <> [] ->
  Forall (fun v => v <> None) (concat slab) ->
  exists r,
    nth_error (weighted_spatial_average cos_deg da region None) k = Some (Some r)
    /\ r == Qsum (map fillna0 (concat slab))
            / inject_Z (Z.of_nat (length (concat slab))).
Proof.
  intros Hc Hcos Hk Hne Hdef.
  assert (Hin : In slab (values (sel_region region da)))
    by (eapply nth_error_In; eauto).
  destruct (sel_region_inclusive region da) as (_ & _ & Hw & _).
  unfold well_shaped in Hw. rewrite Forall_forall in Hw.
  destruct (Hw slab Hin) as [Hrows Hcols].
  unfold weighted_spatial_average. rewrite nth_error_map, Hk. cbn [option_map].
  unfold spatial_weights.
  rewrite (zip_grid_by_latitude cos_deg _ Hcols).
  set (cells := cells_by_latitude cos_deg (lat (sel_region region da)) slab).
  assert (Hfst : map fst cells = concat slab)
    by (apply cells_by_latitude_fst; now symmetry).
  destruct (@weighted_mean_uniform cells c Hc) as (r & Hr & Hrv).
  - intros E. rewrite E in Hfst. simpl in Hfst. now apply Hne.
  - intros cell Hcell. split.
    + rewrite Forall_forall in Hdef. apply Hdef. rewrite <- Hfst.
      now apply in_map.
    + destruct (cells_by_latitude_snd _ _ _ _ Hcell) as (la & Hla & ->).
      now apply Hcos.
  - exists r. rewrite Hr. split; [reflexivity|].
    rewrite Hrv, Hfst, <- (length_map fst cells), Hfst. reflexivity.
Qed.

Lemma weighted_spatial_average_equal_weights_witness :
  exists r,
    nth_error
      (weighted_spatial_average (fun _ => 985 # 1000) normal_field
         REGION_Global None) 0
    = Some (Some r)
    /\ r == Qsum (map fillna0
                    [Some 7; Some 8; Some 5; Some 6; Some 3; Some 4; Some 1; Some 2])
            / inject_Z (Z.of_nat 8).
Proof.
  apply (@weighted_spatial_average_equal_weights (fun _ => 985 # 1000)
           normal_field REGION_Global (985 # 1000) 0%nat
           [[Some 7; Some 8; Some 5; Some 6]; [Some 3; Some 4; Some 1; Some 2]]).
  - discriminate.
  - intros la _. reflexivity.
  - reflexivity.
  - discriminate.
  - repeat constructor; discriminate.
Defined.

Lemma isel_map {A B : Type} (f : A -> B) (d : A) (idx : list nat) (l : list A) :
  isel (f d) idx (map f l) = map f (isel d idx l).
Proof.
  unfold isel. rewrite map_map. apply map_ext. intros i. apply map_nth.
Qed.

Lemma sel_grid_map (f : option Q -> option Q) (region : Region)
    (lats lons : list Q) (g : list (list (option Q))) :
  f None = None ->
  sel_grid None region lats lons (map (map f) g)
  = map (map f) (sel_grid None region lats lons g).
Proof.
  intros Hf. unfold sel_grid.
  rewrite (isel_map (map f) [] _ g : isel [] _ (map (map f) g) = _).
  rewrite !map_map. apply map_ext. intros row.
  rewrite <- Hf at 1. apply isel_map.
Qed.

Lemma zip_grid_map (f : option Q -> option Q) (slab : list (list (option Q)))
    (W : list (list Q)) :
  zip_grid (map (map f) slab) W
  = map (fun c => (f (fst c), snd c)) (zip_grid slab W).
Proof.
  unfold zip_grid. revert W.
  induction slab as [|row slab IH]; intros [|w W]; simpl; try reflexivity.
  rewrite map_app, IH. f_equal.
  clear. revert w. induction row as [|v row IHr]; intros [|x w]; simpl;
    try reflexivity. now rewrite IHr.
Qed.

Lemma weighted_mean_affine (a b : Q) (cells : list (option Q * Q)) :
  oeq (weighted_mean
         (map (fun c => (option_map (fun v => a * v + b) (fst c), snd c)) cells))
      (option_map (fun r => a * r + b) (weighted_mean cells)).
Proof.
  set (cells' := map (fun c => (option_map (fun v => a * v + b) (fst c), snd c)) cells).
  assert (H : dot (map fillna0 (map fst cells')) (map snd cells')
              == a * dot (map fillna0 (map fst cells)) (map snd cells)
                 + b * dot (map notnull (map fst cells)) (map snd cells)
              /\ dot (map notnull (map fst cells')) (map snd cells')
                 == dot (map notnull (map fst cells)) (map snd cells)).
  { subst cells'. unfold dot. induction cells as [|[[v|] w] cells [I1 I2]]; simpl in *.
    - split; ring.
    - rewrite I1, I2. split; ring.
    - rewrite I1, I2. split; ring. }
  destruct H as [H1 H2].
  unfold weighted_mean, where_nonzero.
  rewrite (Qeqb_comp _ _ H2 0 0 (Qeq_refl 0)).
  destruct (Qeq_bool (dot (map notnull (map fst cells)) (map snd cells)) 0) eqn:E;
    simpl; [exact I|].
  apply Qeq_bool_neq in E. rewrite H1, H2. field. exact E.
Qed.

(** X10: an affine change of unit of the values (such as the conversion from
    Kelvin to Celsius) commutes with the spatial average: the average of
    the converted field is the converted average, and no data stays no
    data. *)
Theorem weighted_spatial_average_affine (cos_deg : Q -> Q) (a b : Q)
    (da : DataArray) (region : Region)
    (land_mask : option (list (list (option Q)))) :
  Forall2 oeq
    (weighted_spatial_average cos_deg (map_values (fun v => a * v + b) da)
       region land_mask)
    (map (option_map (fun r => a * r + b))
         (weighted_spatial_average cos_deg da region land_mask)).
Proof.
  unfold weighted_spatial_average.
  change (values (sel_region region (map_values (fun v => a * v + b) da)))
    with (map (sel_grid None region (lat da) (lon da))
              (map (map (map (option_map (fun v => a * v + b)))) (values da))).
  change (values (sel_region region da))
    with (map (sel_grid None region (lat da) (lon da)) (values da)).
  change (spatial_weights cos_deg
            (sel_region region (map_values (fun v => a * v + b) da)) region
            land_mask (lat (map_values (fun v => a * v + b) da))
            (lon (map_values (fun v => a * v + b) da)))
    with (spatial_weights cos_deg (sel_region region da) region land_mask
            (lat da) (lon da)).
  rewrite !map_map.
  induction (values da) as [|slab slabs IH]; simpl; constructor; [|exact IH].
  rewrite sel_grid_map by reflexivity. rewrite zip_grid_map.
  apply weighted_mean_affine.
Qed.

Lemma filter_all {A : Type} (f : A -> bool) (l : list A) :
  (forall x, In x l -> f x = true) -> filter f l = l.
Proof.
  induction l as [|x l IH]; intros H; simpl; [reflexivity|].
  rewrite (H x (or_introl eq_refl)), IH; [reflexivity|].
  intros y Hy. apply H. now right.
Qed.

Lemma slice_idx_all (lo hi : Q) (axis : list Q) :
  (forall x, In x axis -> in_slice lo hi x = true) ->
  slice_idx lo hi axis = seq 0 (length axis).
Proof.
  intros H. unfold slice_idx. apply filter_all. intros i Hi.
  apply H. apply nth_In. apply in_seq in Hi. lia.
Qed.

Lemma sel_region_all (region : Region) (d : DataArray) :
  well_shaped d ->
  (forall x, In x (lat d) -> in_slice (lat_lo region) (lat_hi region) x = true) ->
  (forall x, In x (lon d) -> in_slice (lon_lo region) (lon_hi region) x = true) ->
  sel_region region d = d.
Proof.
  intros Hw Hla Hlo. unfold sel_region, sel_grid.
  rewrite (slice_idx_all _ _ _ Hla), (slice_idx_all _ _ _ Hlo).
  destruct d as [t ln la a b v]; simpl in *. f_equal; try apply isel_id.
  unfold well_shaped in Hw. simpl in Hw. rewrite Forall_forall in Hw.
  rewrite <- (map_id v) at 2. apply map_ext_in. intros slab Hin.
  destruct (Hw slab Hin) as [Hs Hr]. rewrite <- Hs, isel_id.
  rewrite <- (map_id slab) at 2. apply map_ext_in. intros row Hrow.
  rewrite Forall_forall in Hr. rewrite <- (Hr row Hrow). apply isel_id.
Qed.

(** X11: the "Global" region keeps every cell of a field returned by
    [streamline_coords] whose latitudes lie between -90 and 90, whatever
    the longitude convention of the input was. *)
Theorem global_region_keeps_streamlined (s : store) (l : loc) (d : DataArray) :
  nth_error s l = Some d ->
  lon d <> [] ->
  Forall (fun la => -90 <= la /\ la <= 90) (lat d) ->
  exists l' s' d',
    streamline_coords l s = Ok (l', s')
    /\ nth_error s' l' = Some d'
    /\ sel_region REGION_Global d' = d'.
Proof.
  intros Hl Hne Hlat.
  assert (Hok : exists d', streamlined d = Ok d').
  { destruct (streamlined_cases d) as [[H0 _]|[(_ & _ & H)|(_ & _ & H)]];
      [contradiction | eexists; exact H | eexists; exact H]. }
  destruct Hok as (d' & H).
  destruct (streamline_coords_ok s l Hl H) as (l' & s' & Hrun & Hres & _).
  exists l', s', d'. split; [exact Hrun|]. split; [exact Hres|].
  destruct (streamlined_settled d H) as (_ & _ & _ & _ & Hw & _ & _ & Hshape).
  apply needs_wrap_false_iff in Hw. rewrite Forall_forall in Hw.
  apply sel_region_all; [exact Hshape| |].
  - intros x Hx. rewrite (streamlined_lat d H) in Hx.
    apply (Permutation_in _ (isel_argsort_perm (lat d))) in Hx.
    rewrite Forall_forall in Hlat. destruct (Hlat x Hx) as [H1 H2].
    unfold in_slice. simpl. apply andb_true_iff.
    split; apply Qle_bool_iff; assumption.
  - intros x Hx. destruct (Hw x Hx) as [H1 H2].
    unfold in_slice. simpl. apply andb_true_iff.
    split; apply Qle_bool_iff; assumption.
Qed.

Lemma global_region_keeps_streamlined_witness :
  exists l' s' d',
    streamline_coords 0%nat [mid_month_field] = Ok (l', s')
    /\ nth_error s' l' = Some d'
    /\ sel_region REGION_Global d' = d'.
Proof.
  apply (@global_region_keeps_streamlined [mid_month_field] 0%nat mid_month_field).
  - reflexivity.
  - discriminate.
  - repeat constructor; simpl; discriminate.
Defined.

(** Before normalisation the same region drops the longitudes counted
    beyond 180. *)
Example global_region_before_streamline :
  lon (sel_region REGION_Global mid_month_field) = [0; 90; 180].
Proof. reflexivity. Qed.


(* ===================================================================== *)
(** * Further properties: temporal resampler *)
(* ===================================================================== *)

Lemma resample_map_unordered {A B : Type} (key : timestamp -> Z)
    (h : timestamp * A -> timestamp * B) (x : series A) :
  is_monotonic_increasing (map (fun e => to_ns (fst e)) x) = false ->
  (forall e, fst (h e) = fst e) ->
  resample key (map h x) = Err ValueError.
Proof.
  intros Hm Hh. unfold resample. rewrite map_map.
  rewrite (map_ext (fun e => to_ns (fst (h e))) (fun e => to_ns (fst e)))
    by (intros e; now rewrite Hh).
  now rewrite Hm.
Qed.

Lemma annual_terms (da : series (option Q)) :
  map (fun dw : (timestamp * option Q) * (timestamp * Q) =>
         (fst (fst dw), omul (snd (fst dw)) (snd (snd dw))))
      (combine da (annual_weights da))
  = map (annual_term da) da.
Proof.
  change (annual_weights da) with (map (annual_weight da) da).
  rewrite combine_map_r, map_map. reflexivity.
Qed.

(** X12: resampling needs a time axis in ascending order: on a series whose
    timestamps are not, the annual average, the seasonal average and the
    seasonal table all raise a [ValueError]. *)
Theorem unordered_time_raises (da : series (option Q)) :
  is_monotonic_increasing (map (fun e => to_ns (fst e)) da) = false ->
  weighted_annual_average da = Err ValueError
  /\ weighted_seasonal_average da = Err ValueError
  /\ eobs_seasonal da = Err ValueError.
Proof.
  intros Hm.
  assert (Hs : weighted_seasonal_average da = Err ValueError).
  { unfold weighted_seasonal_average.
    change (map (fun e : timestamp * option Q =>
                   (fst e, omul (snd e) (inject_Z (dim (fst e))))) da)
      with (map seasonal_term da).
    now rewrite (resample_map_unordered quarter seasonal_term da Hm). }
  split; [|split; [exact Hs|]].
  - unfold weighted_annual_average. rewrite annual_terms.
    now rewrite (resample_map_unordered year (annual_term da) da Hm).
  - unfold eobs_seasonal. now rewrite Hs.
Qed.

Lemma unordered_time_raises_witness :
  weighted_annual_average
    [ (mkTime 2021 2 1 0, Some 2); (mkTime 2021 1 1 0, Some 1) ]
  = Err ValueError
  /\ weighted_seasonal_average
       [ (mkTime 2021 2 1 0, Some 2); (mkTime 2021 1 1 0, Some 1) ]
     = Err ValueError
  /\ eobs_seasonal
       [ (mkTime 2021 2 1 0, Some 2); (mkTime 2021 1 1 0, Some 1) ]
     = Err ValueError.
Proof.
  apply (@unordered_time_raises
           [ (mkTime 2021 2 1 0, Some 2); (mkTime 2021 1 1 0, Some 1) ]).
  reflexivity.
Defined.

Lemma forallb_false_exists {A : Type} (f : A -> bool) (l : list A) :
  forallb f l = false <-> exists x, In x l /\ f x = false.
Proof.
  induction l as [|a l IH]; simpl.
  - split; [discriminate | intros (x & [] & _)].
  - rewrite andb_false_iff, IH. split.
    + intros [H|(x & Hx & Hf)]; [exists a; auto | exists x; auto].
    + intros (x & [->|Hx] & Hf); [now left | right; eauto].
Qed.

Lemma weighted_annual_average_unfold (da : series (option Q)) :
  is_monotonic_increasing (map (fun e => to_ns (fst e)) da) = true ->
  weighted_annual_average da
  = if forallb (fun k => allclose_1
                   (sum_bin (map snd (map (annual_weight da) (entries_of year da k)))))
               (bins_of year da)
    then Ok (map (fun k =>
                    (year_start k,
                     odiv2 (sum_strict (map snd (map (annual_term da)
                                                    (entries_of year da k))))
                           (sum_bin (map snd (map (annual_weight da)
                                                 (entries_of year da k))))))
                 (bins_of year da))
    else Err AssertionError.
Proof.
  intros Hm. unfold weighted_annual_average. rewrite annual_terms.
  change (annual_weights da) with (map (annual_weight da) da).
  rewrite (resample_map year (annual_term da) da Hm) by reflexivity.
  rewrite (resample_map year (annual_weight da) da Hm) by reflexivity.
  cbn [rbind]. rewrite !map_map. cbn [fst snd].
  rewrite forallb_map_comp. cbn [snd].
  destruct (forallb _ (bins_of year da)); [|reflexivity].
  f_equal. rewrite combine_map_map, map_map. reflexivity.
Qed.

(** X13: on a series ordered in time, [weighted_annual_average] fails its
    assertion exactly when some calendar year between the first and the
    last timestamp has no month at all. *)
Theorem weighted_annual_average_gap_year (da : series (option Q)) :
  is_monotonic_increasing (map (fun e => to_ns (fst e)) da) = true ->
  weighted_annual_average da = Err AssertionError
  <-> exists y, In y (bins_of year da) /\ entries_of year da y = [].
Proof.
  intros Hm. rewrite (weighted_annual_average_unfold da Hm).
  destruct (forallb _ (bins_of year da)) eqn:E.
  - split; [discriminate|]. intros (y & Hy & He). exfalso.
    rewrite forallb_forall in E. specialize (E y Hy).
    rewrite He in E. discriminate.
  - split; [|reflexivity]. intros _.
    apply forallb_false_exists in E. destruct E as (y & Hy & Hf).
    exists y. split; [exact Hy|].
    destruct (entries_of year da y) as [|e es] eqn:Ee; [reflexivity|].
    exfalso.
    assert (Hne : entries_of year da y <> []) by (rewrite Ee; discriminate).
    pose proof (proj1 (@annual_bin da y Hne)) as Ht.
    rewrite Ee in Ht. congruence.
Qed.

Lemma weighted_annual_average_gap_year_witness :
  weighted_annual_average
    [ (mkTime 2021 1 1 0, Some 1); (mkTime 2023 1 1 0, Some 2) ]
  = Err AssertionError
  <-> exists y,
        In y (bins_of year [ (mkTime 2021 1 1 0, Some 1); (mkTime 2023 1 1 0, Some 2) ])
        /\ entries_of year
             [ (mkTime 2021 1 1 0, Some 1); (mkTime 2023 1 1 0, Some 2) ] y = [].
Proof.
  apply (@weighted_annual_average_gap_year
           [ (mkTime 2021 1 1 0, Some 1); (mkTime 2023 1 1 0, Some 2) ]).
  reflexivity.
Defined.

Lemma day_weighted_mean_bounds (es : series (option Q)) (lo hi r : Q) :
  (forall e v, In e es -> snd e = Some v -> lo <= v /\ v <= hi) ->
  day_weighted_mean es = Some r ->
  lo <= r /\ r <= hi.
Proof.
  intros Hv Hr. unfold day_weighted_mean in Hr.
  destruct es as [|e0 es0] eqn:Ees; [discriminate|]. rewrite <- Ees in *.
  destruct (all_defined es) eqn:Hd; [|discriminate]. injection Hr as <-.
  assert (Hpos : 0 < Qsum (map (fun e => inject_Z (dim (fst e))) es)).
  { apply sum_days_pos. rewrite Ees. discriminate. }
  assert (H : lo * Qsum (map (fun e => inject_Z (dim (fst e))) es)
              <= Qsum (map (fun e => fillna0 (snd e) * inject_Z (dim (fst e))) es)
              /\ Qsum (map (fun e => fillna0 (snd e) * inject_Z (dim (fst e))) es)
                 <= hi * Qsum (map (fun e => inject_Z (dim (fst e))) es)).
  { clear Ees Hpos. unfold all_defined in Hd.
    induction es as [|[t v] es IH]; simpl in *.
    - split; lra.
    - apply andb_true_iff in Hd. destruct Hd as [Hd0 Hd].
      destruct v as [v|]; [|discriminate]. simpl.
      destruct (Hv (t, Some v) v (or_introl eq_refl) eq_refl) as [H1 H2].
      assert (Hv' : forall e v', In e es -> snd e = Some v' -> lo <= v' /\ v' <= hi)
        by (intros e v' Hin; apply (Hv e v'); now right).
      destruct (IH Hv' Hd) as [I1 I2].
      assert (Hp : 0 <= inject_Z (dim t)).
      { rewrite <- (Zle_Qle 0). pose proof (dim_pos t). lia. }
      assert (lo * inject_Z (dim t) <= v * inject_Z (dim t))
        by (apply Qmult_le_compat_r; assumption).
      assert (v * inject_Z (dim t) <= hi * inject_Z (dim t))
        by (apply Qmult_le_compat_r; assumption).
      split; lra. }
  destruct H as [H1 H2]. split.
  - apply Qle_shift_div_l; assumption.
  - apply Qle_shift_div_r; assumption.
Qed.

Lemma oeq_Some_l (r : Q) (b : option Q) :
  oeq (Some r) b -> exists r', b = Some r' /\ r == r'.
Proof. destruct b as [r'|]; simpl; [eauto | contradiction]. Qed.

(** X14: an annual or a seasonal average lies between the smallest and the
    largest value of the series; in particular a constant series has
    constant averages. *)
Theorem temporal_averages_within_range (da : series (option Q)) (lo hi : Q) :
  is_monotonic_increasing (map (fun e => to_ns (fst e)) da) = true ->
  (forall e v, In e da -> snd e = Some v -> lo <= v /\ v <= hi) ->
  (forall res t r,
      weighted_annual_average da = Ok res -> In (t, Some r) res ->
      lo <= r /\ r <= hi)
  /\ (forall res t r,
         weighted_seasonal_average da = Ok res -> In (t, Some r) res ->
         lo <= r /\ r <= hi).
Proof.
  intros Hm Hv.
  assert (Hbin : forall (key : timestamp -> Z) k r r',
             day_weighted_mean (entries_of key da k) = Some r' -> r == r' ->
             lo <= r /\ r <= hi).
  { intros key k r r' Hd Hr. rewrite Hr.
    apply (day_weighted_mean_bounds (entries_of key da k)); [|exact Hd].
    intros e v He. apply Hv. unfold entries_of in He.
    apply filter_In in He. tauto. }
  split.
  - intros res t r Hres Hin.
    rewrite (weighted_annual_average_unfold da Hm) in Hres.
    destruct (forallb _ (bins_of year da)); [|discriminate].
    injection Hres as <-. apply in_map_iff in Hin.
    destruct Hin as (k & Hk & _). injection Hk as _ Hk.
    destruct (entries_of year da k) as [|e es] eqn:Ee; [discriminate|].
    assert (Hne : entries_of year da k <> []) by (rewrite Ee; discriminate).
    pose proof (proj2 (@annual_bin da k Hne)) as Hoeq.
    rewrite Ee, Hk in Hoeq. apply oeq_Some_l in Hoeq.
    destruct Hoeq as (r' & Hd & Hr). rewrite <- Ee in Hd.
    exact (Hbin year k r r' Hd Hr).
  - intros res t r Hres Hin.
    rewrite (weighted_seasonal_average_eval da Hm) in Hres.
    injection Hres as <-. apply in_map_iff in Hin.
    destruct Hin as (k & Hk & _). injection Hk as _ Hk.
    pose proof (seasonal_bin (entries_of quarter da k)) as Hoeq.
    rewrite Hk in Hoeq. apply oeq_Some_l in Hoeq.
    destruct Hoeq as (r' & Hd & Hr).
    exact (Hbin quarter k r r' Hd Hr).
Qed.

Lemma temporal_averages_within_range_witness :
  (forall res t r,
      weighted_annual_average jan_feb_series = Ok res -> In (t, Some r) res ->
      1 <= r /\ r <= 2)
  /\ (forall res t r,
         weighted_seasonal_average jan_feb_series = Ok res -> In (t, Some r) res ->
         1 <= r /\ r <= 2).
Proof.
  apply (@temporal_averages_within_range jan_feb_series 1 2).
  - reflexivity.
  - intros e v [<-|[<-|[]]] E; injection E as <-; split; discriminate.
Defined.

Lemma complete_year_days {A : Type} (da : series A) (y : Z) :
  map (fun e => month (fst e)) (entries_of year da y)
  = [1; 2; 3; 4; 5; 6; 7; 8; 9; 10; 11; 12]%Z ->
  Qsum (map (fun e => inject_Z (dim (fst e))) (entries_of year da y))
  == inject_Z (days_in_year y).
Proof.
  intros Hmonths. rewrite <- year_total_sum. unfold year_total.
  fold (entries_of year da y).
  assert (E : map (fun e => dim (fst e)) (entries_of year da y)
              = map (days_in_month y)
                    (map (fun e => month (fst e)) (entries_of year da y))).
  { rewrite map_map. apply map_ext_in. intros e He. unfold dim.
    now rewrite (@entries_of_year _ da y e He). }
  rewrite E, Hmonths. unfold days_in_year, days_in_month. cbn.
  destruct (is_leap y); reflexivity.
Qed.

(** X15: for a calendar year given by its twelve months, the annual average
    is the sum of the monthly values weighted by the days of their months
    over the number of days of that year, 365 or 366 ("no data" when a
    monthly value is missing). *)
Theorem weighted_annual_average_complete_year (da : series (option Q)) (y : Z)
    (res : series (option Q)) (r : option Q) :
  is_monotonic_increasing (map (fun e => to_ns (fst e)) da) = true ->
  weighted_annual_average da = Ok res ->
  map (fun e => month (fst e)) (entries_of year da y)
  = [1; 2; 3; 4; 5; 6; 7; 8; 9; 10; 11; 12]%Z ->
  In (year_start y, r) res ->
  oeq r (if all_defined (entries_of year da y)
         then Some (Qsum (map (fun e => fillna0 (snd e) * inject_Z (dim (fst e)))
                              (entries_of year da y))
                    / inject_Z (days_in_year y))
         else None).
Proof.
  intros Hm Hres Hmonths Hin.
  rewrite (weighted_annual_average_unfold da Hm) in Hres.
  destruct (forallb _ (bins_of year da)); [|discriminate].
  injection Hres as <-. apply in_map_iff in Hin.
  destruct Hin as (k & Hk & _). injection Hk as Hy Hk. subst k.
  assert (Hne : entries_of year da y <> []).
  { intros E. rewrite E in Hmonths. discriminate. }
  pose proof (proj2 (@annual_bin da y Hne)) as Hoeq. rewrite Hk in Hoeq.
  eapply oeq_trans; [exact Hoeq|].
  unfold day_weighted_mean.
  destruct (entries_of year da y) as [|e es] eqn:Ee; [congruence|].
  rewrite <- Ee in *.
  destruct (all_defined (entries_of year da y)); [|exact I].
  simpl. rewrite (complete_year_days da y Hmonths). reflexivity.
Qed.

(** A leap year of twelve months, the value of each month being its
    number. *)
Lemma weighted_annual_average_complete_year_witness :
  exists res,
    weighted_annual_average
      (map (fun t => (t, Some (inject_Z (month t)))) (months_from 12 (mkTime 2020 1 1 0)))
    = Ok res
    /\ forall r,
         In (year_start 2020, r) res ->
         oeq r
           (if all_defined
                 (entries_of year
                    (map (fun t => (t, Some (inject_Z (month t))))
                         (months_from 12 (mkTime 2020 1 1 0))) 2020)
            then Some (Qsum (map (fun e => fillna0 (snd e) * inject_Z (dim (fst e)))
                                 (entries_of year
                                    (map (fun t => (t, Some (inject_Z (month t))))
                                         (months_from 12 (mkTime 2020 1 1 0))) 2020))
                       / inject_Z (days_in_year 2020))
            else None).
Proof.
  eexists. split; [vm_compute; reflexivity|].
  intros r Hin.
  eapply (@weighted_annual_average_complete_year
            (map (fun t => (t, Some (inject_Z (month t))))
                 (months_from 12 (mkTime 2020 1 1 0)))
            2020).
  4: exact Hin.
  all: vm_compute; reflexivity.
Defined.

(** ** Labels of the seasons *)

Lemma quarter_start_label (k : Z) :
  is_month_start (quarter_start k)
  /\ In (month (quarter_start k)) [12; 3; 6; 9]%Z
  /\ quarter (quarter_start k) = k.
Proof.
  unfold is_month_start, quarter, quarter_start. cbn [year month day nanos].
  assert (Hr : ((3 * k - 1) mod 12 = 2 \/ (3 * k - 1) mod 12 = 5
                \/ (3 * k - 1) mod 12 = 8 \/ (3 * k - 1) mod 12 = 11)%Z).
  { Z.div_mod_to_equations. lia. }
  split; [repeat split; lia|]. split.
  - cbn [In]. lia.
  - Z.div_mod_to_equations. lia.
Qed.

Lemma label_year (k : Z) :
  year (add_days 31 (quarter_start k)) = (k / 4)%Z.
Proof.
  destruct (quarter_start_label k) as (_ & Hmonth & _).
  cbn [In] in Hmonth.
  assert (HM : (month (quarter_start k) = 12 \/ month (quarter_start k) = 3
                \/ month (quarter_start k) = 6 \/ month (quarter_start k) = 9)%Z)
    by lia.
  destruct (@add_31_days_quarter_start (year (quarter_start k))
              (month (quarter_start k)) HM) as [Hy _].
  change (add_days 31 (quarter_start k))
    with (add_days 31 {| year := year (quarter_start k);
                         month := month (quarter_start k);
                         day := 1; nanos := 0 |}).
  rewrite Hy. clear Hy Hmonth.
  destruct (month (quarter_start k) =? 12)%Z eqn:E;
    [apply Z.eqb_eq in E | apply Z.eqb_neq in E];
    unfold quarter_start in *; cbn [year month] in *;
    Z.div_mod_to_equations; lia.
Qed.

(** X16: the seasonal average of a series ordered in time has one entry per
    quarter from the one of the first timestamp to the one of the last;
    each entry is labelled with midnight of the first day of a December,
    March, June or September, and the label lies in the quarter it
    labels. *)
Theorem weighted_seasonal_average_labels (ds : series (option Q)) :
  is_monotonic_increasing (map (fun e => to_ns (fst e)) ds) = true ->
  exists avg,
    weighted_seasonal_average ds = Ok avg
    /\ map (fun e => quarter (fst e)) avg = bins_of quarter ds
    /\ Forall (fun e => is_month_start (fst e)
                        /\ In (month (fst e)) [12; 3; 6; 9]%Z) avg.
Proof.
  intros Hm. eexists. split; [apply (weighted_seasonal_average_eval ds Hm)|].
  split.
  - rewrite map_map. cbn [fst]. rewrite <- (map_id (bins_of quarter ds)) at 2.
    apply map_ext. intros k. apply quarter_start_label.
  - apply Forall_forall. intros e He. apply in_map_iff in He.
    destruct He as (k & <- & _). cbn [fst].
    destruct (quarter_start_label k) as (H1 & H2 & _). split; assumption.
Qed.

Lemma weighted_seasonal_average_labels_witness :
  exists avg,
    weighted_seasonal_average jan_feb_series = Ok avg
    /\ map (fun e => quarter (fst e)) avg = bins_of quarter jan_feb_series
    /\ Forall (fun e => is_month_start (fst e)
                        /\ In (month (fst e)) [12; 3; 6; 9]%Z) avg.
Proof.
  apply (@weighted_seasonal_average_labels jan_feb_series). reflexivity.
Defined.

Lemma last_in_list {A : Type} (d : A) (l : list A) : l <> [] -> In (last l d) l.
Proof.
  induction l as [|a l IH]; intros Hne; [congruence|].
  destruct l as [|b l]; [now left|].
  right. apply IH. discriminate.
Qed.

Lemma bin_range_bounds (k0 k1 k : Z) :
  In k (bin_range k0 k1) -> (k0 <= k <= k1)%Z.
Proof.
  unfold bin_range. intros H. apply in_map_iff in H.
  destruct H as (i & <- & Hi). apply in_seq in Hi. lia.
Qed.

Lemma existsb_none {A : Type} (f : A -> bool) (l : list A) :
  (forall x, In x l -> f x = false) -> existsb f l = false.
Proof.
  induction l as [|a l IH]; intros H; simpl; [reflexivity|].
  rewrite (H a (or_introl eq_refl)), IH; [reflexivity|].
  intros x Hx. apply H. now right.
Qed.

Lemma existsb_map_comp {A B : Type} (f : B -> bool) (g : A -> B) (l : list A) :
  existsb f (map g l) = existsb (fun x => f (g x)) l.
Proof.
  induction l as [|a l IH]; simpl; [reflexivity|]. now rewrite IH.
Qed.

(** X17: the seasonal table of the script can only be built from data that
    reach the winters of 1950 and 2023: on a series ordered in time that
    is not empty and whose timestamps all lie after 1950, or all before
    2022, the invalidation of these two winters raises a [KeyError]. *)
Theorem eobs_seasonal_needs_1950_and_2023 (ds : series (option Q)) :
  ds <> [] ->
  is_monotonic_increasing (map (fun e => to_ns (fst e)) ds) = true ->
  (forall e, In e ds -> (1 <= month (fst e) <= 12)%Z) ->
  (forall e, In e ds -> (1951 <= year (fst e))%Z)
  \/ (forall e, In e ds -> (year (fst e) <= 2021)%Z) ->
  eobs_seasonal ds = Err KeyError.
Proof.
  intros Hne Hm Hmonth Hyears. unfold eobs_seasonal.
  rewrite (weighted_seasonal_average_eval ds Hm). cbn [rbind].
  unfold convert_time_to_year_season. rewrite !map_map. cbn [fst snd].
  unfold loc_set_nan.
  match goal with
  | |- (if ?a && ?b then _ else _) = _ => assert (Hb : b = false)
  end.
  { cbn [forallb]. rewrite !existsb_map_comp.
    cbn [fst]. rewrite andb_true_r. apply andb_false_iff.
    destruct ds as [|e0 ds0]; [congruence|].
    assert (H0 : In e0 (e0 :: ds0)) by now left.
    assert (H1 : In (last (e0 :: ds0) e0) (e0 :: ds0))
      by (apply last_in_list; discriminate).
    pose proof (Hmonth _ H0) as Hm0. pose proof (Hmonth _ H1) as Hm1.
    destruct Hyears as [Hy|Hy]; [left | right]; apply existsb_none;
      intros k Hk; apply bin_range_bounds in Hk; rewrite label_year;
      apply Z.eqb_neq; unfold quarter in Hk.
    - pose proof (Hy _ H0). Z.div_mod_to_equations. lia.
    - pose proof (Hy _ H1). Z.div_mod_to_equations. lia. }
  rewrite Hb, andb_false_r. reflexivity.
Qed.

Lemma eobs_seasonal_needs_1950_and_2023_witness :
  eobs_seasonal jan_feb_series = Err KeyError.
Proof.
  apply (@eobs_seasonal_needs_1950_and_2023 jan_feb_series).
  - discriminate.
  - reflexivity.
  - intros e [<- | [<- | []]]; simpl; lia.
  - left. intros e [<- | [<- | []]]; simpl; lia.
Defined.

(* ===================================================================== *)
(** * Further properties: offsets, anomalies and period means *)
(* ===================================================================== *)

Lemma sums_minus (l : list (option Q)) (c : Q) :
  Qsum (map fillna0 (map (fun v => osub v (Some c)) l))
  == Qsum (map fillna0 l) - c * Qsum (map notnull l)
  /\ Qsum (map notnull (map (fun v => osub v (Some c)) l))
     == Qsum (map notnull l).
Proof.
  induction l as [|[v|] l [IH1 IH2]].
  - split; simpl; ring.
  - cbn [map osub fillna0 notnull Qsum fold_right] in *.
    change (fold_right Qplus 0) with Qsum. rewrite IH1, IH2. split; ring.
  - cbn [map osub fillna0 notnull Qsum fold_right] in *.
    change (fold_right Qplus 0) with Qsum. rewrite IH1, IH2. split; ring.
Qed.

Lemma nanmean_minus (l : list (option Q)) (c : Q) :
  oeq (nanmean (map (fun v => osub v (Some c)) l)) (osub (nanmean l) (Some c)).
Proof.
  unfold nanmean. destruct (sums_minus l c) as [H1 H2].
  rewrite (Qeqb_comp _ _ H2 0 0 (Qeq_refl 0)).
  destruct (Qeq_bool (Qsum (map notnull l)) 0) eqn:E; simpl; [exact I|].
  apply Qeq_bool_neq in E. rewrite H1, H2. field. exact E.
Qed.

Lemma nanmean_minus_nan (l : list (option Q)) :
  nanmean (map (fun v => osub v None) l) = None.
Proof.
  unfold nanmean.
  assert (H : Qsum (map notnull (map (fun v => osub v None) l)) == 0).
  { induction l as [|[v|] l IH]; simpl in *; [reflexivity | |];
      rewrite IH; ring. }
  now rewrite (Qeqb_comp _ _ H 0 0 (Qeq_refl 0)).
Qed.

Lemma nanmean_centred (l : list (option Q)) :
  oeq (nanmean (map (fun v => osub v (nanmean l)) l))
      (match nanmean l with Some _ => Some 0 | None => None end).
Proof.
  destruct (nanmean l) as [c|] eqn:E.
  - eapply oeq_trans; [apply nanmean_minus|]. rewrite E. simpl. ring.
  - rewrite nanmean_minus_nan. exact I.
Qed.

(** The entries of a reference-period month keep their place when only
    the values of a series change. *)
Lemma month_entries_map (g : timestamp * option Q -> option Q)
    (da : series (option Q)) (m : Z) :
  filter (fun e => (month (fst e) =? m)%Z)
         (sel_REF_PERIOD (map (fun e => (fst e, g e)) da))
  = map (fun e => (fst e, g e))
        (filter (fun e => (month (fst e) =? m)%Z) (sel_REF_PERIOD da)).
Proof.
  unfold sel_REF_PERIOD. now rewrite !filter_map_swap.
Qed.

Lemma monthly_climatology_map (g : timestamp * option Q -> option Q)
    (da : series (option Q)) (m : Z) :
  climatology_at (monthly_climatology (map (fun e => (fst e, g e)) da)) m
  = if existsb (fun k => (k =? m)%Z)
         (filter (fun k => existsb (fun e => (month (fst e) =? k)%Z)
                                   (sel_REF_PERIOD da))
                 (map Z.of_nat (seq 1 12)))
    then nanmean (map g (filter (fun e => (month (fst e) =? m)%Z)
                                (sel_REF_PERIOD da)))
    else None.
Proof.
  unfold monthly_climatology.
  rewrite (climatology_at_map
             (fun k => nanmean (map snd (filter (fun e => (month (fst e) =? k)%Z)
                          (sel_REF_PERIOD (map (fun e => (fst e, g e)) da)))))).
  rewrite month_entries_map, map_map. cbn [snd].
  assert (Hf : forall k,
             existsb (fun e : timestamp * option Q => (month (fst e) =? k)%Z)
                     (sel_REF_PERIOD (map (fun e => (fst e, g e)) da))
             = existsb (fun e => (month (fst e) =? k)%Z) (sel_REF_PERIOD da)).
  { intros k. unfold sel_REF_PERIOD. rewrite filter_map_swap.
    rewrite existsb_map_comp. reflexivity. }
  rewrite (filter_ext _ _ Hf). reflexivity.
Qed.

Lemma monthly_climatology_unfold (da : series (option Q)) (m : Z) :
  climatology_at (monthly_climatology da) m
  = if existsb (fun k => (k =? m)%Z)
         (filter (fun k => existsb (fun e => (month (fst e) =? k)%Z)
                                   (sel_REF_PERIOD da))
                 (map Z.of_nat (seq 1 12)))
    then nanmean (map snd (filter (fun e => (month (fst e) =? m)%Z)
                                  (sel_REF_PERIOD da)))
    else None.
Proof.
  unfold monthly_climatology.
  now rewrite (climatology_at_map
             (fun k => nanmean (map snd (filter (fun e => (month (fst e) =? k)%Z)
                          (sel_REF_PERIOD da))))).
Qed.

Lemma monthly_climatology_minus_const (da : series (option Q)) (c : Q) (m : Z) :
  oeq (climatology_at (monthly_climatology (minus_const da c)) m)
      (osub (climatology_at (monthly_climatology da) m) (Some c)).
Proof.
  unfold minus_const.
  rewrite (monthly_climatology_map (fun e => osub (snd e) (Some c))).
  rewrite monthly_climatology_unfold.
  match goal with |- context [if ?b then _ else _] => destruct b end;
    [|exact I].
  rewrite <- (map_map snd (fun v => osub v (Some c))).
  apply nanmean_minus.
Qed.

(** X18: subtracting a constant from a series, as the conversion from
    Kelvin to degrees Celsius does, leaves its anomalies relative to its
    own monthly climatology unchanged. *)
Theorem anomaly_offset_invariant (da : series (option Q)) (c : Q) :
  same_series
    (anomaly (minus_const da c) (monthly_climatology (minus_const da c)))
    (anomaly da (monthly_climatology da)).
Proof.
  unfold same_series, anomaly.
  pose proof (monthly_climatology_minus_const da c) as Hc.
  revert Hc.
  generalize (climatology_at (monthly_climatology (minus_const da c))) as C'.
  generalize (climatology_at (monthly_climatology da)) as C.
  intros C C' Hc. unfold minus_const. rewrite map_map. cbn [fst snd].
  induction da as [|e da IH]; simpl; constructor; [|exact IH].
  split; [reflexivity|]. cbn [fst snd].
  specialize (Hc (month (fst e))).
  destruct (snd e) as [v|]; destruct (C (month (fst e))) as [x|];
    destruct (C' (month (fst e))) as [y|]; simpl in *;
    try contradiction; try exact I.
  rewrite Hc. ring.
Qed.

(** X19: the anomalies of a series have a monthly climatology of zero: in
    every calendar month the mean over the reference period of the
    anomalies is zero where the climatology of the series is defined,
    and missing where it is not. *)
Theorem anomaly_climatology_zero (da : series (option Q)) (m : Z) :
  oeq (climatology_at
         (monthly_climatology (anomaly da (monthly_climatology da))) m)
      (match climatology_at (monthly_climatology da) m with
       | Some _ => Some 0
       | None => None
       end).
Proof.
  unfold anomaly.
  rewrite (monthly_climatology_map
             (fun e => osub (snd e)
                         (climatology_at (monthly_climatology da) (month (fst e))))).
  set (es := filter (fun e => (month (fst e) =? m)%Z) (sel_REF_PERIOD da)).
  assert (Hes : map (fun e : timestamp * option Q =>
                       osub (snd e)
                         (climatology_at (monthly_climatology da) (month (fst e)))) es
                = map (fun v => osub v (climatology_at (monthly_climatology da) m))
                      (map snd es)).
  { rewrite map_map. apply map_ext_in. intros e He.
    apply filter_In in He. destruct He as [_ He].
    apply Z.eqb_eq in He. now rewrite He. }
  rewrite Hes. clear Hes.
  destruct (climatology_at (monthly_climatology da) m) as [c|] eqn:E.
  - rewrite monthly_climatology_unfold in E. fold es in E.
    match type of E with (if ?b then _ else _) = _ => destruct b end;
      [|discriminate].
    eapply oeq_trans; [apply nanmean_minus|].
    rewrite E. simpl. ring.
  - rewrite nanmean_minus_nan.
    match goal with |- context [if ?b then _ else _] => destruct b end;
      exact I.
Qed.

(** X20: the anomalies relative to the mean of the reference period have a
    reference-period mean of zero, and are all missing when the
    reference period has no value. *)
Theorem reference_anomaly_centred (da : series (option Q)) :
  oeq (mean_time (sel_REF_PERIOD (reference_anomaly da)))
      (match mean_time (sel_REF_PERIOD da) with
       | Some _ => Some 0
       | None => None
       end)
  /\ (mean_time (sel_REF_PERIOD da) = None ->
      Forall (fun e => snd e = None) (reference_anomaly da)).
Proof.
  unfold reference_anomaly, mean_time. split.
  - set (c := nanmean (map snd (sel_REF_PERIOD da))).
    unfold sel_REF_PERIOD at 1. rewrite filter_map_swap. cbn [fst].
    fold (sel_REF_PERIOD da). rewrite map_map. cbn [snd].
    rewrite <- (map_map snd (fun v => osub v c)). apply nanmean_centred.
  - intros ->. apply Forall_forall. intros e He.
    apply in_map_iff in He. destruct He as (x & <- & _). cbn [snd].
    now destruct (snd x).
Qed.

(* ===================================================================== *)
(** * Further properties: period mean and year-month tables *)
(* ===================================================================== *)

Lemma period_mean_sums (clim : series (option Q)) :
  Qsum (map (fun e => fillna0 (omul (snd e) (inject_Z (dim (fst e))))) clim)
  == Qsum (map (fun e => fillna0 (snd e) * inject_Z (dim (fst e))) clim).
Proof.
  apply Qsum_ext. intros [t [v|]] _; simpl; ring.
Qed.

Lemma period_mean_eval (clim : series (option Q)) :
  clim <> [] ->
  exists r,
    period_mean clim = Some r
    /\ r == Qsum (map (fun e => fillna0 (snd e) * inject_Z (dim (fst e))) clim)
            / Qsum (map (fun e => inject_Z (dim (fst e))) clim).
Proof.
  intros Hne. unfold period_mean.
  pose proof (@sum_days_pos _ clim Hne) as Hpos.
  destruct (Qeq_bool (Qsum (map (fun e => inject_Z (dim (fst e))) clim)) 0) eqn:E.
  - apply Qeq_bool_iff in E. rewrite E in Hpos.
    exfalso. exact (Qlt_irrefl _ Hpos).
  - eexists. split; [reflexivity|]. now rewrite period_mean_sums.
Qed.

(** X21: the mean over the climatology period is a number for every series
    that is not empty, also when values are missing: it is the
    day-weighted mean of the series with every missing value replaced by
    zero, so a missing month counts as zero with the full weight of its
    days. *)
Theorem period_mean_counts_missing_as_zero (clim : series (option Q)) :
  clim <> [] ->
  exists r,
    period_mean clim = Some r
    /\ oeq (Some r) (day_weighted_mean (map fill_zero clim)).
Proof.
  intros Hne. destruct (period_mean_eval Hne) as (r & Hr & Hv).
  exists r. split; [exact Hr|].
  unfold day_weighted_mean.
  destruct clim as [|e clim']; [congruence|].
  set (es := e :: clim') in *. change (map fill_zero es)
    with (fill_zero e :: map fill_zero clim').
  change (fill_zero e :: map fill_zero clim') with (map fill_zero es).
  assert (Hd : all_defined (map fill_zero es) = true).
  { unfold all_defined. rewrite forallb_map_comp.
    apply forallb_forall. reflexivity. }
  rewrite Hd. simpl oeq. rewrite Hv, !map_map. reflexivity.
Qed.

Lemma period_mean_counts_missing_as_zero_witness :
  exists r,
    period_mean [ (mkTime 2021 1 1 0, Some 1); (mkTime 2021 2 1 0, None) ] = Some r
    /\ oeq (Some r)
           (day_weighted_mean
              (map fill_zero
                   [ (mkTime 2021 1 1 0, Some 1); (mkTime 2021 2 1 0, None) ])).
Proof.
  apply (@period_mean_counts_missing_as_zero
           [ (mkTime 2021 1 1 0, Some 1); (mkTime 2021 2 1 0, None) ]).
  discriminate.
Defined.

Lemma bin_range_one (k : Z) : bin_range k k = [k].
Proof.
  unfold bin_range. replace (k - k + 1)%Z with 1%Z by lia.
  simpl. now rewrite Z.add_0_r.
Qed.

(** X22: on a series ordered in time whose timestamps all lie in one year,
    the annual average has that year as its only entry; when no value is
    missing it equals the mean over the period, and it is missing as soon
    as one value is, where the period mean still is a number. *)
Theorem single_year_average_is_period_mean (da : series (option Q)) (y : Z) :
  da <> [] ->
  is_monotonic_increasing (map (fun e => to_ns (fst e)) da) = true ->
  (forall e, In e da -> year (fst e) = y) ->
  exists r,
    weighted_annual_average da = Ok [(year_start y, r)]
    /\ oeq r (if all_defined da then period_mean da else None).
Proof.
  intros Hne Hm Hy.
  assert (Hbins : bins_of year da = [y]).
  { unfold bins_of. destruct da as [|e0 da0] eqn:E; [congruence|].
    rewrite <- E in *.
    rewrite (Hy e0) by (rewrite E; now left).
    rewrite (Hy (last da e0)) by (apply last_in_list; exact Hne).
    apply bin_range_one. }
  assert (Hes : entries_of year da y = da).
  { unfold entries_of. apply filter_all. intros e He.
    apply Z.eqb_eq. now apply Hy. }
  rewrite (weighted_annual_average_eval da Hm).
  2:{ rewrite Hbins. intros k [<-|[]]. now rewrite Hes. }
  rewrite Hbins. cbn [map]. eexists. split; [reflexivity|].
  assert (Hne' : entries_of year da y <> []) by now rewrite Hes.
  eapply oeq_trans; [exact (proj2 (@annual_bin da y Hne'))|].
  rewrite Hes. unfold day_weighted_mean.
  destruct da as [|e0 da0] eqn:E; [congruence|]. rewrite <- E in *.
  destruct (all_defined da); [|exact I].
  destruct (period_mean_eval Hne) as (r & -> & Hr).
  simpl. now rewrite Hr.
Qed.

Lemma single_year_average_is_period_mean_witness :
  exists r,
    weighted_annual_average jan_feb_series = Ok [(year_start 2021, r)]
    /\ oeq r (if all_defined jan_feb_series
              then period_mean jan_feb_series else None).
Proof.
  apply (@single_year_average_is_period_mean jan_feb_series 2021).
  - discriminate.
  - reflexivity.
  - intros e [<- | [<- | []]]; reflexivity.
Defined.

(** ** Year-month tables *)

Lemma pair_eqb_eq (a b : Z * Z) : pair_eqb a b = true <-> a = b.
Proof.
  unfold pair_eqb. destruct a as [a1 a2], b as [b1 b2]. cbn [fst snd].
  rewrite andb_true_iff, !Z.eqb_eq. split.
  - intros [-> ->]. reflexivity.
  - intros E. injection E as -> ->. split; reflexivity.
Qed.

Lemma is_unique_NoDup (l : list (Z * Z)) : is_unique l = true <-> NoDup l.
Proof.
  induction l as [|k l IH]; simpl.
  - split; [constructor | reflexivity].
  - rewrite andb_true_iff, negb_true_iff, IH. split.
    + intros [Hk Hl]. constructor; [|exact Hl].
      intros Hin. apply not_true_iff_false in Hk. apply Hk.
      apply existsb_exists. exists k. split; [exact Hin|].
      now apply pair_eqb_eq.
    + intros H. inversion H as [|? ? Hk Hl]; subst. split; [|exact Hl].
      apply not_true_iff_false. intros Hex. apply existsb_exists in Hex.
      destruct Hex as (x & Hx & E). apply pair_eqb_eq in E. now subst.
Qed.

Lemma ym_get_in (ds : series (option Q)) (e : timestamp * option Q) :
  NoDup (map (fun e => (year (fst e), month (fst e))) ds) ->
  In e ds ->
  ym_get (map (fun e => ((year (fst e), month (fst e)), snd e)) ds)
         (year (fst e)) (month (fst e))
  = snd e.
Proof.
  unfold ym_get. induction ds as [|d ds IH]; intros Hnd Hin; [destruct Hin|].
  simpl in Hnd. inversion Hnd as [|? ? Hd Hnd']; subst.
  cbn [map find fst snd].
  destruct (pair_eqb (year (fst d), month (fst d))
                     (year (fst e), month (fst e))) eqn:E.
  - destruct Hin as [->|Hin]; [reflexivity|].
    apply pair_eqb_eq in E. exfalso. apply Hd. rewrite E.
    apply (in_map (fun e => (year (fst e), month (fst e)))). exact Hin.
  - destruct Hin as [->|Hin].
    + apply not_true_iff_false in E. exfalso. apply E. now apply pair_eqb_eq.
    + now apply IH.
Qed.

Lemma ym_get_absent (ds : series (option Q)) (y m : Z) :
  ~ In (y, m) (map (fun e => (year (fst e), month (fst e))) ds) ->
  ym_get (map (fun e => ((year (fst e), month (fst e)), snd e)) ds) y m = None.
Proof.
  unfold ym_get. induction ds as [|d ds IH]; intros Hn; [reflexivity|].
  cbn [map find fst snd].
  destruct (pair_eqb (year (fst d), month (fst d)) (y, m)) eqn:E.
  - apply pair_eqb_eq in E. exfalso. apply Hn. left. exact E.
  - apply IH. intros Hin. apply Hn. now right.
Qed.

(** The conversion succeeds exactly on the series that hold every
    (year, month) pair at most once. *)
Lemma convert_coords_needs_unique_months (ds : series (option Q)) :
  (NoDup (map (fun e => (year (fst e), month (fst e))) ds)
   <-> exists t, convert_coords_time_to_year_month ds = Ok t)
  /\ (~ NoDup (map (fun e => (year (fst e), month (fst e))) ds)
      <-> convert_coords_time_to_year_month ds = Err ValueError).
Proof.
  unfold convert_coords_time_to_year_month.
  pose proof (is_unique_NoDup (map (fun e => (year (fst e), month (fst e))) ds))
    as Hu.
  destruct (is_unique (map (fun e => (year (fst e), month (fst e))) ds)).
  - split; split.
    + intros _. eexists. reflexivity.
    + intros _. now apply Hu.
    + intros Hn. exfalso. apply Hn. now apply Hu.
    + discriminate.
  - split; split.
    + intros Hn. apply Hu in Hn. discriminate.
    + intros [t Ht]. discriminate.
    + reflexivity.
    + intros _ Hn. apply Hu in Hn. discriminate.
Qed.

(** X23: a (year, month) table gives back the series it was made from: the
    value of every entry is found at the year and the month of its
    timestamp, and every pair that no timestamp has holds no data. *)
Theorem convert_coords_round_trip (ds : series (option Q)) (t : ym_table) :
  convert_coords_time_to_year_month ds = Ok t ->
  (forall e, In e ds -> ym_get t (year (fst e)) (month (fst e)) = snd e)
  /\ (forall y m,
         (forall e, In e ds -> year (fst e) <> y \/ month (fst e) <> m) ->
         ym_get t y m = None).
Proof.
  unfold convert_coords_time_to_year_month. intros H.
  destruct (is_unique (map (fun e => (year (fst e), month (fst e))) ds)) eqn:Eu;
    [|discriminate].
  injection H as <-. apply is_unique_NoDup in Eu. split.
  - intros e He. now apply ym_get_in.
  - intros y m Hn. apply ym_get_absent. intros Hin.
    apply in_map_iff in Hin. destruct Hin as (e & E & He).
    injection E as Ey Em. destruct (Hn e He); contradiction.
Qed.

Lemma convert_coords_round_trip_witness :
  (forall e, In e jan_feb_series ->
             ym_get (map (fun e => ((year (fst e), month (fst e)), snd e))
                         jan_feb_series)
                    (year (fst e)) (month (fst e)) = snd e)
  /\ (forall y m,
         (forall e, In e jan_feb_series ->
                    year (fst e) <> y \/ month (fst e) <> m) ->
         ym_get (map (fun e => ((year (fst e), month (fst e)), snd e))
                     jan_feb_series) y m = None).
Proof.
  apply (@convert_coords_round_trip jan_feb_series). reflexivity.
Defined.

Lemma insert_level_below (y : Z) (l : list Z) :
  Forall (fun x => (y < x)%Z) l -> insert_level y l = y :: l.
Proof.
  intros H. destruct l as [|x l]; [reflexivity|].
  inversion H as [|? ? Hx _]; subst. simpl.
  apply Z.ltb_lt in Hx. now rewrite Hx.
Qed.

Lemma levels_ascending (l : list Z) :
  StronglySorted Z.lt l -> levels l = l.
Proof.
  induction 1 as [|y l Hl IH Hy]; [reflexivity|].
  simpl. rewrite IH. now apply insert_level_below.
Qed.

Lemma bin_range_ascending (k0 k1 : Z) : StronglySorted Z.lt (bin_range k0 k1).
Proof.
  unfold bin_range. generalize (Z.to_nat (k1 - k0 + 1)) as n.
  generalize 0%nat as s. intros s n. revert s.
  induction n as [|n IH]; intros s; simpl; constructor; [apply IH|].
  apply Forall_forall. intros x Hx. apply in_map_iff in Hx.
  destruct Hx as (i & <- & Hi). apply in_seq in Hi. lia.
Qed.

Lemma bins_of_ascending {A : Type} (key : timestamp -> Z) (x : series A) :
  StronglySorted Z.lt (bins_of key x).
Proof.
  unfold bins_of. destruct x; [constructor | apply bin_range_ascending].
Qed.

Lemma weighted_annual_average_bins (da waa : series (option Q)) :
  weighted_annual_average da = Ok waa ->
  exists f, waa = map (fun k => (year_start k, f k)) (bins_of year da).
Proof.
  intros H.
  destruct (is_monotonic_increasing (map (fun e => to_ns (fst e)) da)) eqn:Hm.
  - rewrite (weighted_annual_average_unfold da Hm) in H.
    destruct (forallb _ (bins_of year da)); [|discriminate].
    injection H as <-. eexists (fun k => _). reflexivity.
  - unfold weighted_annual_average in H. rewrite annual_terms in H.
    rewrite (resample_map_unordered year (annual_term da) da Hm) in H
      by reflexivity.
    discriminate.
Qed.

Lemma ym_get_january (f : Z -> option Q) (l : list Z) (y : Z) :
  In y l ->
  ym_get (map (fun k => ((k, 1%Z), f k)) l) y 1 = f y.
Proof.
  unfold ym_get. induction l as [|k l IH]; intros Hin; [destruct Hin|].
  cbn [map find fst snd].
  destruct (pair_eqb (k, 1%Z) (y, 1%Z)) eqn:E.
  - apply pair_eqb_eq in E. injection E as ->. reflexivity.
  - destruct Hin as [->|Hin]; [|now apply IH].
    apply not_true_iff_false in E. exfalso. apply E. now apply pair_eqb_eq.
Qed.

(** X24: the yearly anomalies hold, for every year of the annual average
    and in its order, the value of that year: the conversion to a
    (year, month) table never fails on annual averages, and month 1 is
    where all their values are. *)
Theorem yearly_anoms_are_annual_averages (anom waa : series (option Q)) :
  weighted_annual_average anom = Ok waa ->
  waa <> [] ->
  yearly_anoms anom = Ok (map (fun e => (year (fst e), snd e)) waa).
Proof.
  intros Hw Hne. unfold yearly_anoms. rewrite Hw. cbn [rbind].
  destruct (@weighted_annual_average_bins _ _ Hw) as (f & ->).
  pose proof (bins_of_ascending year anom) as Hasc.
  set (bins := bins_of year anom) in *.
  unfold convert_coords_time_to_year_month. rewrite !map_map.
  cbn [fst snd year_start year month].
  assert (Hu : is_unique (map (fun k : Z => (k, 1%Z)) bins) = true).
  { clear -Hasc. induction Hasc as [|k l _ IH Hk]; [reflexivity|].
    cbn [map is_unique]. rewrite IH, andb_true_r. apply negb_true_iff.
    rewrite existsb_map_comp. apply existsb_none. intros x Hx.
    rewrite Forall_forall in Hk. specialize (Hk x Hx).
    unfold pair_eqb. cbn [fst snd].
    assert (E : (k =? x)%Z = false) by (apply Z.eqb_neq; lia).
    now rewrite E. }
  rewrite Hu. cbn [rbind]. unfold sel_month. rewrite existsb_map_comp.
  cbn [fst snd].
  destruct bins as [|k0 bins'] eqn:Eb; [now destruct Hne|]. rewrite <- Eb in *.
  assert (Hex : existsb (fun _ : Z => (1 =? 1)%Z) bins = true)
    by (rewrite Eb; reflexivity).
  rewrite Hex, !map_map. cbn [fst].
  rewrite map_id, (levels_ascending Hasc).
  f_equal. apply map_ext_in. intros k Hk. f_equal.
  now apply ym_get_january.
Qed.

Lemma yearly_anoms_are_annual_averages_witness :
  exists waa,
    weighted_annual_average jan_feb_series = Ok waa
    /\ yearly_anoms jan_feb_series
       = Ok (map (fun e => (year (fst e), snd e)) waa).
Proof.
  eexists. split; [vm_compute; reflexivity|].
  eapply (@yearly_anoms_are_annual_averages jan_feb_series).
  - vm_compute. reflexivity.
  - discriminate.
Defined.
